(** * AugmentOS Cloud: session and routing core

    A shallow embedding of the session core of AugmentOS Cloud
    (websocket.service.ts, transcription.service.ts), of the client-side
    VAD gate (SpeechRecAugmentos.java) and of the event and settings
    managers of the TPA SDK (events.ts, settings.ts), with the properties
    of the specification stated and settled against it, followed by
    further properties of the same code.

    Conventions.  A JavaScript [Set<string>] is a [gset string], a
    [Map<string, V>] whose iteration order is irrelevant is a
    [gmap string V], arrays are lists.  Code that throws or awaits a
    fallible collaborator lives in the monad [M] (state plus exceptions);
    calls to the collaborators of the service (app catalog, webhooks, user
    store, display manager) are recorded in a trace and their outcome is
    read from a [Services] record. *)

From Stdlib Require Import Ascii.
From stdpp Require Import gmap strings list fin_maps.

Open Scope string_scope.
Open Scope list_scope.

(** ** Shared data model *)

(** [WebSocket.readyState] of the [ws] package. *)
Inductive ReadyState := CONNECTING | OPEN | CLOSING | CLOSED.

#[global] Instance ReadyState_eq_dec : EqDecision ReadyState.
Proof. solve_decision. Defined.

Record WebSocket := mkWebSocket {
  wsId : nat;
  readyState : ReadyState
}.

#[global] Instance WebSocket_eq_dec : EqDecision WebSocket.
Proof. solve_decision. Defined.

(** [TpaType] of the SDK ("background" | "standard" | "system_dashboard",
    see the schema comment in app.model.ts). *)
Inductive TpaType := SYSTEM_DASHBOARD | BACKGROUND | STANDARD.

#[global] Instance TpaType_eq_dec : EqDecision TpaType.
Proof. solve_decision. Defined.

Record AppI := mkApp {
  packageName : string;
  publicUrl : string;
  tpaType : TpaType;
  isSystemApp : bool
}.

(** Outcome of [await appService.getApp(name)]: the record, [null], or a
    rejected promise. *)
Inductive Lookup := Found (app : AppI) | NotFound | LookupError.

(** The part of [UserSession] the lifecycle controller reads and writes. *)
Record UserSession := mkSession {
  sessionId : string;
  userId : string;
  loadingApps : gset string;
  activeAppSessions : list string;
  appConnections : gmap string WebSocket;
  websocket : option WebSocket
}.

(** [str.split('-')[0]] *)
Fixpoint splitHead (str : string) : string :=
  match str with
  | EmptyString => EmptyString
  | String c rest => if Ascii.eqb c "-"%char then EmptyString else String c (splitHead rest)
  end.

(** ** State-and-exception monad *)

Inductive Result (A : Type) := Ok (a : A) | Throw (msg : string).
Arguments Ok {A} a.
Arguments Throw {A} msg.

Definition M (St A : Type) : Type := St -> Result A * St.

#[global] Instance M_ret {St} : MRet (M St) := fun _ a w => (Ok a, w).
#[global] Instance M_bind {St} : MBind (M St) := fun _ _ f m w =>
  match m w with
  | (Ok a, w') => f a w'
  | (Throw e, w') => (Throw e, w')
  end.

Definition throw {St A} (msg : string) : M St A := fun w => (Throw msg, w).

(** [try { m } catch (e) { h e }] *)
Definition try_catch {St A} (m : M St A) (h : string -> M St A) : M St A := fun w =>
  match m w with
  | (Ok a, w') => (Ok a, w')
  | (Throw e, w') => h e w'
  end.

Fixpoint forEach {St A} (l : list A) (body : A -> M St unit) : M St unit :=
  match l with
  | [] => mret tt
  | x :: l' => body x;; forEach l' body
  end.

(** ** TPA lifecycle controller (websocket.service.ts) *)
Module Lifecycle.

Definition TPA_SESSION_TIMEOUT_MS : Z := 5000.

(** Calls that leave the service, in program order. *)
Inductive Event :=
| EvSessionWebhook (url tpaSessionId : string)
| EvStopWebhook (url tpaSessionId : string)
| EvHandleAppStart (pkg : string)          (* displayManager: boot screen *)
| EvHandleAppStop (pkg : string)           (* displayManager: retract *)
| EvSetTimeout (ms : Z) (pkg : string)     (* loading timer for pkg *)
| EvAddRunningApp (pkg : string)
| EvRemoveRunningApp (pkg : string)
| EvRemoveSubscriptions (pkg : string)
| EvMicrophone (isEnabled : bool)          (* sendDebouncedMicrophoneStateChange *)
| EvTpaClose (ws : nat)                    (* TPA socket close *)
| EvTpaReject (ws : nat) (reason : string) (* ws.close(1008, reason) *)
| EvTpaAck (ws : nat) (tpaSessionId : string)
| EvAppStateChange (active : list string)
| EvStartTranscription
| EvConnectionAck
| EvConnectionError                        (* the connection_error of the outer catch *)
| EvLog (msg : string).

(** The collaborators.  Each field is the outcome the collaborator gives;
    [true] in a [*_throws] field makes the call raise. *)
Record Services := mkServices {
  getApp : string -> Lookup;
  triggerWebhook_throws : string -> bool;        (* by webhook URL *)
  triggerStopWebhook_throws : string -> bool;    (* by public URL *)
  removeSubscriptions_throws : string -> bool;
  userStore_throws : bool;
  handleAppStart_throws : string -> bool;
  handleAppStop_throws : string -> bool;
  tpaClose_throws : string -> bool;
  micSend_throws : bool;
  validateApiKey : string -> string -> bool;     (* package, key *)
  isRegisteredTpa : string -> bool;              (* handleTpaSessionStart *)
  systemApps : list string;                      (* package names *)
  dashboardPackageName : string;                 (* systemApps.dashboard *)
  startTranscription_throws : bool;
  glassesSend_throws : bool                      (* ws.send on the glasses socket *)
}.

(** The session together with what the subscription registry knows about
    it and the trace of outgoing calls. *)
Record World := mkWorld {
  session : UserSession;
  mediaSubscribers : gset string;
  trace : list Event
}.

Definition getSession : M World UserSession := fun w => (Ok (session w), w).

Definition modifySession (f : UserSession -> UserSession) : M World unit := fun w =>
  (Ok tt, mkWorld (f (session w)) (mediaSubscribers w) (trace w)).

Definition modifyMedia (f : gset string -> gset string) : M World unit := fun w =>
  (Ok tt, mkWorld (session w) (f (mediaSubscribers w)) (trace w)).

Definition emit (e : Event) : M World unit := fun w =>
  (Ok tt, mkWorld (session w) (mediaSubscribers w) (trace w ++ [e])).

(** A collaborator call: recorded, then raising when the oracle says so. *)
Definition call (e : Event) (throws : bool) (msg : string) : M World unit :=
  emit e;; if throws then throw msg else mret tt.

(** *** Session field updates *)

Definition set_loading (f : gset string -> gset string) (s : UserSession) :=
  mkSession (sessionId s) (userId s) (f (loadingApps s))
            (activeAppSessions s) (appConnections s) (websocket s).

Definition set_active (f : list string -> list string) (s : UserSession) :=
  mkSession (sessionId s) (userId s) (loadingApps s)
            (f (activeAppSessions s)) (appConnections s) (websocket s).

Definition set_connections
    (f : gmap string WebSocket -> gmap string WebSocket) (s : UserSession) :=
  mkSession (sessionId s) (userId s) (loadingApps s)
            (activeAppSessions s) (f (appConnections s)) (websocket s).

(** [arr.includes(x)] and [set.has(x)] *)
Definition includes (x : string) (l : list string) : bool := bool_decide (x ∈ l).
Definition has (x : string) (s : gset string) : bool := bool_decide (x ∈ s).

(** [if (!arr.includes(x)) arr.push(x)] *)
Definition push_unique (x : string) (l : list string) : list string :=
  if includes x l then l else l ++ [x].

(** [arr.filter(name => name !== x)] *)
Definition without (x : string) (l : list string) : list string :=
  filter (fun name => name ≠ x) l.

Definition tpaSessionId (s : UserSession) (pkg : string) : string :=
  sessionId s +:+ "-" +:+ pkg.

Section WithServices.

Variable svc : Services.

(** Modelled from the spec: subscription.service.ts is missing from the
    sources.  [remove(session, packageName)] drops that package's entries;
    the registry is kept as the set of packages holding a media
    subscription. *)
Definition removeSubscriptions (pkg : string) : M World unit :=
  call (EvRemoveSubscriptions pkg) (removeSubscriptions_throws svc pkg)
       "removeSubscriptions failed";;
  modifyMedia (fun m => m ∖ {[pkg]}).

(** Modelled from the spec: [hasMediaSubscriptions(sessionId)] of the
    missing subscription.service.ts is true iff some package subscribes to
    a stream that needs the microphone. *)
Definition hasMediaSubscriptions : M World bool := fun w =>
  (Ok (negb (bool_decide (mediaSubscribers w = ∅))), w).

Definition sendDebouncedMicrophoneStateChange (isEnabled : bool) : M World unit :=
  call (EvMicrophone isEnabled) (micSend_throws svc) "send failed".

(** [if (userSession.websocket) { ... }] *)
Definition whenGlassesConnected (m : M World unit) : M World unit :=
  s ← getSession;
  if websocket s is Some _ then m else mret tt.

(** [User.findByEmail] followed by an update of the running apps; the
    caller wraps it in try/catch. *)
Definition persistRunningApp (e : Event) : M World unit :=
  try_catch (call e (userStore_throws svc) "user store failed")
            (fun _ => emit (EvLog "Error updating user's running apps")).

(** [stopAppSession(userSession, packageName)], lines 1035-1114. *)
Definition stopAppSession (pkg : string) : M World bool :=
  match getApp svc pkg with
  | LookupError => throw "getApp rejected"
  | NotFound => throw ("App " +:+ pkg +:+ " not found")
  | Found app =>
    try_catch
      (removeSubscriptions pkg;;
       modifySession (set_active (without pkg));;
       s ← getSession;
       try_catch
         (call (EvStopWebhook (publicUrl app) (tpaSessionId s pkg))
               (triggerStopWebhook_throws svc (publicUrl app)) "stop webhook failed")
         (fun _ => emit (EvLog "Error calling stop webhook"));;
       try_catch
         (match appConnections s !! pkg with
          | Some ws =>
            if decide (readyState ws = OPEN) then
              call (EvTpaClose (wsId ws)) (tpaClose_throws svc pkg) "close failed";;
              modifySession (set_connections (delete pkg))
            else mret tt
          | None => mret tt
          end)
         (fun _ => emit (EvLog "Error ending websocket for TPA"));;
       persistRunningApp (EvRemoveRunningApp pkg);;
       call (EvHandleAppStop pkg) (handleAppStop_throws svc pkg) "handleAppStop failed";;
       whenGlassesConnected
         (media ← hasMediaSubscriptions;
          if media : bool then mret tt else sendDebouncedMicrophoneStateChange false);;
       mret true)
      (fun e =>
         modifySession (set_active (without pkg));;
         throw e)
  end.

(** The kind test of the exclusivity loop, lines 904-913: a lookup that
    rejects is caught and the app is skipped. *)
Definition isStandard (name : string) : bool :=
  match getApp svc name with
  | Found app => bool_decide (tpaType app = STANDARD)
  | _ => false
  end.

(** Lines 898-914: the running STANDARD apps other than the one starting. *)
Definition runningStandardApps (pkg : string) (active : list string) : list string :=
  filter (fun name => name ≠ pkg ∧ isStandard name = true) active.

(** Lines 916-925: stop them, logging and going on when a stop throws. *)
Definition stopStandardApp (standardAppToStop : string) : M World unit :=
  try_catch (stopAppSession standardAppToStop;; mret tt)
            (fun _ => emit (EvLog "Error stopping STANDARD app")).

Definition stopRunningStandardApps (pkg : string) (active : list string) : M World unit :=
  forEach (runningStandardApps pkg active) stopStandardApp.

(** Body of the [try] of lines 932-1020.  The websocket URL handed to the
    webhook depends on the process environment only and is left out of the
    trace. *)
Definition launchApp (pkg : string) (app : AppI) (id : string) : M World string :=
  call (EvSessionWebhook (publicUrl app +:+ "/webhook") id)
       (triggerWebhook_throws svc (publicUrl app +:+ "/webhook")) "webhook failed";;
  call (EvHandleAppStart (packageName app))
       (handleAppStart_throws svc (packageName app)) "handleAppStart failed";;
  emit (EvSetTimeout TPA_SESSION_TIMEOUT_MS pkg);;
  modifySession (set_active (push_unique pkg));;
  modifySession (set_loading (fun l => l ∖ {[pkg]}));;
  persistRunningApp (EvAddRunningApp pkg);;
  whenGlassesConnected
    (media ← hasMediaSubscriptions;
     if media : bool then sendDebouncedMicrophoneStateChange true else mret tt);;
  mret id.

(** Whether the launch raises before the package is made active: the
    webhook or the boot screen fails. *)
Definition launchFails (app : AppI) : bool :=
  triggerWebhook_throws svc (publicUrl app +:+ "/webhook")
  || handleAppStart_throws svc (packageName app).

(** Lines 893-930: exclusivity, then [loadingApps.add(packageName)]. *)
Definition beginLoading (pkg : string) (app : AppI) (active : list string) : M World unit :=
  (if decide (tpaType app = STANDARD)
   then stopRunningStandardApps pkg active else mret tt);;
  modifySession (set_loading (fun l => l ∪ {[pkg]})).

(** The [catch] of lines 1021-1025. *)
Definition startFailed (pkg : string) (e : string) : M World string :=
  modifySession (set_loading (fun l => l ∖ {[pkg]}));; throw e.

(** [startAppSession(userSession, packageName)], lines 878-1026. *)
Definition startAppSession (pkg : string) : M World string :=
  s ← getSession;
  if has pkg (loadingApps s) || includes pkg (activeAppSessions s) then
    mret (tpaSessionId s pkg)
  else
    match getApp svc pkg with
    | LookupError => throw "getApp rejected"
    | NotFound => throw ("App " +:+ pkg +:+ " not found")
    | Found app =>
      beginLoading pkg app (activeAppSessions s);;
      try_catch (launchApp pkg app (tpaSessionId s pkg)) (startFailed pkg)
    end.

(** The callback of the [setTimeout] of lines 982-990; nothing in it
    catches what the display manager throws. *)
Definition loadingTimeout (pkg : string) (app : AppI) : M World unit :=
  s ← getSession;
  if has pkg (loadingApps s) then
    modifySession (set_loading (fun l => l ∖ {[pkg]}));;
    emit (EvLog "TPA expired without connection");;
    call (EvHandleAppStop (packageName app))
         (handleAppStop_throws svc (packageName app)) "handleAppStop failed"
  else mret tt.

(** [tpa_connection_init {packageName, sessionId, apiKey}] *)
Record TpaConnectionInit := mkInit {
  initPackageName : string;
  initSessionId : string;
  initApiKey : string
}.

(** [sessionService.getSession(initMessage.sessionId.split('-')[0])] against
    the one session of the world. *)
Definition sessionFound (msg : TpaConnectionInit) (s : UserSession) : bool :=
  bool_decide (splitHead (initSessionId msg) = sessionId s).

Definition isSystemAppName (pkg : string) : bool :=
  bool_decide (pkg ∈ systemApps svc).

(** [handleTpaInit(ws, initMessage, setCurrentSessionId)], lines 1815-1955.
    The two rejections that are commented out in the source only log.  The
    settings lookup and the dashboard location push are wrapped in
    try/catch in the source and touch neither the session nor the ack's
    session id; they are left out. *)
Definition handleTpaInit (ws : WebSocket) (msg : TpaConnectionInit) : M World unit :=
  s ← getSession;
  let pkg := initPackageName msg in
  if negb (sessionFound msg s) then
    emit (EvTpaReject (wsId ws) "No active session")
  else if negb (validateApiKey svc pkg (initApiKey msg)) then
    emit (EvTpaReject (wsId ws) "Invalid API key")
  else
    let isValidTpa := isRegisteredTpa svc pkg in
    let isSystemApp := isSystemAppName pkg in
    (if negb isSystemApp && negb isValidTpa
     then emit (EvLog "Unregistered TPA attempting to connect") else mret tt);;
    let isLoading := has pkg (loadingApps s) in
    let isActive := includes pkg (activeAppSessions s) in
    (if negb isSystemApp && negb isLoading && negb isActive
     then emit (EvLog "TPA not in loading or active state") else mret tt);;
    modifySession (set_connections (insert pkg ws));;
    (if isLoading then
       modifySession (set_loading (fun l => l ∖ {[pkg]}));;
       modifySession (set_active (push_unique pkg))
     else mret tt);;
    emit (EvTpaAck (wsId ws) (initSessionId msg)).

(** [Array.from(new Set(arr))]: every name once, in the order of its
    first occurrence. *)
Definition uniq (l : list string) : list string :=
  foldl (fun seen name => push_unique name seen) [] l.

(** [generateAppStateStatus] followed by [ws.send], reduced to the list
    of active package names ([Array.from(new Set(activeAppSessions))]). *)
Definition sendAppState : M World unit :=
  s ← getSession;
  call (EvAppStateChange (uniq (activeAppSessions s))) (glassesSend_throws svc) "send failed".

(** [case 'start_app'], lines 1442-1464. *)
Definition handleStartApp (pkg : string) : M World unit :=
  try_catch (startAppSession pkg;; sendAppState)
            (fun _ => emit (EvLog "Error starting app")).

(** [case 'stop_app'], lines 1466-1499. *)
Definition handleStopApp (pkg : string) : M World unit :=
  try_catch
    (s ← getSession;
     match appConnections s !! pkg with
     | Some ws =>
       if decide (readyState ws = OPEN)
       then call (EvTpaClose (wsId ws)) (tpaClose_throws svc pkg) "close failed"
       else mret tt
     | None => mret tt
     end;;
     modifySession (set_connections (delete pkg));;
     stopAppSession pkg;;
     sendAppState)
    (fun _ =>
       emit (EvLog "Error stopping app");;
       modifySession (set_active (without pkg))).

(** [case CONNECTION_INIT], lines 1378-1440: the dashboard, then every app
    of [user.runningApps]; each started app is pushed once more onto
    [activeAppSessions] by the handler itself. *)
Definition startDashboard : M World unit :=
  try_catch (startAppSession (dashboardPackageName svc);; mret tt)
            (fun _ => emit (EvLog "Error starting dashboard app")).

Definition restartApp (pkg : string) : M World unit :=
  try_catch
    (startAppSession pkg;;
     modifySession (set_active (fun l => l ++ [pkg])))
    (fun _ => persistRunningApp (EvRemoveRunningApp pkg)).

(** [runningApps] is what [User.findOrCreateUser] answers when it does
    not throw.  What [startTranscription] or the send of the ack throw
    reaches the [catch] of [handleGlassesMessage], lines 1596-1607, which
    sends a [connection_error]; nothing catches what that send throws.
    [transformUserSessionForClient] belongs to the session service, which
    is not among the sources, and is taken to return. *)
Definition handleConnectionInit (runningApps : list string) : M World unit :=
  try_catch
    (startDashboard;;
     (if userStore_throws svc
      then emit (EvLog "Error starting user apps")
      else forEach runningApps restartApp);;
     call EvStartTranscription (startTranscription_throws svc) "startTranscription failed";;
     call EvConnectionAck (glassesSend_throws svc) "send failed")
    (fun _ => call EvConnectionError (glassesSend_throws svc) "send failed").

(** *** Starts that overlap

    [startAppSession] is an [async] function and the message handler
    that calls it is not queued behind the handlers of earlier messages:
    at every [await] the event loop may run another handler of the same
    session.  The two parts of a start on either side of the [await] of
    the session webhook: up to [loadingApps.add(packageName)], and from
    the dispatch of the webhook on. *)
Definition startAppSessionBegin (pkg : string) : M World (option (AppI * string)) :=
  s ← getSession;
  if has pkg (loadingApps s) || includes pkg (activeAppSessions s) then
    mret None
  else
    match getApp svc pkg with
    | LookupError => throw "getApp rejected"
    | NotFound => throw ("App " +:+ pkg +:+ " not found")
    | Found app =>
      beginLoading pkg app (activeAppSessions s);;
      mret (Some (app, tpaSessionId s pkg))
    end.

Definition startAppSessionResume (pkg : string) (pending : option (AppI * string))
    : M World string :=
  match pending with
  | None => s ← getSession; mret (tpaSessionId s pkg)
  | Some (app, id) => try_catch (launchApp pkg app id) (startFailed pkg)
  end.

(** Two calls of [startAppSession] that overlap: the second is entered
    while the first awaits its webhook, and each runs on when its webhook
    has answered. *)
Definition overlappingStarts (a b : string) : M World (string * string) :=
  pendingA ← startAppSessionBegin a;
  pendingB ← startAppSessionBegin b;
  idA ← startAppSessionResume a pendingA;
  idB ← startAppSessionResume b pendingB;
  mret (idA, idB).

(** What can happen to a session when its handlers run one at a time:
    each handler has returned before the next one is entered. *)
Inductive Op :=
| OpConnectionInit (runningApps : list string)
| OpStartApp (pkg : string)
| OpStopApp (pkg : string)
| OpTpaInit (ws : WebSocket) (msg : TpaConnectionInit)
| OpLoadingTimeout (pkg : string) (app : AppI).

Definition step (op : Op) : M World unit :=
  match op with
  | OpConnectionInit apps => handleConnectionInit apps
  | OpStartApp pkg => handleStartApp pkg
  | OpStopApp pkg => handleStopApp pkg
  | OpTpaInit ws msg => handleTpaInit ws msg
  | OpLoadingTimeout pkg app => loadingTimeout pkg app
  end.

Definition run (ops : list Op) (w : World) : World :=
  foldl (fun w op => (step op w).2) w ops.

(** The spec's exclusivity invariant, over package names. *)
Definition AtMostOneStandard (active : list string) : Prop :=
  ∀ a b, a ∈ active → b ∈ active →
         isStandard a = true → isStandard b = true → a = b.

(** The active list as the exclusivity loop leaves it when [app] starts:
    for a STANDARD app the STANDARD apps are gone, otherwise nothing moved. *)
Definition afterExclusivity (app : AppI) (active : list string) : list string :=
  if decide (tpaType app = STANDARD)
  then filter (fun q => isStandard q = false) active
  else active.

(** The state between two handlers: nothing is loading and the STANDARD
    apps of the active list are at most one. *)
Definition Exclusive (w : World) : Prop :=
  loadingApps (session w) = ∅ ∧ AtMostOneStandard (activeAppSessions (session w)).

(** The events a handler added to the trace. *)
Definition newEvents (w w' : World) : list Event :=
  drop (length (trace w)) (trace w').

(** What [stopAppSession] does for a package whose record is [app],
    seen in the events [evs] added on the way from [w] to [w']: its
    subscriptions are removed first; unless that call throws, the stop
    webhook is called, the display manager is told to stop the app, the
    registry has forgotten the package, and a connection of the package
    that was open is closed and, unless the close throws, forgotten. *)
Definition StoppedApp (q : string) (app : AppI) (w w' : World) (evs : list Event) : Prop :=
  EvRemoveSubscriptions q ∈ evs ∧
  (removeSubscriptions_throws svc q = false →
     EvStopWebhook (publicUrl app) (tpaSessionId (session w) q) ∈ evs ∧
     EvHandleAppStop q ∈ evs ∧
     (q ∉ mediaSubscribers w') ∧
     (∀ ws, appConnections (session w) !! q = Some ws → readyState ws = OPEN →
            EvTpaClose (wsId ws) ∈ evs ∧
            (tpaClose_throws svc q = false → appConnections (session w') !! q = None))).

(** Nothing was done to package [r] on the way from [w] to [w']. *)
Definition Untouched (r : string) (w w' : World) (evs : list Event) : Prop :=
  appConnections (session w') !! r = appConnections (session w) !! r ∧
  (r ∈ mediaSubscribers w' ↔ r ∈ mediaSubscribers w) ∧
  (EvRemoveSubscriptions r ∉ evs) ∧
  (EvHandleAppStop r ∉ evs).

(** A bind is accepted when the connection is stored under the package and
    the ack went out on it. *)
Definition bindAccepted (ws : WebSocket) (msg : TpaConnectionInit) (w w' : World) : Prop :=
  appConnections (session w') !! initPackageName msg = Some ws ∧
  EvTpaAck (wsId ws) (initSessionId msg) ∈ newEvents w w'.

End WithServices.

(** A fresh session, as [createSession] leaves it. *)
Definition emptySession (sid uid : string) : UserSession :=
  mkSession sid uid ∅ [] ∅ (Some (mkWebSocket 0 OPEN)).

Definition emptyWorld (sid uid : string) : World :=
  mkWorld (emptySession sid uid) ∅ [].

(** A catalog with two STANDARD apps, one BACKGROUND app and the
    dashboard, every collaborator answering without error. *)
Definition demoCatalog (name : string) : Lookup :=
  if decide (name = "com.a") then Found (mkApp "com.a" "http://a" STANDARD false)
  else if decide (name = "com.b") then Found (mkApp "com.b" "http://b" STANDARD false)
  else if decide (name = "com.x") then Found (mkApp "com.x" "http://x" BACKGROUND false)
  else if decide (name = "system.dashboard")
       then Found (mkApp "system.dashboard" "http://dash" SYSTEM_DASHBOARD true)
  else NotFound.

Definition demoServices : Services :=
  mkServices demoCatalog (fun _ => false) (fun _ => false) (fun _ => false) false
             (fun _ => false) (fun _ => false) (fun _ => false) false
             (fun _ key => bool_decide (key = "secret")) (fun _ => true)
             ["system.dashboard"] "system.dashboard" false false.

(** The same collaborators while the app catalog cannot be reached. *)
Definition outageServices : Services :=
  mkServices (fun _ => LookupError) (fun _ => false) (fun _ => false) (fun _ => false) false
             (fun _ => false) (fun _ => false) (fun _ => false) false
             (fun _ key => bool_decide (key = "secret")) (fun _ => true)
             ["system.dashboard"] "system.dashboard" false false.

(** Sessions and messages used as concrete inputs. *)
Definition startedWorld : World :=
  (startAppSession demoServices "com.x" (emptyWorld "s1" "u@x")).2.

Definition runningWorld : World :=
  mkWorld (mkSession "s1" "u@x" ∅ ["com.x"] ∅ (Some (mkWebSocket 0 OPEN))) ∅ [].

Definition orphanWorld : World :=
  mkWorld (mkSession "s1" "u@x" ∅ ["com.gone"] ∅ (Some (mkWebSocket 0 OPEN))) ∅ [].

Definition standardWorld : World :=
  mkWorld (mkSession "s1" "u@x" ∅ ["com.x"; "com.a"] ∅ (Some (mkWebSocket 0 OPEN))) ∅ [].

Definition loadingWorld : World :=
  mkWorld (mkSession "s1" "u@x" {["com.x"]} [] ∅ (Some (mkWebSocket 0 OPEN))) ∅ [].

Definition demoSocket : WebSocket := mkWebSocket 7 OPEN.

Definition demoInit : TpaConnectionInit := mkInit "com.x" "s1-com.x" "secret".

End Lifecycle.

(** ** Cloud-side speech pipeline (transcription.service.ts) *)
Module Transcription.

(** [StreamType.TRANSCRIPTION] and [StreamType.TRANSLATION]. *)
Inductive StreamType := TRANSCRIPTION | TRANSLATION.

#[global] Instance StreamType_eq_dec : EqDecision StreamType.
Proof. solve_decision. Defined.

(** The string value of the enum member, as [subscription.includes] sees it. *)
Definition streamTypeName (t : StreamType) : string :=
  match t with TRANSCRIPTION => "transcription" | TRANSLATION => "translation" end.

(** What [getLanguageInfo(subscription)] returns. *)
Record LanguageInfo := mkLang {
  type : StreamType;
  transcribeLanguage : string;
  translateLanguage : option string
}.

(** An [ASRStreamInstance]: the recognizer (its SDK class and handle), the
    push stream, and the language info its handlers were set up with. *)
Record ASRStreamInstance := mkStream {
  recognizerKind : StreamType;
  recognizer : nat;
  pushStream : nat;
  handlersFor : LanguageInfo
}.

(** Calls into the speech SDK. *)
Inductive AsrCall :=
| StartContinuousRecognition (sub : string) (recognizer : nat)
| StartTranscribing (sub : string) (recognizer : nat)
| StopContinuousRecognition (sub : string) (recognizer : nat)
| StopTranscribing (sub : string) (recognizer : nat)
| CloseRecognizer (recognizer : nat)
| ClosePushStream (pushStream : nat).

(** [userSession.transcriptionStreams] is a [Map] iterated in insertion
    order; it is kept as a list of entries with distinct keys. *)
Record Streams := mkStreams {
  transcriptionStreams : option (list (string * ASRStreamInstance));
  nextHandle : nat;
  asrCalls : list AsrCall
}.

Definition entries (st : Streams) : list (string * ASRStreamInstance) :=
  default [] (transcriptionStreams st).

Definition keys (st : Streams) : list string := (entries st).*1.

(** [map.has(k)], [map.set(k, v)], [map.delete(k)] on the entry list. *)
Definition mapHas (k : string) (m : list (string * ASRStreamInstance)) : bool :=
  bool_decide (k ∈ m.*1).

Definition mapSet (k : string) (v : ASRStreamInstance)
    (m : list (string * ASRStreamInstance)) : list (string * ASRStreamInstance) :=
  if mapHas k m
  then (fun e : string * ASRStreamInstance => if decide (e.1 = k) then (k, v) else e) <$> m
  else m ++ [(k, v)].

Definition mapDelete (k : string)
    (m : list (string * ASRStreamInstance)) : list (string * ASRStreamInstance) :=
  filter (fun e => e.1 ≠ k) m.

(** [new Set(array)]: first occurrences, in order. *)
Fixpoint newSet (seen l : list string) : list string :=
  match l with
  | [] => []
  | x :: l' => if bool_decide (x ∈ seen) then newSet seen l'
               else x :: newSet (x :: seen) l'
  end.

Definition setStreams (f : list (string * ASRStreamInstance) ->
                           list (string * ASRStreamInstance)) : M Streams unit :=
  fun st => (Ok tt, mkStreams (Some (f (entries st))) (nextHandle st) (asrCalls st)).

Definition sdk (c : AsrCall) : M Streams unit :=
  fun st => (Ok tt, mkStreams (transcriptionStreams st) (nextHandle st)
                              (asrCalls st ++ [c])).

(** A fresh SDK object. *)
Definition fresh : M Streams nat :=
  fun st => (Ok (nextHandle st),
             mkStreams (transcriptionStreams st) (S (nextHandle st)) (asrCalls st)).

Definition getEntries : M Streams (list (string * ASRStreamInstance)) :=
  fun st => (Ok (entries st), st).

(** JavaScript truthiness of an optional string. *)
Definition truthy (o : option string) : bool :=
  match o with Some s => negb (bool_decide (s = "")) | None => false end.

(** [str.includes(needle)] *)
Definition strIncludes (needle str : string) : bool :=
  bool_decide (is_Some (String.index 0 needle str)).

Section WithLanguageInfo.

(** [getLanguageInfo] of the SDK, taken as a parameter. *)
Variable getLanguageInfo : string -> option LanguageInfo.

(** Whether a call into the speech SDK throws; the SDK is outside the
    sources and its answer is taken as a parameter. *)
Variable sdkThrows : AsrCall -> bool.

(** A call that can throw; [asrCalls] keeps the calls that returned. *)
Definition sdkCall (c : AsrCall) : M Streams unit :=
  if sdkThrows c then throw "SDK error" else sdk c.

(** Lines 147-157: the stop method is chosen from the subscription
    string, [stopContinuousRecognitionAsync] when it contains
    [translation] and [stopTranscribingAsync] otherwise.  Only a
    [TranslationRecognizer] has the first and only a
    [ConversationTranscriber] the second: calling the one the recognizer
    lacks throws a [TypeError]. *)
Definition stopCall (sub : string) (inst : ASRStreamInstance) : AsrCall :=
  if strIncludes (streamTypeName TRANSLATION) sub
  then StopContinuousRecognition sub (recognizer inst)
  else StopTranscribing sub (recognizer inst).

Definition hasStopMethod (sub : string) (inst : ASRStreamInstance) : bool :=
  bool_decide (recognizerKind inst =
               if strIncludes (streamTypeName TRANSLATION) sub
               then TRANSLATION else TRANSCRIPTION).

Definition stopRecognizer (sub : string) (inst : ASRStreamInstance) : M Streams unit :=
  if hasStopMethod sub inst then sdkCall (stopCall sub inst)
  else throw "the stop method is not a function".

(** [stopIndividualTranscriptionStream], lines 144-176.  An error of the
    stop call leaves the [try] before [recognizer.close()] is reached; an
    error of a close is caught on the spot; nothing is rethrown. *)
Definition stopIndividualTranscriptionStream
    (inst : ASRStreamInstance) (sub : string) : M Streams unit :=
  try_catch
    (stopRecognizer sub inst;;
     try_catch (sdkCall (CloseRecognizer (recognizer inst))) (fun _ => mret tt))
    (fun _ => mret tt);;
  try_catch (sdkCall (ClosePushStream (pushStream inst))) (fun _ => mret tt).

(** The calls of a teardown that return, in order. *)
Definition stopCalls (e : string * ASRStreamInstance) : list AsrCall :=
  (if hasStopMethod e.1 e.2 && negb (sdkThrows (stopCall e.1 e.2)) then
     stopCall e.1 e.2 ::
     (if sdkThrows (CloseRecognizer (recognizer e.2)) then []
      else [CloseRecognizer (recognizer e.2)])
   else []) ++
  (if sdkThrows (ClosePushStream (pushStream e.2)) then []
   else [ClosePushStream (pushStream e.2)]).

(** [createASRStreamForSubscription], lines 98-142. *)
Definition createASRStreamForSubscription (sub : string) : M Streams ASRStreamInstance :=
  match getLanguageInfo sub with
  | None => throw ("Invalid language subscription: " +:+ sub)
  | Some info =>
    push ← fresh;
    rec ← fresh;
    if bool_decide (type info = TRANSLATION) && truthy (translateLanguage info) then
      sdk (StartContinuousRecognition sub rec);;
      mret (mkStream TRANSLATION rec push info)
    else
      sdk (StartTranscribing sub rec);;
      mret (mkStream TRANSCRIPTION rec push info)
  end.

(** The call that started the recognizer of an instance. *)
Definition startCall (sub : string) (inst : ASRStreamInstance) : AsrCall :=
  match recognizerKind inst with
  | TRANSLATION => StartContinuousRecognition sub (recognizer inst)
  | TRANSCRIPTION => StartTranscribing sub (recognizer inst)
  end.

(** Body of the first loop, lines 80-86. *)
Definition ensureStream (subscription : string) : M Streams unit :=
  m ← getEntries;
  if mapHas subscription m then mret tt
  else
    newStream ← createASRStreamForSubscription subscription;
    setStreams (mapSet subscription newStream).

(** Body of the second loop, lines 89-95. *)
Definition dropUnlessDesired (desiredSet : list string)
    (e : string * ASRStreamInstance) : M Streams unit :=
  if bool_decide (e.1 ∈ desiredSet) then mret tt
  else
    stopIndividualTranscriptionStream e.2 e.1;;
    setStreams (mapDelete e.1).

(** [updateTranscriptionStreams(userSession, desiredSubscriptions)],
    lines 73-96.  [Map.prototype.forEach] visits the entries present when
    they are reached, and deleting the entry being visited does not
    disturb the visit of the others. *)
Definition updateTranscriptionStreams (desiredSubscriptions : list string)
    : M Streams unit :=
  setStreams id;;
  let desiredSet := newSet [] desiredSubscriptions in
  forEach desiredSet ensureStream;;
  m ← getEntries;
  forEach m (dropUnlessDesired desiredSet).

(** What the first loop leaves: the old entries, then one fresh instance
    for every desired key that was missing, each started. *)
Definition Grown (ds : list string) (st st1 : Streams) : Prop :=
  ∃ added cs,
    entries st1 = entries st ++ added ∧
    asrCalls st1 = asrCalls st ++ cs ∧
    (∀ k, k ∈ added.*1 ↔ k ∈ ds ∧ k ∉ keys st) ∧
    (∀ k inst, (k, inst) ∈ added →
       startCall k inst ∈ cs ∧
       (nextHandle st ≤ pushStream inst)%nat ∧ (nextHandle st ≤ recognizer inst)%nat ∧
       getLanguageInfo k = Some (handlersFor inst) ∧
       recognizerKind inst =
         (if bool_decide (type (handlersFor inst) = TRANSLATION)
             && truthy (translateLanguage (handlersFor inst))
          then TRANSLATION else TRANSCRIPTION)) ∧
    (nextHandle st ≤ nextHandle st1)%nat.

(** [stopTranscription], lines 412-415. *)
Definition stopTranscription : M Streams unit := updateTranscriptionStreams [].

End WithLanguageInfo.

(** The SDK calls made since [st]. *)
Definition newCalls (st st' : Streams) : list AsrCall :=
  drop (length (asrCalls st)) (asrCalls st').


(** *** Transcript history *)

Record Segment := mkSegment {
  resultId : string;
  speakerId : option string;
  text : string;
  timestamp : Z;          (* milliseconds since the epoch *)
  isFinal : bool
}.

(** [event.result] of a recognizer callback. *)
Record RecognitionResult := mkResult {
  evResultId : string;
  evSpeakerId : option string;
  evText : string;
  evTranslations : option (gmap string string)
}.

Definition THIRTY_MINUTES_MS : Z := 30 * 60 * 1000.

Definition segmentOf (ev : RecognitionResult) (now : Z) (final : bool) : Segment :=
  mkSegment (evResultId ev) (evSpeakerId ev) (evText ev) now final.

(** [updateTranscriptHistory(userSession, event, isFinal)], lines 422-474;
    [now] is the [new Date()] taken inside. *)
Definition updateTranscriptHistory
    (segments : list Segment) (ev : RecognitionResult) (final : bool) (now : Z)
    : list Segment :=
  let hasInterimLast :=
    match last segments with
    | Some seg => negb (isFinal seg)
    | None => false
    end in
  let segments' :=
    if final then
      (if hasInterimLast then removelast segments else segments)
        ++ [segmentOf ev now true]
    else if hasInterimLast then
      <[ (length segments - 1)%nat := segmentOf ev now false ]> segments
    else
      segments ++ [segmentOf ev now false] in
  let thirtyMinutesAgo := (now - THIRTY_MINUTES_MS)%Z in
  filter (fun seg => (thirtyMinutesAgo ≤ timestamp seg)%Z) segments'.

(** The thirty-minute filter, and whether a transcript ends in an
    interim segment. *)
Definition retained (now : Z) (segs : list Segment) : list Segment :=
  filter (fun seg => (now - THIRTY_MINUTES_MS ≤ timestamp seg)%Z) segs.

Definition endsInterim (segs : list Segment) : bool :=
  match last segs with Some seg => negb (isFinal seg) | None => false end.

(** What a recognizer callback leaves behind: the transcript and the
    payloads handed to [broadcastTranscriptionResult]. *)
Record History := mkHistory {
  segments : list Segment;
  broadcasts : list (StreamType * bool * option string)
}.

(** The text carried by a [TranslationData], lines 191-192; [None] is
    [undefined], which is what [translations.get] answers for a language
    it does not hold. *)
Definition translatedText (info : LanguageInfo) (ev : RecognitionResult) : option string :=
  if decide (Some (transcribeLanguage info) = translateLanguage info)
  then Some (evText ev)
  else
    let target :=
      if decide (translateLanguage info = Some "zh-CN") then Some "zh-Hans"
      else splitHead <$> translateLanguage info in
    translations ← evTranslations ev;
    language ← target;
    translations !! language.

(** The callbacks installed by [setupRecognitionHandlersForInstance],
    lines 178-270: [recognizing]/[recognized] for a translation stream,
    [transcribing]/[transcribed] otherwise; [final] tells which of the
    two fired. *)
Definition onRecognition
    (info : LanguageInfo) (final : bool) (ev : RecognitionResult) (now : Z)
    (h : History) : History :=
  match type info with
  | TRANSLATION =>
    if evTranslations ev is Some _ then
      mkHistory (updateTranscriptHistory (segments h) ev final now)
                (broadcasts h ++ [(TRANSLATION, final, translatedText info ev)])
    else h
  | TRANSCRIPTION =>
    if bool_decide (evText ev = "") then h
    else
      mkHistory
        (if bool_decide (transcribeLanguage info = "en-US")
         then updateTranscriptHistory (segments h) ev final now
         else segments h)
        (broadcasts h ++ [(TRANSCRIPTION, final, Some (evText ev))])
  end.

(** A table standing in for the SDK's parser on the keys used below. *)
Definition demoLanguageInfo (sub : string) : option LanguageInfo :=
  if decide (sub = "transcription:en-US") then Some (mkLang TRANSCRIPTION "en-US" None)
  else if decide (sub = "transcription:es-ES") then Some (mkLang TRANSCRIPTION "es-ES" None)
  else if decide (sub = "translation:es-ES-to-en-US")
       then Some (mkLang TRANSLATION "es-ES" (Some "en-US"))
  else None.

Definition noStreams : Streams := mkStreams None 0 [].

(** An SDK whose calls all return. *)
Definition sdkReturns : AsrCall -> bool := fun _ => false.



Definition spanishToEnglish : LanguageInfo := mkLang TRANSLATION "es-ES" (Some "en-US").

(** A session with one English transcription stream. *)
Definition englishOnly : Streams :=
  mkStreams (Some [("transcription:en-US",
                    mkStream TRANSCRIPTION 1 0 (mkLang TRANSCRIPTION "en-US" None))])
            2 [StartTranscribing "transcription:en-US" 1].

Definition holaInterim : RecognitionResult :=
  mkResult "r1" None "hola" (Some {[ "en" := "hello" ]}).

End Transcription.

(** ** Microphone state debouncer (websocket.service.ts, lines 731-818) *)
Module MicDebounce.

(** [MicrophoneStateChangeDebouncer]; the timer handle is kept as the
    time at which the pending callback is due, and as [None] once the
    callback has run (clearing the handle of a timer that has fired does
    nothing). *)
Record Debouncer := mkDebouncer {
  timer : option Z;
  lastState : bool;
  lastSentState : bool
}.

(** The debouncer table and what has left the service so far: the
    [microphone_state_change] messages that were sent and the calls made
    to the transcription service ([true] for [startTranscription],
    [false] for [stopTranscription]), each with its session id. *)
Record Mic := mkMic {
  microphoneStateChangeDebouncers : gmap string Debouncer;
  sent : list (string * bool);
  transcriptionCalls : list (string * bool)
}.

Definition DEFAULT_DELAY : Z := 1000.

Section WithEnvironment.

(** What the collaborators do when they are called for a session at a
    given time: [ws.send] can throw, and so can
    [transcriptionService.startTranscription]
    ([createASRStreamForSubscription] throws on a subscription it cannot
    parse).  [stopTranscription] only tears streams down and catches what
    its calls throw. *)
Variable sendThrows : string -> Z -> bool.
Variable startTranscriptionThrows : string -> Z -> bool.

(** [ws.send(JSON.stringify(message))] *)
Definition wsSend (now : Z) (sessionId : string) (isEnabled : bool) : M Mic unit := fun m =>
  if sendThrows sessionId now then (Throw "send failed", m)
  else (Ok tt, mkMic (microphoneStateChangeDebouncers m)
                     (sent m ++ [(sessionId, isEnabled)])
                     (transcriptionCalls m)).

Definition setDebouncer (sessionId : string) (d : Debouncer) : M Mic unit := fun m =>
  (Ok tt, mkMic (<[sessionId := d]> (microphoneStateChangeDebouncers m))
                (sent m) (transcriptionCalls m)).

Definition deleteDebouncer (sessionId : string) : M Mic unit := fun m =>
  (Ok tt, mkMic (delete sessionId (microphoneStateChangeDebouncers m))
                (sent m) (transcriptionCalls m)).

(** [startTranscription(userSession)] or [stopTranscription(userSession)] *)
Definition callTranscription (now : Z) (sessionId : string) (start : bool) : M Mic unit :=
  fun m =>
    let m' := mkMic (microphoneStateChangeDebouncers m) (sent m)
                    (transcriptionCalls m ++ [(sessionId, start)]) in
    if start && startTranscriptionThrows sessionId now
    then (Throw "startTranscription failed", m')
    else (Ok tt, m').

(** [sendDebouncedMicrophoneStateChange(ws, userSession, isEnabled, delay)]
    called at time [now]. *)
Definition sendDebouncedMicrophoneStateChange
    (now : Z) (sessionId : string) (isEnabled : bool) (delay : Z) : M Mic unit := fun m =>
  match microphoneStateChangeDebouncers m !! sessionId with
  | None =>
    (* first call: send immediately, then arm the timer *)
    (wsSend now sessionId isEnabled;;
     setDebouncer sessionId (mkDebouncer (Some (now + delay)%Z) isEnabled isEnabled)) m
  | Some d =>
    (* later call: record the desired state, clear and re-arm the timer *)
    setDebouncer sessionId (mkDebouncer (Some (now + delay)%Z) isEnabled (lastSentState d)) m
  end.

(** The callback handed to [setTimeout], lines 787-817, running at time
    [now].  Nothing catches what [ws.send] or [startTranscription] throw:
    the statements after the throwing call are skipped. *)
Definition timerExpired (now : Z) (sessionId : string) : M Mic unit := fun m =>
  match microphoneStateChangeDebouncers m !! sessionId with
  | None => (Ok tt, m)
  | Some d =>
    let differs := negb (bool_decide (lastState d = lastSentState d)) in
    let lastSent' := if differs then lastState d else lastSentState d in
    (setDebouncer sessionId (mkDebouncer None (lastState d) (lastSentState d));;
     (if differs
      then wsSend now sessionId (lastState d);;
           setDebouncer sessionId (mkDebouncer None (lastState d) (lastState d))
      else mret tt);;
     callTranscription now sessionId lastSent';;
     deleteDebouncer sessionId) m
  end.

(** The event loop reaching time [now]: a pending callback that is due
    runs, at the time it is due.  What it throws leaves the callback
    uncaught; the table is then as the throw found it, for a process that
    goes on after it. *)
Definition advance (now : Z) (sessionId : string) (m : Mic) : Mic :=
  match microphoneStateChangeDebouncers m !! sessionId with
  | Some d =>
    match timer d with
    | Some due => if bool_decide (due ≤ now)%Z then (timerExpired due sessionId m).2 else m
    | None => m
    end
  | None => m
  end.

(** Requests [(arrival time, desired state)] served in order with the
    default delay; a request that throws leaves the table as the throw
    found it. *)
Definition serve (sessionId : string) (requests : list (Z * bool)) (m : Mic) : Mic :=
  foldl (fun m r =>
           (sendDebouncedMicrophoneStateChange r.1 sessionId r.2 DEFAULT_DELAY
              (advance r.1 sessionId m)).2)
        m requests.

End WithEnvironment.

(** Collaborators that never throw, and a transcription service that
    cannot start. *)
Definition neverThrows : string -> Z -> bool := fun _ _ => false.
Definition alwaysThrows : string -> Z -> bool := fun _ _ => true.

(** A burst: every request after the first arrives before the timer armed
    by the one before it is due. *)
Fixpoint withinWindow (requests : list (Z * bool)) : Prop :=
  match requests with
  | r1 :: ((r2 :: _) as rest) =>
    (r1.1 ≤ r2.1 < r1.1 + DEFAULT_DELAY)%Z ∧ withinWindow rest
  | _ => True
  end.

(** The time at which the timer of the last request of a burst is due. *)
Definition settleTime (requests : list (Z * bool)) : Z :=
  match last requests with
  | Some r => (r.1 + DEFAULT_DELAY)%Z
  | None => 0%Z
  end.

Definition idle : Mic := mkMic ∅ [] [].

(** The table while a burst is under way: the record of the session holds
    the desired state, the state sent first, and the timer of the last
    request. *)
Definition pending (sessionId : string) (t : Z) (desired lastSent : bool) (m : Mic) : Mic :=
  mkMic (<[sessionId := mkDebouncer (Some (t + DEFAULT_DELAY)%Z) desired lastSent]>
           (microphoneStateChangeDebouncers m))
        (sent m) (transcriptionCalls m).

End MicDebounce.

(** ** Glasses channel close and error handlers
       (websocket.service.ts, lines 1322-1353) *)
Module GlassesChannel.

Definition RECONNECT_GRACE_PERIOD_MS : Z := 1000 * 60 * 1.

(** Calls made by the two handlers and by the grace callback. *)
Inductive Call :=
| MarkSessionDisconnected        (* sessionService.markSessionDisconnected *)
| EndSession                     (* sessionService.endSession *)
| WsClose                        (* ws.close() *)
| TrackDisconnected.             (* PosthogService.trackEvent *)

#[global] Instance Call_eq_dec : EqDecision Call.
Proof. solve_decision. Defined.

(** A glasses connection over time: the clock, the [readyState] of
    [userSession.websocket], the due times of the pending grace callbacks
    and the calls made so far, each with the time it was made. *)
Record Conn := mkConn {
  now : Z;
  socket : ReadyState;
  graceTimers : list Z;
  calls : list (Z * Call)
}.

Definition doCall (c : Call) (k : Conn) : Conn :=
  mkConn (now k) (socket k) (graceTimers k) (calls k ++ [(now k, c)]).

(** [ws.on('close', ...)] *)
Definition onClose (k : Conn) : Conn :=
  let k1 := doCall MarkSessionDisconnected k in
  let k2 := mkConn (now k1) (socket k1)
                   (graceTimers k1 ++ [(now k1 + RECONNECT_GRACE_PERIOD_MS)%Z])
                   (calls k1) in
  doCall TrackDisconnected k2.

Definition closedOrClosing (rs : ReadyState) : bool :=
  bool_decide (rs = CLOSED) || bool_decide (rs = CLOSING).

(** The callback of the [setTimeout] inside the close handler. *)
Definition onGraceExpired (k : Conn) : Conn :=
  if closedOrClosing (socket k) then doCall EndSession k else k.

(** [ws.on('error', ...)] *)
Definition onError (k : Conn) : Conn :=
  let k1 := doCall EndSession k in
  let k2 := doCall WsClose k1 in
  mkConn (now k2)
         (if bool_decide (socket k2 = CLOSED) then CLOSED else CLOSING)
         (graceTimers k2) (calls k2).

(** Time passes to [t]: the grace callbacks due by then run, each at its
    own due time, and leave the timer list. *)
Fixpoint fireDue (t : Z) (due : list Z) (k : Conn) : Conn :=
  match due with
  | [] => k
  | d :: rest =>
    if bool_decide (d ≤ t)%Z
    then fireDue t rest (onGraceExpired (mkConn d (socket k) (graceTimers k) (calls k)))
    else fireDue t rest k
  end.

Definition advanceTo (t : Z) (k : Conn) : Conn :=
  let k' := fireDue t (graceTimers k) k in
  mkConn t (socket k') (filter (fun d => (t < d)%Z) (graceTimers k)) (calls k').

(** The environment of the handlers.  Modelled from the spec: on a
    reconnect [createSession] of session.service.ts, which is missing from
    the sources, adopts the session of the user and puts the new, open
    socket in it. *)
Inductive Input :=
| SocketClosed                 (* the 'close' event *)
| SocketError                  (* the 'error' event *)
| SocketReplaced               (* a reconnect put an open socket in the session *)
| TimePasses (t : Z).

Definition react (i : Input) (k : Conn) : Conn :=
  match i with
  | SocketClosed => onClose (mkConn (now k) CLOSED (graceTimers k) (calls k))
  | SocketError => onError k
  | SocketReplaced => mkConn (now k) OPEN (graceTimers k) (calls k)
  | TimePasses t => advanceTo t k
  end.

Definition connected (t : Z) : Conn := mkConn t OPEN [] [].

(** The times at which [endSession] was called. *)
Definition endedAt (k : Conn) : list Z :=
  (filter (fun c => c.2 = EndSession) (calls k)).*1.

End GlassesChannel.

(** ** Client-side VAD gate (SpeechRecAugmentos.java) *)
Module VadGate.

Definition chunk := list Byte.byte.

Definition LC3_BUFFER_MAX_SIZE : nat := 22.

(** A Java [short] is kept as an integer from -32768 to 32767. *)
Definition toShort (lo hi : Byte.byte) : Z :=
  let u := (Z.of_N (Byte.to_N lo) + 256 * Z.of_N (Byte.to_N hi))%Z in
  if (u <? 32768)%Z then u else (u - 65536)%Z.

(** [bytesToShort(bytes)], lines 281-285: little-endian pairs; an odd
    last byte is left out. *)
Fixpoint bytesToShort (bytes : chunk) : list Z :=
  match bytes with
  | lo :: hi :: rest => toShort lo hi :: bytesToShort rest
  | _ => []
  end.

Definition VAD_BUFFER_LIMIT : Z := 16000.

(** The body of the loop of lines 211-216 on [vadBuffer]: when the queue
    holds 16000 samples its head is dropped, then the sample is queued. *)
Definition offerSample (vadBuffer : list Z) (sample : Z) : list Z :=
  (if (VAD_BUFFER_LIMIT <=? Z.of_nat (length vadBuffer))%Z then tail vadBuffer else vadBuffer)
  ++ [sample].

(** Messages handed to [ServerComms]. *)
Inductive Sent :=
| VadStatus (isSpeaking : bool)
| AudioChunk (c : chunk).

(** Where the listener thread of [setupVadListener] stands: polling the
    VAD, having announced speech, inside the loop of [sendBufferedAudio]
    with the chunks still to send, or having announced silence. *)
Inductive ListenerPc :=
| Polling
| Announced
| Flushing (bufferToSend : list chunk)
| Silencing.

Record Gate := mkGate {
  vadInitialized : bool;            (* vadPolicy != null && isVadInitialized() *)
  bypassVadForDebugging : bool;
  sendPcmToBackend : bool;
  isSpeaking : bool;
  previousVadState : bool;
  lc3RollingBuffer : list chunk;
  pc : ListenerPc;
  vadBuffer : list Z
}.

(** [lc3RollingBuffer.add(copy)] followed by the trimming loop. *)
Definition addRolling (c : chunk) (buf : list chunk) : list chunk :=
  let buf' := buf ++ [c] in
  drop (length buf' - LC3_BUFFER_MAX_SIZE) buf'.

(** The loop of lines 210-216: the samples of the chunk are offered to
    the VAD queue. *)
Definition feedVad (c : chunk) (g : Gate) : Gate :=
  mkGate (vadInitialized g) (bypassVadForDebugging g) (sendPcmToBackend g)
         (isSpeaking g) (previousVadState g) (lc3RollingBuffer g) (pc g)
         (foldl offerSample (vadBuffer g) (bytesToShort c)).

(** The block synchronized on [lc3RollingBuffer], lines 221-230 and
    249-258. *)
Definition addToRollingBuffer (c : chunk) (g : Gate) : Gate :=
  mkGate (vadInitialized g) (bypassVadForDebugging g) (sendPcmToBackend g)
         (isSpeaking g) (previousVadState g)
         (addRolling c (lc3RollingBuffer g)) (pc g) (vadBuffer g).

(** The condition of lines 235 and 263. *)
Definition gateOpen (g : Gate) : bool := bypassVadForDebugging g || isSpeaking g.

Definition bufferAndMaybeSend (c : chunk) (g : Gate) : Gate * list Sent :=
  (addToRollingBuffer c g, if gateOpen g then [AudioChunk c] else []).

(** [ingestAudioChunk(audioChunk)], lines 199-239, when the listener
    thread makes no move while the call runs. *)
Definition ingestAudioChunk (c : chunk) (g : Gate) : Gate * list Sent :=
  if negb (vadInitialized g) then (g, [])
  else if sendPcmToBackend g then bufferAndMaybeSend c (feedVad c g)
  else (feedVad c g, []).

(** [ingestLC3AudioChunk(LC3audioChunk)], lines 244-267, when the
    listener thread makes no move while the call runs. *)
Definition ingestLC3AudioChunk (c : chunk) (g : Gate) : Gate * list Sent :=
  if negb (sendPcmToBackend g) then bufferAndMaybeSend c g
  else (g, []).

Definition setListener (speaking previous : bool) (p : ListenerPc) (g : Gate) : Gate :=
  mkGate (vadInitialized g) (bypassVadForDebugging g) (sendPcmToBackend g)
         speaking previous (lc3RollingBuffer g) p (vadBuffer g).

(** One move of the listener thread of [setupVadListener], lines 85-119,
    with [sendBufferedAudio], lines 124-142, unrolled; [vad] is what
    [vadPolicy.shouldPassAudioToRecognizer()] answers when it is polled. *)
Definition listenerStep (vad : bool) (g : Gate) : Gate * list Sent :=
  match pc g with
  | Polling =>
    if bool_decide (vad = previousVadState g) then (g, [])
    else if vad then
      (setListener (isSpeaking g) (previousVadState g) Announced g, [VadStatus true])
    else
      (setListener (isSpeaking g) (previousVadState g) Silencing g, [VadStatus false])
  | Silencing =>
    (setListener false false Polling g, [])
  | Announced =>
    (setListener (isSpeaking g) (previousVadState g) (Flushing (lc3RollingBuffer g)) g, [])
  | Flushing (c :: rest) =>
    (setListener (isSpeaking g) (previousVadState g) (Flushing rest) g, [AudioChunk c])
  | Flushing [] =>
    (setListener true true Polling g, [])
  end.

(** The two ingest paths and the listener thread, interleaved call by
    call: every ingest call runs from its first statement to its last
    between two moves of the listener. *)
Inductive Action :=
| Ingest (c : chunk)
| IngestLC3 (c : chunk)
| Listener (vad : bool).

Definition act (a : Action) (g : Gate) : Gate * list Sent :=
  match a with
  | Ingest c => ingestAudioChunk c g
  | IngestLC3 c => ingestLC3AudioChunk c g
  | Listener vad => listenerStep vad g
  end.

Fixpoint runGate (actions : list Action) (g : Gate) : Gate * list Sent :=
  match actions with
  | [] => (g, [])
  | a :: rest =>
    let '(g1, out1) := act a g in
    let '(g2, out2) := runGate rest g1 in
    (g2, out1 ++ out2)
  end.

(** The gate as the constructor leaves it, VAD loaded. *)
Definition initialGate (bypass pcm : bool) : Gate :=
  mkGate true bypass pcm false false [] Polling [].

Definition isListener (a : Action) : bool :=
  match a with Listener _ => true | _ => false end.

(** How many moves of the listener thread a schedule holds. *)
Definition listenerMoves (actions : list Action) : nat :=
  length (filter (fun a => isListener a = true) actions).

Definition ingestOnly (actions : list Action) : Prop :=
  Forall (fun a => isListener a = false) actions.

(** Everything of a gate but its rolling buffer and its VAD queue. *)
Definition sameListener (g g' : Gate) : Prop :=
  vadInitialized g' = vadInitialized g ∧
  bypassVadForDebugging g' = bypassVadForDebugging g ∧
  sendPcmToBackend g' = sendPcmToBackend g ∧
  isSpeaking g' = isSpeaking g ∧
  previousVadState g' = previousVadState g ∧
  pc g' = pc g.

Definition someChunk : chunk := [Byte.x01; Byte.x02].
Definition otherChunk : chunk := [Byte.x03; Byte.x04].

(** *** The ingest calls statement by statement

    [isSpeaking] is a volatile field that the ingest calls read outside
    the block synchronized on the rolling buffer, and the send that
    follows the read holds no lock either: the listener thread can move
    between the block, the read and the send of one call. *)

Inductive Path := PCM | LC3.

(** The gate and the ingest calls under way: the chunks of the calls that
    have left the synchronized block and have not read the flag yet, and
    the chunks of the calls that found the condition of line 235 (263)
    true and have not sent yet, each oldest first. *)
Record Threads := mkThreads {
  gate : Gate;
  waiting : list chunk;
  decided : list chunk
}.

Inductive Move :=
| Begin (p : Path) (c : chunk)   (* a call runs up to the end of the synchronized block *)
| ReadFlag                       (* the oldest waiting call evaluates the condition *)
| SendLive                       (* the oldest decided call sends its chunk *)
| Listen (vad : bool).           (* a move of the listener thread *)

(** Whether a call on a path gets as far as the rolling buffer. *)
Definition pathEnabled (g : Gate) (p : Path) : bool :=
  match p with
  | PCM => vadInitialized g && sendPcmToBackend g
  | LC3 => negb (sendPcmToBackend g)
  end.

Definition begin (p : Path) (c : chunk) (t : Threads) : Threads :=
  let g1 := match p with
            | PCM => if vadInitialized (gate t) then feedVad c (gate t) else gate t
            | LC3 => gate t
            end in
  if pathEnabled (gate t) p
  then mkThreads (addToRollingBuffer c g1) (waiting t ++ [c]) (decided t)
  else mkThreads g1 (waiting t) (decided t).

Definition move (m : Move) (t : Threads) : Threads * list Sent :=
  match m with
  | Begin p c => (begin p c t, [])
  | ReadFlag =>
    match waiting t with
    | c :: rest =>
      (mkThreads (gate t) rest (if gateOpen (gate t) then decided t ++ [c] else decided t), [])
    | [] => (t, [])
    end
  | SendLive =>
    match decided t with
    | c :: rest => (mkThreads (gate t) (waiting t) rest, [AudioChunk c])
    | [] => (t, [])
    end
  | Listen vad =>
    (mkThreads (listenerStep vad (gate t)).1 (waiting t) (decided t),
     (listenerStep vad (gate t)).2)
  end.

Fixpoint runThreads (moves : list Move) (t : Threads) : Threads * list Sent :=
  match moves with
  | [] => (t, [])
  | m :: rest =>
    let '(t1, out1) := move m t in
    let '(t2, out2) := runThreads rest t1 in
    (t2, out1 ++ out2)
  end.

(** No ingest call under way. *)
Definition atRest (g : Gate) : Threads := mkThreads g [] [].

(** The moves of one ingest call. *)
Definition callOf (p : Path) (c : chunk) : list Move := [Begin p c; ReadFlag; SendLive].

(** A schedule of whole calls as a schedule of moves. *)
Definition movesOf (a : Action) : list Move :=
  match a with
  | Ingest c => callOf PCM c
  | IngestLC3 c => callOf LC3 c
  | Listener vad => [Listen vad]
  end.

Definition isListen (m : Move) : bool :=
  match m with Listen _ => true | _ => false end.

Definition listens (moves : list Move) : nat :=
  length (filter (fun m => isListen m = true) moves).

Definition ingestMoves (moves : list Move) : Prop :=
  Forall (fun m => isListen m = false) moves.

(** The chunks the calls that begin in a schedule add to the rolling
    buffer, in order. *)
Definition buffered (g : Gate) (moves : list Move) : list chunk :=
  omap (fun m => match m with
                 | Begin p c => if pathEnabled g p then Some c else None
                 | _ => None
                 end) moves.

(** The newest [LC3_BUFFER_MAX_SIZE] chunks of a list. *)
Definition newest (chunks : list chunk) : list chunk :=
  drop (length chunks - LC3_BUFFER_MAX_SIZE) chunks.

(** Speech is announced and flushed, a call reads the raised flag, and
    silence is announced before the call sends. *)
Definition lateSend : list Move :=
  [Listen true; Listen true; Listen true; Begin LC3 someChunk; ReadFlag;
   Listen false; Listen false].

End VadGate.

(** ** Fan-out to TPAs (websocket.service.ts, lines 1122-1175, and
       transcription.service.ts, lines 295-394) *)
Module Router.

(** The fields the router reads from the payload it forwards: a
    [TranscriptionData], a [TranslationData], or any other message, in
    which the language fields are [undefined]. *)
Record StreamData := mkData {
  dataType : string;
  dataIsFinal : bool;
  dataText : string;
  dataTranscribeLanguage : option string;
  dataTranslateLanguage : option string
}.

(** What is written to a TPA socket. *)
Inductive TpaMessage :=
| DataStream (sessionId streamType : string) (data : StreamData)
| AudioFrame (arrayBuffer : list Byte.byte)
| CommandActivate (command_id spoken_phrase sessionId : string).

(** The frames written so far, each with the id of its socket. *)
Definition Outbox : Type := list (nat * TpaMessage).

Definition wsSend (ws : WebSocket) (msg : TpaMessage) : M Outbox unit :=
  fun out => (Ok tt, out ++ [(wsId ws, msg)]).

(** A template literal prints [undefined] by name. *)
Definition interpolate (o : option string) : string := default "undefined" o.

(** Lines 1131-1139: the key under which the subscribers are looked up. *)
Definition effectiveSubscription (streamType : string) (data : StreamData) : string :=
  if bool_decide (streamType = "translation") then
    streamType +:+ ":" +:+ interpolate (dataTranscribeLanguage data)
               +:+ "-to-" +:+ interpolate (dataTranslateLanguage data)
  else if bool_decide (streamType = "transcription")
          && negb (Transcription.truthy (dataTranscribeLanguage data)) then
    streamType +:+ ":en-US"
  else if bool_decide (streamType = "transcription") then
    streamType +:+ ":" +:+ interpolate (dataTranscribeLanguage data)
  else streamType.

(** [CommandSchema] of app.model.ts. *)
Record CommandSchema := mkCommand {
  cmdId : string;
  phrases : list string
}.

(** Outcome of [await App.findOne({ packageName })]: a document with its
    optional [commands], [null], or a rejected promise. *)
Inductive FindOne :=
| Doc (commands : option (list CommandSchema))
| NoDoc
| FindError.

Section WithRegistry.

(** Collaborators outside the sources, taken as parameters:
    [sessionService.getSession], [subscriptionService.getSubscribedApps],
    [App.findOne], and the string normalisation [s.trim().toLowerCase()]. *)
Variable getSession : string -> option UserSession.
Variable getSubscribedApps : UserSession -> string -> list string.
Variable findOne : string -> FindOne.
Variable normalize : string -> string.

(** The body of the loops of lines 1143-1160 and 1166-1174: a package is
    served when its connection is there and open. *)
Definition deliverTo (userSession : UserSession) (msg : string -> TpaMessage)
    (packageName : string) : M Outbox unit :=
  match appConnections userSession !! packageName with
  | Some websocket =>
    if decide (readyState websocket = OPEN)
    then wsSend websocket (msg packageName)
    else mret tt
  | None => mret tt
  end.

(** [broadcastToTpa(userSessionId, streamType, data)], lines 1122-1161. *)
Definition broadcastToTpa (userSessionId streamType : string) (data : StreamData)
    : M Outbox unit :=
  match getSession userSessionId with
  | None => mret tt
  | Some userSession =>
    let subscribedApps :=
      getSubscribedApps userSession (effectiveSubscription streamType data) in
    forEach subscribedApps
      (deliverTo userSession
         (fun packageName =>
            DataStream (sessionId userSession +:+ "-" +:+ packageName) streamType data))
  end.

(** [broadcastToTpaAudio(userSession, arrayBuffer)], lines 1163-1175. *)
Definition broadcastToTpaAudio (userSession : UserSession)
    (arrayBuffer : list Byte.byte) : M Outbox unit :=
  forEach (getSubscribedApps userSession "audio_chunk")
          (deliverTo userSession (fun _ => AudioFrame arrayBuffer)).

(** The loop over the phrases of one command, lines 354-388: [continue]
    goes on with the next phrase, [break] leaves this loop and no other. *)
Fixpoint matchPhrases (userSession : UserSession) (text packageName : string)
    (command : CommandSchema) (rest : list string) : M Outbox unit :=
  match rest with
  | [] => mret tt
  | phrase :: rest' =>
    if Transcription.strIncludes (normalize phrase) text then
      match appConnections userSession !! packageName with
      | Some websocket =>
        if decide (readyState websocket = OPEN) then
          wsSend websocket
            (CommandActivate (cmdId command) text
               (sessionId userSession +:+ "-" +:+ packageName))
        else matchPhrases userSession text packageName command rest'
      | None => matchPhrases userSession text packageName command rest'
      end
    else matchPhrases userSession text packageName command rest'
  end.

(** The body of the loop over the active packages, lines 343-390. *)
Definition matchPackage (userSession : UserSession) (text packageName : string)
    : M Outbox unit :=
  match findOne packageName with
  | FindError => throw "findOne rejected"
  | NoDoc => mret tt
  | Doc None => mret tt
  | Doc (Some []) => mret tt
  | Doc (Some commands) =>
    forEach commands
      (fun command => matchPhrases userSession text packageName command (phrases command))
  end.

(** [matchCommandsInTranscription(userSession, transcription)], lines
    321-394, run without another handler of the session in between. *)
Definition matchCommandsInTranscription (userSession : UserSession)
    (transcription : StreamData) : M Outbox unit :=
  if bool_decide (dataText transcription = "") then mret tt
  else
    try_catch
      (let text := normalize (dataText transcription) in
       let activeTPAs := activeAppSessions userSession in
       if bool_decide (activeTPAs = []) then mret tt
       else forEach activeTPAs (matchPackage userSession text))
      (fun _ => mret tt).

(** [broadcastTranscriptionResult(userSession, data)], lines 295-314.  The
    command matcher is an async function that is not awaited: it stops at
    its first [await], before it has written anything, so its frames
    follow those of the broadcast. *)
Definition broadcastTranscriptionResult (userSession : UserSession)
    (data : StreamData) : M Outbox unit :=
  let streamType :=
    if bool_decide (dataType data = "translation") then "translation"
    else "transcription" in
  let matching :=
    bool_decide (dataType data = "transcription") && dataIsFinal data
    && negb (bool_decide (activeAppSessions userSession = [])) in
  try_catch (broadcastToTpa (sessionId userSession) streamType data)
            (fun _ => mret tt);;
  if matching
  then try_catch (matchCommandsInTranscription userSession data) (fun _ => mret tt)
  else mret tt.

(** The frame a package is sent by a broadcast, if any. *)
Definition frameFor (userSession : UserSession) (msg : string -> TpaMessage)
    (packageName : string) : option (nat * TpaMessage) :=
  match appConnections userSession !! packageName with
  | Some websocket =>
    if decide (readyState websocket = OPEN)
    then Some (wsId websocket, msg packageName) else None
  | None => None
  end.

(** Whether a command has a phrase that occurs in the text. *)
Definition commandMatches (text : string) (command : CommandSchema) : bool :=
  existsb (fun phrase => Transcription.strIncludes (normalize phrase) text)
          (phrases command).

(** The activations a package is sent for a text: one for each of its
    commands with a matching phrase, if its connection is open. *)
Definition activations (userSession : UserSession) (text packageName : string)
    : list (nat * TpaMessage) :=
  match findOne packageName, appConnections userSession !! packageName with
  | Doc (Some commands), Some websocket =>
    if decide (readyState websocket = OPEN) then
      (fun command =>
         (wsId websocket,
          CommandActivate (cmdId command) text
            (sessionId userSession +:+ "-" +:+ packageName)))
        <$> filter (fun command => commandMatches text command = true) commands
    else []
  | _, _ => []
  end.

(** The packages reached before the first lookup that is rejected. *)
Fixpoint scanned (packages : list string) : list string :=
  match packages with
  | [] => []
  | packageName :: rest =>
    match findOne packageName with
    | FindError => []
    | _ => packageName :: scanned rest
    end
  end.

(** The frames of a broadcast: one for each subscriber of the effective
    key whose connection is open. *)
Definition broadcastFrames (userSessionId streamType : string) (data : StreamData)
    : list (nat * TpaMessage) :=
  match getSession userSessionId with
  | None => []
  | Some userSession =>
    omap (frameFor userSession
            (fun packageName =>
               DataStream (sessionId userSession +:+ "-" +:+ packageName) streamType data))
         (getSubscribedApps userSession (effectiveSubscription streamType data))
  end.

(** The activations of a transcript: none for an empty text, otherwise
    those of the packages reached, in the order of the active list. *)
Definition commandFrames (userSession : UserSession) (transcription : StreamData)
    : list (nat * TpaMessage) :=
  if bool_decide (dataText transcription = "") then []
  else flat_map (activations userSession (normalize (dataText transcription)))
                (scanned (activeAppSessions userSession)).

End WithRegistry.

End Router.

(** ** TPA channel handlers (websocket.service.ts, lines 1614-1806) *)
Module TpaChannel.

Import Lifecycle.

(** [str.split(sep)] for a separator of one character. *)
Fixpoint split (sep : ascii) (str : string) : list string :=
  match str with
  | EmptyString => [EmptyString]
  | String c rest =>
    if Ascii.eqb c sep then EmptyString :: split sep rest
    else
      match split sep rest with
      | [] => [String c EmptyString]
      | field :: fields => String c field :: fields
      end
  end.

(** Whether a string is free of the separator. *)
Fixpoint dashFree (str : string) : bool :=
  match str with
  | EmptyString => true
  | String c rest => negb (Ascii.eqb c "-"%char) && dashFree rest
  end.

(** Lines 1675-1677 of the [subscription_update] case. *)
Definition languageSubscriptionsChanged
    (previousLanguageSubscriptions newLanguageSubscriptions : list string) : bool :=
  negb (bool_decide (length previousLanguageSubscriptions = length newLanguageSubscriptions))
  || negb (forallb (fun sub => bool_decide (sub ∈ newLanguageSubscriptions))
                   previousLanguageSubscriptions).

Section WithServices.

Variable svc : Services.

(** [setCurrentSessionId(initMessage.sessionId)], line 1876, is reached by
    [handleTpaInit] when the session is found and the key is valid;
    [current] is the [currentAppSession] of the connection. *)
Definition boundSession (msg : TpaConnectionInit) (w : World)
    (current : option string) : option string :=
  if sessionFound msg (session w)
     && validateApiKey svc (initPackageName msg) (initApiKey msg)
  then Some (initSessionId msg)
  else current.

(** Lines 1773-1776 and 1798-1801: the connection stored under the
    package named by the second field of the id is dropped together with
    its subscriptions, if there is one. *)
Definition cleanUp (currentAppSession : string) : M World unit :=
  s ← getSession;
  match split "-" currentAppSession !! 1%nat with
  | Some packageName =>
    if bool_decide (is_Some (appConnections s !! packageName)) then
      modifySession (set_connections (delete packageName));;
      removeSubscriptions svc packageName
    else mret tt
  | None => mret tt
  end.

(** [sessionService.getSession(currentAppSession.split('-')[0])] against
    the one session of the world. *)
Definition ownerFound (currentAppSession : string) (s : UserSession) : bool :=
  bool_decide (head (split "-" currentAppSession) = Some (sessionId s)).

(** [ws.on('close', ...)], lines 1761-1786.  The call that tells the
    registration service of the disconnection touches nothing of the
    session and is not shown. *)
Definition onClose (currentAppSession : option string) : M World unit :=
  match currentAppSession with
  | None => mret tt
  | Some cur =>
    if bool_decide (cur = "") then mret tt
    else
      s ← getSession;
      if negb (ownerFound cur s) then emit (EvLog "User session not found")
      else
        cleanUp cur;;
        emit (EvLog "TPA session disconnected")
  end.

(** [ws.on('error', ...)], lines 1788-1805. *)
Definition onError (ws : WebSocket) (currentAppSession : option string) : M World unit :=
  match currentAppSession with
  | None => emit (EvTpaClose (wsId ws))
  | Some cur =>
    if bool_decide (cur = "") then emit (EvTpaClose (wsId ws))
    else
      s ← getSession;
      if negb (ownerFound cur s) then emit (EvLog "User session not found")
      else
        cleanUp cur;;
        emit (EvLog "TPA session disconnected");;
        emit (EvTpaClose (wsId ws))
  end.

End WithServices.

End TpaChannel.

(** ** Feeding, starting and stopping the streams of a session
       (transcription.service.ts, lines 273-280 and 396-420;
       websocket.service.ts, lines 1532-1550) *)
Module SpeechControl.

Import Transcription.

(** [feedAudioToTranscriptionStreams(userSession, audioData)], lines
    396-401: the writes to the push streams, in the order of the map.
    Without a stream map an error is logged and nothing is written. *)
Definition feedAudioToTranscriptionStreams (st : Streams) (audioData : list Byte.byte)
    : option (list (nat * list Byte.byte)) :=
  match transcriptionStreams st with
  | None => None
  | Some m =>
    Some ((fun e : string * ASRStreamInstance => (pushStream e.2, audioData)) <$> m)
  end.

(** The [canceled] callback of a recognizer, lines 273-280, and the
    error callback of its start call, lines 118-121 and 132-135: the
    stream is torn down; the map is not touched. *)
Definition onCanceled (sdkThrows : AsrCall -> bool)
    (instance : ASRStreamInstance) (subscription : string) : M Streams unit :=
  stopIndividualTranscriptionStream sdkThrows instance subscription.

(** The session fields the VAD message writes. *)
Record Speech := mkSpeech {
  streams : Streams;
  isTranscribing : bool
}.

Definition onStreams {A} (m : M Streams A) : M Speech A := fun sp =>
  let '(r, st) := m (streams sp) in (r, mkSpeech st (isTranscribing sp)).

Definition setTranscribing (b : bool) : M Speech unit := fun sp =>
  (Ok tt, mkSpeech (streams sp) b).

(** [vadMessage.status]: a boolean, or a string. *)
Inductive VadStatusField := StatusBool (b : bool) | StatusString (s : string).

(** [vadMessage.status === true || vadMessage.status === 'true'] *)
Definition speaks (status : VadStatusField) : bool :=
  match status with
  | StatusBool b => b
  | StatusString s => bool_decide (s = "true")
  end.

Section WithSubscriptions.

Variable getLanguageInfo : string -> option LanguageInfo.
Variable sdkThrows : AsrCall -> bool.

(** [subscriptionService.getMinimalLanguageSubscriptions(sessionId)] for
    the session at hand; the service is outside the sources and its
    answer is taken as a parameter. *)
Variable minimalSubs : list string.

(** [startTranscription], lines 406-410. *)
Definition startTranscription : M Streams unit :=
  updateTranscriptionStreams getLanguageInfo sdkThrows minimalSubs.

(** [handlePushStreamError], lines 417-420. *)
Definition handlePushStreamError : M Streams unit :=
  stopTranscription getLanguageInfo sdkThrows.

(** [case GlassesToCloudMessageType.VAD], lines 1532-1550; the broadcast
    of the message that follows is [Router.broadcastToTpa]. *)
Definition handleVad (status : VadStatusField) : M Speech unit :=
  let isSpeaking := speaks status in
  try_catch
    (if isSpeaking then
       setTranscribing true;;
       onStreams startTranscription
     else
       setTranscribing false;;
       onStreams (stopTranscription getLanguageInfo sdkThrows))
    (fun _ =>
       setTranscribing false;;
       onStreams (stopTranscription getLanguageInfo sdkThrows)).

End WithSubscriptions.

End SpeechControl.

(** ** The transcript over a run of recognition events
       (transcription.service.ts, lines 178-270 and 422-474) *)
Module TranscriptRuns.

Import Transcription.

(** A recognizer callback that fires: the language info of its stream,
    whether it is the final one, its result and the time. *)
Record Recognition := mkRecognition {
  recInfo : LanguageInfo;
  recFinal : bool;
  recResult : RecognitionResult;
  recTime : Z
}.

(** The callbacks run one after the other. *)
Definition replay (events : list Recognition) (h : History) : History :=
  foldl (fun h r => onRecognition (recInfo r) (recFinal r) (recResult r) (recTime r) h)
        h events.

(** Every segment but the last one is final. *)
Definition interimOnlyLast (segs : list Segment) : Prop :=
  Forall (fun seg => isFinal seg = true) (removelast segs).

End TranscriptRuns.

(** ** What a session was told by the debouncer *)
Module MicHistory.

Import MicDebounce.

(** The microphone states sent to the glasses of a session, and the
    states handed to the transcription service for it, oldest first. *)
Definition sentTo (sessionId : string) (m : Mic) : list bool :=
  (filter (fun x : string * bool => x.1 = sessionId) (sent m)).*2.

Definition transcriptionCallsFor (sessionId : string) (m : Mic) : list bool :=
  (filter (fun x : string * bool => x.1 = sessionId) (transcriptionCalls m)).*2.

(** A debouncer record remembers the state that was sent last. *)
Definition Consistent (sessionId : string) (m : Mic) : Prop :=
  ∀ d, microphoneStateChangeDebouncers m !! sessionId = Some d →
       last (sentTo sessionId m) = Some (lastSentState d).

End MicHistory.

(** ** PCM samples and what a schedule of the gate lets through
       (SpeechRecAugmentos.java, lines 147-183, 210-216 and 272-285) *)
Module VadAudio.

Import VadGate.

(** The byte with the low eight bits of an integer. *)
Definition byteOf (z : Z) : Byte.byte :=
  default Byte.x00 (Byte.of_N (Z.to_N (z mod 256))).

(** [shortsToBytes(shorts)], lines 272-276. *)
Definition shortsToBytes (shorts : list Z) : chunk :=
  flat_map (fun s => [byteOf s; byteOf (s / 256)]) shorts.

Definition vadFrameSize : nat := 512.

(** What happens to the queue: the ingest thread offers a sample, or the
    processing thread polls one. *)
Inductive QueueOp :=
| Offer (sample : Z)
| Poll.

Definition queueStep (vadBuffer : list Z) (op : QueueOp) : list Z :=
  match op with
  | Offer sample => offerSample vadBuffer sample
  | Poll => tail vadBuffer
  end.

(** The processing thread of [startVadProcessingThread], lines 147-183,
    over the samples it polls: the frames handed to the VAD and the
    samples of the frame under way. *)
Fixpoint processSamples (polled : list Z) (vadChunk : list Z) : list chunk * list Z :=
  match polled with
  | [] => ([], vadChunk)
  | sample :: rest =>
    let vadChunk' := vadChunk ++ [sample] in
    if (length vadChunk' =? vadFrameSize)%nat then
      let '(frames, unfinished) := processSamples rest [] in
      (shortsToBytes vadChunk' :: frames, unfinished)
    else processSamples rest vadChunk'
  end.

(** Whether an action runs on a path the gate has switched on. *)
Definition enabled (g : Gate) (a : Action) : bool :=
  match a with
  | Ingest _ => vadInitialized g && sendPcmToBackend g
  | IngestLC3 _ => negb (sendPcmToBackend g)
  | Listener _ => true
  end.

(** The chunks a schedule brings in on the path that is switched on. *)
Definition ingested (g : Gate) (actions : list Action) : list chunk :=
  omap (fun a =>
          match a with
          | Ingest c | IngestLC3 c => if enabled g a then Some c else None
          | Listener _ => None
          end) actions.

(** The PCM chunks of a schedule, in order. *)
Definition pcmChunks (actions : list Action) : list chunk :=
  omap (fun a => match a with Ingest c => Some c | _ => None end) actions.

(** A gate with another VAD queue. *)
Definition withVadBuffer (q : list Z) (g : Gate) : Gate :=
  mkGate (vadInitialized g) (bypassVadForDebugging g) (sendPcmToBackend g)
         (isSpeaking g) (previousVadState g) (lc3RollingBuffer g) (pc g) q.

(** The VAD announcements among the messages sent. *)
Definition statuses (out : list Sent) : list bool :=
  omap (fun m => match m with VadStatus b => Some b | AudioChunk _ => None end) out.

(** Each announcement is the opposite of the one before it. *)
Fixpoint alternating (previous : bool) (l : list bool) : Prop :=
  match l with
  | [] => True
  | b :: l' => b = negb previous ∧ alternating b l'
  end.

(** The VAD state the listener thread has announced last. *)
Definition announced (g : Gate) : bool :=
  match pc g with
  | Polling => previousVadState g
  | Announced | Flushing _ => true
  | Silencing => false
  end.

End VadAudio.

(** ** TPA SDK: event handlers and settings
       (sdk/src/tpa/session/events.ts and settings.ts) *)
Module Sdk.

(** *** EventManager *)

(** A handler function is known by its identity.  [handlers] is the
    [Map<EventType, Set<Handler>>]; a [Set] holds an element once and
    keeps the order of insertion.  [subscribed] lists the calls of the
    [subscribe] callback of the constructor, oldest first.  [listeners]
    is [this.emitter], the node [EventEmitter] that serves the system
    events: for each event name the array of its listeners. *)
Record EventManager := mkEventManager {
  handlers : gmap string (list nat);
  subscribed : list string;
  listeners : gmap string (list nat)
}.

(** [set.add(x)] and [set.delete(x)] *)
Definition setAdd (x : nat) (s : list nat) : list nat :=
  if bool_decide (x ∈ s) then s else s ++ [x].

Definition setDelete (x : nat) (s : list nat) : list nat :=
  filter (fun y => y ≠ x) s.

(** [addHandler(type, handler)], lines 200-217. *)
Definition addHandler (type : string) (handler : nat) (m : EventManager) : EventManager :=
  let hs := default [] (handlers m !! type) in
  mkEventManager
    (<[type := setAdd handler hs]> (handlers m))
    (if bool_decide (hs = []) then subscribed m ++ [type] else subscribed m)
    (listeners m).

(** [removeHandler(type, handler)], lines 222-233; this is what the
    cleanup function returned by [addHandler] calls. *)
Definition removeHandler (type : string) (handler : nat) (m : EventManager) : EventManager :=
  match handlers m !! type with
  | None => m
  | Some hs =>
    let hs' := setDelete handler hs in
    mkEventManager
      (if bool_decide (hs' = []) then delete type (handlers m)
       else <[type := hs']> (handlers m))
      (subscribed m)
      (listeners m)
  end.

(** [this.emitter.on(name, handler)] of [onConnected], [onDisconnected],
    [onError] and [onSettingsUpdate], lines 162-180, and the
    [this.emitter.off(name, handler)] of the cleanup functions they
    return: a listener is held once for each registration, and [off]
    takes away the registration made last. *)
Definition emitterOn (name : string) (handler : nat) (m : EventManager) : EventManager :=
  mkEventManager (handlers m) (subscribed m)
    (<[name := default [] (listeners m !! name) ++ [handler]]> (listeners m)).

Fixpoint removeLast (x : nat) (l : list nat) : list nat :=
  match l with
  | [] => []
  | y :: l' =>
    if bool_decide (x ∈ l') then y :: removeLast x l'
    else if bool_decide (y = x) then l' else y :: l'
  end.

Definition emitterOff (name : string) (handler : nat) (m : EventManager) : EventManager :=
  mkEventManager (handlers m) (subscribed m)
    (match listeners m !! name with
     | Some ls =>
       let ls' := removeLast handler ls in
       if bool_decide (ls' = []) then delete name (listeners m)
       else <[name := ls']> (listeners m)
     | None => listeners m
     end).

(** [emit(eventType, data)], lines 238-258: the calls made, in order, each
    handler with the data.  First [this.emitter.emit(eventType, data)]
    calls the listeners of the emitter; a node [EventEmitter] that is
    asked to emit [error] and has no listener for it throws instead, and
    then no stream handler is reached.  Then the stream handlers of the
    type are called.  Handlers are taken to return normally and not to
    register or remove handlers while they run. *)
Definition emit {D} (eventType : string) (data : D) (m : EventManager)
    : Result (list (nat * D)) :=
  let system := default [] (listeners m !! eventType) in
  if bool_decide (eventType = "error") && bool_decide (system = []) then
    Throw "Unhandled error"
  else
    Ok (((fun h => (h, data)) <$> system) ++
        ((fun h => (h, data)) <$> default [] (handlers m !! eventType))).

(** No event type is kept with an empty set, and no set holds a handler
    twice. *)
Definition Tidy (m : EventManager) : Prop :=
  ∀ type hs, handlers m !! type = Some hs → hs ≠ [] ∧ NoDup hs.

(** *** SettingsManager *)

(** Setting values, as [===] tells them apart: a number is [NaN] or has
    a value, an object is its reference. *)
Inductive JsValue :=
| JUndefined
| JNull
| JBool (b : bool)
| JNaN
| JNumber (z : Z)
| JString (s : string)
| JObject (ref : nat).

#[global] Instance JsValue_eq_dec : EqDecision JsValue.
Proof. solve_decision. Defined.

Record AppSetting := mkSetting {
  key : string;
  value : JsValue
}.

Record SettingChange := mkChange {
  oldValue : JsValue;
  newValue : JsValue
}.

#[global] Instance SettingChange_eq_dec : EqDecision SettingChange.
Proof. solve_decision. Defined.

(** The settings held and the change maps emitted as [settings:change],
    oldest first; the events per key carry the entries of the same map.
    A change map is a plain object; it is kept by its own enumerable
    properties, which is what [Object.keys] and [Object.entries] see. *)
Record SettingsManager := mkSettingsManager {
  settings : list AppSetting;
  emitted : list (gmap string SettingChange)
}.

(** [settings.find(s => s.key === key)] *)
Fixpoint find (k : string) (l : list AppSetting) : option AppSetting :=
  match l with
  | [] => None
  | s :: l' => if decide (key s = k) then Some s else find k l'
  end.

(** [areEqual(a, b)], lines 153-157: [a === b], under which [NaN] is
    equal to nothing, itself included. *)
Definition areEqual (a b : JsValue) : bool :=
  match a with
  | JNaN => false
  | _ => bool_decide (a = b)
  end.

(** [changes[key] = change] on a plain object.  Under the name
    [__proto__] the assignment goes to the setter that [Object.prototype]
    has for it: it makes the change record the prototype of the map and
    adds no property to the map itself. *)
Definition assign (k : string) (change : SettingChange)
    (changes : gmap string SettingChange) : gmap string SettingChange :=
  if bool_decide (k = "__proto__") then changes else <[k := change]> changes.

(** The body of the loop of lines 110-123. *)
Definition recordChange (old : list AppSetting) (changes : gmap string SettingChange)
    (newSetting : AppSetting) : gmap string SettingChange :=
  match find (key newSetting) old with
  | Some oldSetting =>
    if areEqual (value oldSetting) (value newSetting) then changes
    else assign (key newSetting) (mkChange (value oldSetting) (value newSetting)) changes
  | None => assign (key newSetting) (mkChange JUndefined (value newSetting)) changes
  end.

(** The body of the loop of lines 126-135. *)
Definition recordRemoval (updatedSettings : list AppSetting)
    (changes : gmap string SettingChange) (oldSetting : AppSetting)
    : gmap string SettingChange :=
  if existsb (fun s => bool_decide (key s = key oldSetting)) updatedSettings
  then changes
  else assign (key oldSetting) (mkChange (value oldSetting) JUndefined) changes.

(** [updateSettings(newSettings)], lines 103-144: the change map that is
    returned, and the manager afterwards.  The settings are replaced and
    the events emitted when [Object.keys(changes)] is not empty. *)
Definition updateSettings (newSettings : list AppSetting) (m : SettingsManager)
    : gmap string SettingChange * SettingsManager :=
  let changes := foldl (recordChange (settings m)) ∅ newSettings in
  let changes := foldl (recordRemoval newSettings) changes (settings m) in
  if bool_decide (changes = ∅) then (changes, m)
  else (changes, mkSettingsManager newSettings (emitted m ++ [changes])).

(** [get(key, defaultValue)], lines 244-252. *)
Definition get (k : string) (defaultValue : JsValue) (m : SettingsManager) : JsValue :=
  match find k (settings m) with
  | Some setting =>
    if bool_decide (value setting = JUndefined) then defaultValue else value setting
  | None => defaultValue
  end.

(** [has(key)], lines 218-220. *)
Definition has (k : string) (m : SettingsManager) : bool :=
  existsb (fun s => bool_decide (key s = k)) (settings m).

(** The value a list of settings gives a key, if it has the key. *)
Definition valueOf (k : string) (l : list AppSetting) : option JsValue :=
  value <$> find k l.

(** Whether two lists of settings agree on a key: both give it a value
    and the values are equal, or neither has the key. *)
Definition unchanged (old new : option JsValue) : bool :=
  match old, new with
  | Some a, Some b => areEqual a b
  | None, None => true
  | _, _ => false
  end.

End Sdk.

(** * Properties *)

(** ** The lifecycle controller *)

Lemma forEach_cons_ok {St A} (body : A → M St ()) (x : A) (l : list A) (w w1 : St) :
  body x w = (Ok (), w1) → forEach (x :: l) body w = forEach l body w1.
Proof. intros E. simpl. unfold mbind, M_bind. by rewrite E. Qed.

Lemma forEach_cons_throw {St A} (body : A → M St ()) (x : A) (l : list A)
    (w w1 : St) (e : string) :
  body x w = (Throw e, w1) → forEach (x :: l) body w = (Throw e, w1).
Proof. intros E. simpl. unfold mbind, M_bind. by rewrite E. Qed.

Lemma bind_ok {St A B} (m : M St A) (f : A → M St B) (w w1 : St) (a : A) :
  m w = (Ok a, w1) → (m ≫= f) w = f a w1.
Proof. intros E. unfold mbind, M_bind. by rewrite E. Qed.

Lemma bind_throw {St A B} (m : M St A) (f : A → M St B) (w w1 : St) (e : string) :
  m w = (Throw e, w1) → (m ≫= f) w = (Throw e, w1).
Proof. intros E. unfold mbind, M_bind. by rewrite E. Qed.

Lemma not_in_remove (p : string) (X : gset string) : p ∉ X ∖ {[p]}.
Proof. rewrite elem_of_difference, elem_of_singleton. tauto. Qed.

Lemma add_remove (p : string) (X : gset string) : p ∉ X → (X ∪ {[p]}) ∖ {[p]} = X.
Proof.
  intros Hp. apply set_eq. intros x.
  rewrite elem_of_difference, elem_of_union, elem_of_singleton.
  split; [intros [[?|?] ?]; done|]. intros ?. split; [by left|]. by intros ->.
Qed.

Lemma remove_twice (p : string) (X : gset string) : X ∖ {[p]} ∖ {[p]} = X ∖ {[p]}.
Proof. apply set_eq. intros x. rewrite !elem_of_difference. tauto. Qed.

Lemma in_add (p : string) (X : gset string) : p ∈ X ∪ {[p]}.
Proof. apply elem_of_union. right. by apply elem_of_singleton. Qed.

Lemma subseteq_snoc (l : list string) (p : string) : l ⊆ l ++ [p].
Proof. intros x Hx. apply elem_of_app. by left. Qed.

Lemma elem_of_snoc (l : list string) (p : string) : p ∈ l ++ [p].
Proof. apply elem_of_app. right. by left. Qed.

Lemma snoc_subseteq (l : list string) (p : string) : p ∈ l → l ++ [p] ⊆ l.
Proof.
  intros Hp x [?|Hx]%elem_of_app; [done|].
  by apply list_elem_of_singleton in Hx as ->.
Qed.

Section LifecycleFacts.

Import Lifecycle.

Variable svc : Services.

Ltac munfold :=
  unfold removeSubscriptions, persistRunningApp, whenGlassesConnected,
    hasMediaSubscriptions, sendDebouncedMicrophoneStateChange, sendAppState,
    call, emit, modifySession, modifyMedia, getSession, try_catch, throw,
    mbind, M_bind, mret, M_ret in *.

Ltac mcases := repeat (case_match; simplify_eq/=).

(** Membership in a trace that is written out, and what an event of a
    given kind in such a trace is about. *)
Ltac in_list :=
  solve [repeat first [apply list_elem_of_here | apply list_elem_of_further]].

Ltac only_about :=
  match goal with
  | Hr : _ ∈ _ |- _ =>
    repeat (apply elem_of_cons in Hr as [Hr|Hr]; [congruence|]);
    by apply elem_of_nil in Hr
  end.

Lemma elem_of_without (p q : string) (l : list string) :
  q ∈ without p l ↔ q ∈ l ∧ q ≠ p.
Proof. unfold without. rewrite list_elem_of_filter. tauto. Qed.

Lemma not_elem_of_without (p : string) (l : list string) : p ∉ without p l.
Proof. rewrite elem_of_without. tauto. Qed.

Lemma without_idem (p : string) (l : list string) :
  without p (without p l) = without p l.
Proof.
  unfold without. induction l as [|x l IH]; [done|].
  rewrite !filter_cons. destruct (decide (x ≠ p)); simpl; [|done].
  rewrite filter_cons. destruct (decide (x ≠ p)); [|done]. by rewrite IH.
Qed.

Lemma without_comm (p q : string) (l : list string) :
  without p (without q l) = without q (without p l).
Proof.
  unfold without. induction l as [|x l IH]; [done|].
  rewrite !filter_cons.
  destruct (decide (x ≠ q)), (decide (x ≠ p)); simpl;
    rewrite ?filter_cons; repeat case_decide; try done; by rewrite IH.
Qed.

Lemma push_unique_fresh (p : string) (l : list string) :
  p ∉ l → push_unique p l = l ++ [p].
Proof. intros H. unfold push_unique, includes. by rewrite bool_decide_eq_false_2. Qed.

Lemma elem_of_push_unique (p q : string) (l : list string) :
  q ∈ push_unique p l ↔ q ∈ l ∨ q = p.
Proof.
  unfold push_unique, includes. case_bool_decide.
  - split; [tauto|]. intros [?| ->]; done.
  - rewrite elem_of_app, list_elem_of_singleton. tauto.
Qed.

(** What a stop of a resolvable app leaves of the session: the package is
    filtered out of the active list whatever the collaborators do, and
    nothing else moves but the package's own connection. *)
Lemma stopAppSession_found (p : string) (app : AppI) (w : World) :
  getApp svc p = Found app →
  let s' := session (stopAppSession svc p w).2 in
  activeAppSessions s' = without p (activeAppSessions (session w)) ∧
  loadingApps s' = loadingApps (session w) ∧
  sessionId s' = sessionId (session w) ∧
  websocket s' = websocket (session w) ∧
  ∀ q, q ≠ p → appConnections s' !! q = appConnections (session w) !! q.
Proof.
  intros Hf. unfold stopAppSession. rewrite Hf. munfold.
  mcases; rewrite ?without_idem; repeat split; try done;
    intros q Hq; by rewrite ?lookup_delete_ne.
Qed.

(** Without a record the stop raises before it touches anything. *)
Lemma stopAppSession_unresolved (p : string) (w : World) :
  (∀ app, getApp svc p ≠ Found app) →
  ∃ e, stopAppSession svc p w = (Throw e, w).
Proof.
  intros Hn. unfold stopAppSession.
  destruct (getApp svc p) as [app| |] eqn:E; [by destruct (Hn app)|..]; eauto.
Qed.

Lemma isStandard_found (q : string) :
  isStandard svc q = true → ∃ app, getApp svc q = Found app.
Proof. unfold isStandard. destruct (getApp svc q); [eauto|done..]. Qed.

(** One round of the exclusivity loop never raises and removes its app. *)
Lemma stop_standard_round (q : string) (w : World) :
  isStandard svc q = true →
  ∃ w', stopStandardApp svc q w = (Ok (), w') ∧
        activeAppSessions (session w') = without q (activeAppSessions (session w)) ∧
        loadingApps (session w') = loadingApps (session w) ∧
        sessionId (session w') = sessionId (session w) ∧
        websocket (session w') = websocket (session w) ∧
        ∀ r, r ≠ q → appConnections (session w') !! r = appConnections (session w) !! r.
Proof.
  intros [app Hf]%isStandard_found.
  pose proof (stopAppSession_found q app w Hf) as Hs. simpl in Hs.
  unfold stopStandardApp, try_catch, mbind, M_bind, mret, M_ret, emit.
  destruct (stopAppSession svc q w) as [[b|e] w1]; simpl in *; eauto.
Qed.

Lemma stopRunningStandardApps_spec (p : string) (active : list string) (w : World) :
  ∃ w', stopRunningStandardApps svc p active w = (Ok (), w') ∧
        activeAppSessions (session w') =
          filter (fun q => q ∉ runningStandardApps svc p active)
                 (activeAppSessions (session w)) ∧
        loadingApps (session w') = loadingApps (session w) ∧
        sessionId (session w') = sessionId (session w) ∧
        websocket (session w') = websocket (session w) ∧
        appConnections (session w') !! p = appConnections (session w) !! p.
Proof.
  unfold stopRunningStandardApps.
  assert (Hall : Forall (fun q => q ≠ p ∧ isStandard svc q = true)
                        (runningStandardApps svc p active)).
  { apply Forall_forall. intros q Hq.
    by apply list_elem_of_filter in Hq as [? _]. }
  revert w. induction Hall as [|q l [Hqp Hq] _ IH]; intros w.
  - exists w. simpl. repeat split; try done.
    symmetry. induction (activeAppSessions (session w)) as [|x xs IHx]; [done|].
    rewrite filter_cons. destruct (decide (x ∉ [])) as [_|n]; [by rewrite IHx|].
    exfalso. apply n. apply not_elem_of_nil.
  - destruct (stop_standard_round q w Hq) as (w1 & E1 & Ha & Hl & Hs & Hw & Hc).
    destruct (IH w1) as (w2 & E2 & Ha2 & Hl2 & Hs2 & Hw2 & Hc2).
    exists w2. rewrite (forEach_cons_ok (stopStandardApp svc) q l w w1 E1).
    split; [exact E2|].
    repeat split; try congruence.
    + rewrite Ha2, Ha. unfold without. rewrite list_filter_filter.
      apply list_filter_iff. intros x. rewrite not_elem_of_cons. tauto.
    + rewrite Hc2. by apply Hc.
Qed.

(** What a stop does besides changing the active list, when the app
    record resolves.  Nothing is done to any other package. *)
Lemma stopAppSession_events (q : string) (app : AppI) (w : World) :
  getApp svc q = Found app →
  let w' := (stopAppSession svc q w).2 in
  ∃ evs, trace w' = trace w ++ evs ∧
    StoppedApp svc q app w w' evs ∧
    (∀ r, r ≠ q → Untouched r w w' evs) ∧
    (∀ r, appConnections (session w') !! r = appConnections (session w) !! r ∨
          appConnections (session w') !! r = None) ∧
    (mediaSubscribers w' ⊆ mediaSubscribers w).
Proof.
  intros Hf. unfold stopAppSession, StoppedApp, Untouched. rewrite Hf. munfold.
  unfold tpaSessionId. simpl.
  destruct (removeSubscriptions_throws svc q) eqn:Ers; simpl.
  { exists [EvRemoveSubscriptions q]. split_and!; try done.
    - apply list_elem_of_here.
    - intros r Hr; split_and!; try done; intros Hin; only_about.
    - eauto. }
  mcases; rewrite <- ?app_assoc; (eexists; split; [reflexivity|]); simpl;
    (split;
     [split; [in_list|];
      intros _; (split; [in_list|]); (split; [in_list|]); (split; [set_solver|]);
      intros ws' Hws' Hopen; simplify_eq; try done;
      (split; [in_list|]); intros ?; simplify_eq; by rewrite ?lookup_delete_eq|]);
    (split;
     [intros r Hr; split_and!;
      [by rewrite ?lookup_delete_ne by done|set_solver
      |intros Hin; only_about|intros Hin; only_about]|]);
    (split; [intros r; destruct (decide (r = q)) as [->|Hne];
               rewrite ?lookup_delete_eq, ?lookup_delete_ne by done; eauto|]);
    set_solver.
Qed.

(** One round of the exclusivity loop, with what it does to the app. *)
Lemma stop_round_events (q : string) (app : AppI) (w : World) :
  getApp svc q = Found app →
  ∃ w' evs, stopStandardApp svc q w = (Ok (), w') ∧ trace w' = trace w ++ evs ∧
    sessionId (session w') = sessionId (session w) ∧
    StoppedApp svc q app w w' evs ∧
    (∀ r, r ≠ q → Untouched r w w' evs) ∧
    (∀ r, appConnections (session w') !! r = appConnections (session w) !! r ∨
          appConnections (session w') !! r = None) ∧
    (mediaSubscribers w' ⊆ mediaSubscribers w).
Proof.
  intros Hf.
  destruct (stopAppSession_events q app w Hf) as (evs & Ht & Hstop & Hun & Hc & Hm).
  destruct (stopAppSession_found q app w Hf) as (_ & _ & Hsid & _).
  unfold stopStandardApp, try_catch, mbind, M_bind, mret, M_ret, emit.
  destruct (stopAppSession svc q w) as [[b|e] w1]; simpl in *.
  - exists w1, evs. by split_and!.
  - eexists _, (evs ++ [EvLog "Error stopping STANDARD app"]). simpl.
    split; [reflexivity|]. split; [by rewrite Ht, app_assoc|].
    split; [done|]. unfold StoppedApp, Untouched in *. simpl.
    destruct Hstop as [H1 H2]. split_and!; try done.
    + set_solver.
    + intros Hrs. destruct (H2 Hrs) as (Ha & Hb & Hcc & Hd). split_and!; try done.
      * set_solver.
      * set_solver.
      * intros ws Hws Ho. destruct (Hd ws Hws Ho) as [? ?]. split; [set_solver|done].
    + intros r Hr. destruct (Hun r Hr) as (Ha & Hb & Hcc & Hd). split_and!; try done.
      * intros [Hin|Hin]%elem_of_app; [done|only_about].
      * intros [Hin|Hin]%elem_of_app; [done|only_about].
Qed.

(** The exclusivity loop: every app of the list is stopped, and nothing
    is done to a package that is not in it. *)
Lemma stop_rounds_events (l : list string) (w : World) :
  Forall (fun q => isStandard svc q = true) l →
  ∃ w' evs, forEach l (stopStandardApp svc) w = (Ok (), w') ∧
    trace w' = trace w ++ evs ∧
    sessionId (session w') = sessionId (session w) ∧
    (∀ q app, q ∈ l → getApp svc q = Found app → StoppedApp svc q app w w' evs) ∧
    (∀ r, r ∉ l → Untouched r w w' evs) ∧
    (∀ r, appConnections (session w') !! r = appConnections (session w) !! r ∨
          appConnections (session w') !! r = None) ∧
    (mediaSubscribers w' ⊆ mediaSubscribers w).
Proof.
  intros Hall. revert w. induction Hall as [|q l Hq _ IH]; intros w.
  - exists w, []. simpl. rewrite app_nil_r. split_and!; try done.
    + intros q app Hin. by apply not_elem_of_nil in Hin.
    + intros r _. unfold Untouched. split_and!; try done; apply not_elem_of_nil.
    + eauto.
  - destruct (isStandard_found q Hq) as [appq Hfq].
    destruct (stop_round_events q appq w Hfq)
      as (w1 & evs1 & E1 & Ht1 & Hs1 & Hstop1 & Hun1 & Hc1 & Hm1).
    destruct (IH w1) as (w2 & evs2 & E2 & Ht2 & Hs2 & Hstop2 & Hun2 & Hc2 & Hm2).
    exists w2, (evs1 ++ evs2).
    rewrite (forEach_cons_ok (stopStandardApp svc) q l w w1 E1).
    split; [exact E2|]. split; [by rewrite Ht2, Ht1, app_assoc|].
    split; [congruence|].
    assert (Hgone : ∀ r, appConnections (session w1) !! r = None →
                         appConnections (session w2) !! r = None).
    { intros r Hr. destruct (Hc2 r) as [Hk|Hk]; [by rewrite Hk|done]. }
    split_and!.
    + intros q' app' Hin Hf'. unfold StoppedApp.
      destruct (decide (q' ∈ l)) as [Hl|Hl].
      * destruct (Hstop2 q' app' Hl Hf') as [Ha Hb].
        split; [set_solver|]. intros Hrs.
        destruct (Hb Hrs) as (Hwh & Hst & Hmed & Hconn).
        unfold tpaSessionId in *. rewrite Hs1 in Hwh.
        split_and!; [set_solver|set_solver|done|].
        intros ws Hws Ho.
        destruct (decide (q' = q)) as [->|Hne].
        -- assert (appq = app') as -> by congruence.
           destruct Hstop1 as [_ Hb1]. destruct (Hb1 Hrs) as (_ & _ & _ & Hconn1).
           destruct (Hconn1 ws Hws Ho) as [Hcl Hdel].
           split; [set_solver|]. intros Hnt. by apply Hgone, Hdel.
        -- destruct (Hun1 q' Hne) as (Hk & _).
           rewrite <- Hk in Hws. destruct (Hconn ws Hws Ho) as [Hcl Hdel].
           split; [set_solver|done].
      * assert (q' = q) as -> by set_solver.
        assert (appq = app') as -> by congruence.
        destruct Hstop1 as [Ha Hb]. destruct (Hun2 q Hl) as (Hk & Hmed2 & _).
        split; [set_solver|]. intros Hrs.
        destruct (Hb Hrs) as (Hwh & Hst & Hmed & Hconn).
        split_and!; [set_solver|set_solver|by rewrite Hmed2|].
        intros ws Hws Ho. destruct (Hconn ws Hws Ho) as [Hcl Hdel].
        split; [set_solver|]. intros Hnt. by apply Hgone, Hdel.
    + intros r Hr. apply not_elem_of_cons in Hr as [Hrq Hrl].
      destruct (Hun1 r Hrq) as (Ha1 & Hb1 & Hc1' & Hd1).
      destruct (Hun2 r Hrl) as (Ha2 & Hb2 & Hc2' & Hd2).
      unfold Untouched. split_and!.
      * congruence.
      * by rewrite Hb2.
      * intros [?|?]%elem_of_app; done.
      * intros [?|?]%elem_of_app; done.
    + intros r. destruct (Hc2 r) as [Hk|Hk]; [|by right].
      rewrite Hk. apply Hc1.
    + set_solver.
Qed.

Lemma filter_not_running (p : string) (active : list string) :
  p ∉ active →
  filter (fun q => q ∉ runningStandardApps svc p active) active =
  filter (fun q => isStandard svc q = false) active.
Proof.
  intros Hp. unfold runningStandardApps.
  assert (Hsub : ∀ l, l ⊆ active →
    filter (fun q => q ∉ filter (fun name => name ≠ p ∧ isStandard svc name = true) active) l =
    filter (fun q => isStandard svc q = false) l).
  { induction l as [|x l IH]; intros Hl; [done|].
    rewrite !filter_cons.
    assert (Hx : x ∈ active) by (apply Hl; left).
    assert (x ≠ p) by (intros ->; done).
    rewrite IH by (intros y Hy; apply Hl; by right).
    destruct (isStandard svc x) eqn:Ex.
    - rewrite decide_False.
      + by rewrite decide_False.
      + intros Hn. apply Hn. apply list_elem_of_filter. done.
    - rewrite decide_True.
      + by rewrite decide_True.
      + intros Hin. apply list_elem_of_filter in Hin as [[_ ?] _]. congruence. }
  by apply Hsub.
Qed.

Lemma beginLoading_spec (p : string) (app : AppI) (w : World) :
  p ∉ activeAppSessions (session w) →
  ∃ w1, beginLoading svc p app (activeAppSessions (session w)) w = (Ok (), w1) ∧
        activeAppSessions (session w1) = afterExclusivity svc app (activeAppSessions (session w)) ∧
        loadingApps (session w1) = loadingApps (session w) ∪ {[p]} ∧
        sessionId (session w1) = sessionId (session w) ∧
        websocket (session w1) = websocket (session w) ∧
        appConnections (session w1) !! p = appConnections (session w) !! p.
Proof.
  intros Hp. unfold beginLoading, afterExclusivity.
  destruct (decide (tpaType app = STANDARD)) as [Hstd|Hstd].
  - destruct (stopRunningStandardApps_spec p (activeAppSessions (session w)) w)
      as (w1 & E & Ha & Hl & Hs & Hw & Hc).
    eexists. unfold mbind, M_bind. rewrite E. unfold modifySession. simpl.
    split; [reflexivity|]. simpl.
    rewrite Ha, Hl, Hs, Hw, Hc. by rewrite filter_not_running.
  - eexists. unfold mbind, M_bind, mret, M_ret, modifySession. simpl.
    split; [reflexivity|]. done.
Qed.

(** The exclusivity loop of a STANDARD start as a whole: every other
    STANDARD app of the active list is stopped, and nothing is done to a
    package that is not STANDARD. *)
Lemma beginLoading_events (p : string) (app : AppI) (w : World) :
  tpaType app = STANDARD →
  ∃ w1 evs, beginLoading svc p app (activeAppSessions (session w)) w = (Ok (), w1) ∧
    trace w1 = trace w ++ evs ∧
    (∀ q appq, q ∈ activeAppSessions (session w) → q ≠ p →
               getApp svc q = Found appq → tpaType appq = STANDARD →
               StoppedApp svc q appq w w1 evs) ∧
    (∀ r, isStandard svc r = false → Untouched r w w1 evs).
Proof.
  intros Hstd. unfold beginLoading, stopRunningStandardApps. rewrite decide_True by done.
  destruct (stop_rounds_events (runningStandardApps svc p (activeAppSessions (session w))) w)
    as (w1 & evs & E & Ht & Hs & Hstop & Hun & _).
  { apply Forall_forall. intros q Hq. apply list_elem_of_filter in Hq as [Hq _].
    by destruct Hq. }
  eexists _, evs. unfold mbind, M_bind. rewrite E. unfold modifySession. simpl.
  split; [reflexivity|]. split; [done|]. split.
  - intros q appq Hin Hne Hf Hk.
    assert (Hq : q ∈ runningStandardApps svc p (activeAppSessions (session w))).
    { apply list_elem_of_filter. split; [|done]. split; [done|].
      unfold isStandard. rewrite Hf. by apply bool_decide_eq_true_2. }
    destruct (Hstop q appq Hq Hf) as [Ha Hb]. split; [done|].
    intros Hrs. destruct (Hb Hrs) as (? & ? & ? & Hconn). split_and!; try done.
  - intros r Hr.
    assert (Hnot : r ∉ runningStandardApps svc p (activeAppSessions (session w))).
    { intros [Hin _]%list_elem_of_filter. destruct Hin. congruence. }
    destruct (Hun r Hnot) as (? & ? & ? & ?). by split_and!.
Qed.

(** A start is its two parts run one after the other. *)
Lemma startAppSession_parts (p : string) (w : World) :
  startAppSession svc p w =
  (startAppSessionBegin svc p ≫= startAppSessionResume svc p) w.
Proof.
  unfold startAppSession, startAppSessionBegin, startAppSessionResume.
  unfold mbind, M_bind, getSession, mret, M_ret, throw.
  destruct (has p (loadingApps (session w)) || includes p (activeAppSessions (session w)));
    [done|].
  destruct (getApp svc p) as [app| |]; [|done..].
  by destruct (beginLoading svc p app (activeAppSessions (session w)) w) as [[[]|e] w1].
Qed.

Lemma startAppSession_unfold (p : string) (app : AppI) (w w1 : World) :
  p ∉ loadingApps (session w) →
  p ∉ activeAppSessions (session w) →
  getApp svc p = Found app →
  beginLoading svc p app (activeAppSessions (session w)) w = (Ok (), w1) →
  startAppSession svc p w =
  try_catch (launchApp svc p app (tpaSessionId (session w) p)) (startFailed p) w1.
Proof.
  intros Hl Ha Hf Hb. unfold startAppSession.
  unfold mbind at 1. unfold M_bind, getSession.
  unfold has, includes. rewrite !bool_decide_eq_false_2 by done. simpl.
  rewrite Hf. unfold mbind, M_bind. by rewrite Hb.
Qed.

Lemma launch_spec (p : string) (app : AppI) (id : string) (w1 : World) :
  let r := try_catch (launchApp svc p app id) (startFailed p) w1 in
  loadingApps (session r.2) = loadingApps (session w1) ∖ {[p]} ∧
  appConnections (session r.2) = appConnections (session w1) ∧
  sessionId (session r.2) = sessionId (session w1) ∧
  if launchFails svc app
  then (∃ e, r = (Throw e, r.2)) ∧
       activeAppSessions (session r.2) = activeAppSessions (session w1)
  else (r.1 = Ok id ∨ ∃ e, r.1 = Throw e) ∧
       activeAppSessions (session r.2) = push_unique p (activeAppSessions (session w1)).
Proof.
  unfold launchApp, startFailed. munfold. simpl.
  unfold launchFails.
  destruct (triggerWebhook_throws svc _) eqn:Ew; simpl.
  - repeat split; eauto.
  - destruct (handleAppStart_throws svc _) eqn:Eh; simpl.
    + repeat split; eauto.
    + mcases; repeat split; eauto using remove_twice.
Qed.

(** [startAppSession] from a state in which the package is neither
    loading nor active and its record resolves. *)
Lemma startAppSession_fresh (p : string) (app : AppI) (w : World) :
  p ∉ loadingApps (session w) →
  p ∉ activeAppSessions (session w) →
  getApp svc p = Found app →
  let r := startAppSession svc p w in
  let base := afterExclusivity svc app (activeAppSessions (session w)) in
  loadingApps (session r.2) = loadingApps (session w) ∧
  appConnections (session r.2) !! p = appConnections (session w) !! p ∧
  sessionId (session r.2) = sessionId (session w) ∧
  if launchFails svc app
  then (∃ e, r = (Throw e, r.2)) ∧ activeAppSessions (session r.2) = base
  else (r.1 = Ok (tpaSessionId (session w) p) ∨ ∃ e, r.1 = Throw e) ∧
       activeAppSessions (session r.2) = base ++ [p].
Proof.
  intros Hl Ha Hf.
  destruct (beginLoading_spec p app w Ha) as (w1 & Hb & Ha1 & Hl1 & Hs1 & _ & Hc1).
  simpl. rewrite (startAppSession_unfold p app w w1 Hl Ha Hf Hb).
  pose proof (launch_spec p app (tpaSessionId (session w) p) w1) as Hr.
  simpl in Hr. destruct Hr as (Hl2 & Hc2 & Hs2 & Hrest).
  assert (Hbase : p ∉ afterExclusivity svc app (activeAppSessions (session w))).
  { unfold afterExclusivity. case_decide; [|done].
    rewrite list_elem_of_filter. tauto. }
  repeat split.
  - rewrite Hl2, Hl1. by apply add_remove.
  - by rewrite Hc2.
  - congruence.
  - destruct (launchFails svc app).
    + destruct Hrest as [He Hact]. split; [done|]. by rewrite Hact.
    + destruct Hrest as [He Hact]. split; [done|].
      rewrite Hact, Ha1. by apply push_unique_fresh.
Qed.

Lemma startAppSession_early_return (p : string) (w : World) :
  has p (loadingApps (session w)) || includes p (activeAppSessions (session w)) = true →
  startAppSession svc p w = (Ok (tpaSessionId (session w) p), w).
Proof.
  intros H. unfold startAppSession, mbind, M_bind, getSession. by rewrite H.
Qed.

Lemma startAppSession_unresolved (p : string) (w : World) :
  has p (loadingApps (session w)) || includes p (activeAppSessions (session w)) = false →
  (∀ app, getApp svc p ≠ Found app) →
  ∃ e, startAppSession svc p w = (Throw e, w).
Proof.
  intros Hb Hn. unfold startAppSession, mbind, M_bind, getSession, mret, M_ret.
  rewrite Hb.
  destruct (getApp svc p) as [app| |] eqn:E; [by destruct (Hn app)|..];
    unfold throw; eauto.
Qed.

(** C8. When the package is already loading or active, [startAppSession]
    returns the composite id [sessionId-packageName] and leaves the whole
    world as it was: session, subscription registry and trace (no webhook,
    no boot screen, no membership change). *)
Theorem startApp_already_running (p : string) (w : World) :
  p ∈ loadingApps (session w) ∨ p ∈ activeAppSessions (session w) →
  startAppSession svc p w = (Ok (sessionId (session w) +:+ "-" +:+ p), w).
Proof.
  intros H. apply startAppSession_early_return. unfold has, includes.
  destruct H as [H|H].
  - by rewrite (bool_decide_eq_true_2 _ H).
  - rewrite (bool_decide_eq_true_2 (p ∈ activeAppSessions (session w)) H).
    by rewrite orb_true_r.
Qed.

(** The timer of the loading phase: it acts only on a package that is
    still loading, and never on the active list. *)
Lemma loadingTimeout_spec (p : string) (app : AppI) (w : World) :
  let r := loadingTimeout svc p app w in
  activeAppSessions (session r.2) = activeAppSessions (session w) ∧
  appConnections (session r.2) = appConnections (session w) ∧
  if bool_decide (p ∈ loadingApps (session w))
  then loadingApps (session r.2) = loadingApps (session w) ∖ {[p]} ∧
       EvHandleAppStop (packageName app) ∈ newEvents w r.2
  else r = (Ok (), w).
Proof.
  unfold loadingTimeout, newEvents, has. munfold. simpl.
  case_bool_decide; simpl; [|done].
  destruct (handleAppStop_throws svc (packageName app)); simpl;
    (repeat split; try done; rewrite <- app_assoc, drop_app_length; set_solver).
Qed.

(** What [handleTpaInit] does to the session, case by case. *)
Lemma handleTpaInit_spec (ws : WebSocket) (msg : TpaConnectionInit) (w : World) :
  let r := handleTpaInit svc ws msg w in
  let pkg := initPackageName msg in
  if sessionFound msg (session w) && validateApiKey svc pkg (initApiKey msg)
  then appConnections (session r.2) = <[pkg := ws]> (appConnections (session w)) ∧
       EvTpaAck (wsId ws) (initSessionId msg) ∈ newEvents w r.2 ∧
       (if bool_decide (pkg ∈ loadingApps (session w))
        then loadingApps (session r.2) = loadingApps (session w) ∖ {[pkg]} ∧
             activeAppSessions (session r.2) = push_unique pkg (activeAppSessions (session w))
        else loadingApps (session r.2) = loadingApps (session w) ∧
             activeAppSessions (session r.2) = activeAppSessions (session w))
  else session r.2 = session w ∧
       ∃ reason, newEvents w r.2 = [EvTpaReject (wsId ws) reason].
Proof.
  unfold handleTpaInit, newEvents, has. munfold. simpl.
  destruct (sessionFound msg (session w)); simpl.
  2: { split; [done|]. eexists. by rewrite drop_app_length. }
  destruct (validateApiKey svc _ _); simpl.
  2: { split; [done|]. eexists. by rewrite drop_app_length. }
  assert (Hack : ∀ (t t' : list Event) e, e ∈ drop (length t) ((t ++ t') ++ [e])).
  { intros t t' e. rewrite <- app_assoc, drop_app_length. set_solver. }
  assert (Hack0 : ∀ (t : list Event) e, e ∈ drop (length t) (t ++ [e])).
  { intros t e. rewrite drop_app_length. set_solver. }
  mcases; repeat split; try done;
    rewrite <- ?app_assoc; rewrite ?drop_app_length; set_solver.
Qed.

(** C3 (amended). A [tpa_connection_init] is accepted, that is the
    connection is stored under the package and the ack is sent on it,
    exactly when the session is found and the API key validates.
    Membership in [loadingApps] or [activeAppSessions] is not required,
    for system and non-system packages alike; a package that was not
    loading leaves both sets as they were, and a package that was loading
    is moved to the active list. *)
Theorem bind_accepted_iff_key_valid (ws : WebSocket) (msg : TpaConnectionInit) (w : World) :
  let w' := (handleTpaInit svc ws msg w).2 in
  let pkg := initPackageName msg in
  (bindAccepted ws msg w w' ↔
     sessionFound msg (session w) = true ∧
     validateApiKey svc pkg (initApiKey msg) = true) ∧
  (pkg ∉ loadingApps (session w) →
     loadingApps (session w') = loadingApps (session w) ∧
     activeAppSessions (session w') = activeAppSessions (session w)) ∧
  (pkg ∈ loadingApps (session w) → bindAccepted ws msg w w' →
     (pkg ∉ loadingApps (session w')) ∧ pkg ∈ activeAppSessions (session w')).
Proof.
  simpl.
  pose proof (handleTpaInit_spec ws msg w) as Hs. simpl in Hs.
  unfold bindAccepted.
  destruct (sessionFound msg (session w)); simpl in Hs.
  2: { destruct Hs as [Hsame [reason Hev]]. rewrite Hev, Hsame.
       split; [|split]; [|done|].
       - split; [|intros [? ?]; done].
         by intros [_ [=]%list_elem_of_singleton].
       - by intros _ [_ [=]%list_elem_of_singleton]. }
  destruct (validateApiKey svc _ _); simpl in Hs.
  2: { destruct Hs as [Hsame [reason Hev]]. rewrite Hev, Hsame.
       split; [|split]; [|done|].
       - split; [|intros [? ?]; done].
         by intros [_ [=]%list_elem_of_singleton].
       - by intros _ [_ [=]%list_elem_of_singleton]. }
  destruct Hs as (Hc & Hack & Hmove).
  split; [|split].
  - split; [done|]. intros _. split; [|done]. by rewrite Hc, lookup_insert_eq.
  - intros Hl. by rewrite bool_decide_eq_false_2 in Hmove.
  - intros Hl _. rewrite bool_decide_eq_true_2 in Hmove by done.
    destruct Hmove as [-> ->]. split; [apply not_in_remove|].
    apply elem_of_push_unique. by right.
Qed.

(** The [stop_app] handler leaves the package out of the active list
    whatever happens inside it. *)
Lemma handleStopApp_active (p : string) (w : World) :
  let s' := session (handleStopApp svc p w).2 in
  activeAppSessions s' = without p (activeAppSessions (session w)) ∧
  loadingApps s' = loadingApps (session w).
Proof.
  assert (Hstop : ∀ w0 : World,
    let r := stopAppSession svc p w0 in
    loadingApps (session r.2) = loadingApps (session w0) ∧
    (activeAppSessions (session r.2) = without p (activeAppSessions (session w0)) ∨
     (∃ e, r.1 = Throw e) ∧
     activeAppSessions (session r.2) = activeAppSessions (session w0))).
  { intros w0. simpl. destruct (getApp svc p) as [app| |] eqn:E.
    - destruct (stopAppSession_found p app w0 E) as (Ha & Hl & _). eauto.
    - destruct (stopAppSession_unresolved p w0) as [e ->]; [congruence|].
      simpl. eauto.
    - destruct (stopAppSession_unresolved p w0) as [e ->]; [congruence|].
      simpl. eauto. }
  unfold handleStopApp. munfold. simpl.
  mcases;
    try match goal with
    | H : stopAppSession svc p ?W = _ |- _ =>
      let Hx := fresh "Hx" in
      pose proof (Hstop W) as Hx; rewrite H in Hx; simpl in Hx;
      destruct Hx as [-> [->|[[e' ?] ->]]]
    end; simplify_eq/=; rewrite ?without_idem; done.
Qed.

(** C1 (amended). Starting a package that is neither loading nor active
    and whose record resolves: the package is in [loadingApps] while the
    session webhook is dispatched; when the webhook call and the boot
    screen succeed the package is in [activeAppSessions] and out of
    [loadingApps] on return without any bind ([appConnections] at the
    package is as before), and the loading timer then finds nothing to
    do; when one of them throws, the error propagates and the package is
    in neither set.  A timer that finds the package still loading removes
    it from [loadingApps], tears the boot screen down and leaves the
    active list alone; an accepted bind of a loading package moves it to
    the active list and stores its connection. *)
Theorem start_activates_on_webhook (p : string) (app : AppI) (w : World) :
  p ∉ loadingApps (session w) →
  p ∉ activeAppSessions (session w) →
  getApp svc p = Found app →
  let r := startAppSession svc p w in
  (∃ w1, beginLoading svc p app (activeAppSessions (session w)) w = (Ok (), w1) ∧
         p ∈ loadingApps (session w1) ∧
         (p ∉ activeAppSessions (session w1)) ∧
         r = try_catch (launchApp svc p app (tpaSessionId (session w) p))
                       (startFailed p) w1) ∧
  (p ∉ loadingApps (session r.2)) ∧
  appConnections (session r.2) !! p = appConnections (session w) !! p ∧
  (if launchFails svc app
   then (∃ e, r.1 = Throw e) ∧ p ∉ activeAppSessions (session r.2)
   else p ∈ activeAppSessions (session r.2)) ∧
  loadingTimeout svc p app r.2 = (Ok (), r.2) ∧
  (∀ w2, p ∈ loadingApps (session w2) →
     let t := (loadingTimeout svc p app w2).2 in
     (p ∉ loadingApps (session t)) ∧
     EvHandleAppStop (packageName app) ∈ newEvents w2 t ∧
     activeAppSessions (session t) = activeAppSessions (session w2)) ∧
  (∀ w2 ws msg,
     initPackageName msg = p →
     p ∈ loadingApps (session w2) →
     sessionFound msg (session w2) = true →
     validateApiKey svc p (initApiKey msg) = true →
     let b := (handleTpaInit svc ws msg w2).2 in
     p ∈ activeAppSessions (session b) ∧
     (p ∉ loadingApps (session b)) ∧
     appConnections (session b) !! p = Some ws).
Proof.
  intros Hl Ha Hf. simpl.
  destruct (beginLoading_spec p app w Ha) as (w1 & Hb & Ha1 & Hl1 & _).
  pose proof (startAppSession_fresh p app w Hl Ha Hf) as Hs. simpl in Hs.
  destruct Hs as (Hl' & Hc' & _ & Hact).
  assert (Hbase : p ∉ afterExclusivity svc app (activeAppSessions (session w))).
  { unfold afterExclusivity. case_decide; [|done].
    rewrite list_elem_of_filter. tauto. }
  assert (Hout : p ∉ loadingApps (session (startAppSession svc p w).2))
    by (by rewrite Hl').
  split; [|split; [|split; [|split; [|split; [|split]]]]].
  - exists w1. split; [done|]. split; [rewrite Hl1; apply in_add|].
    split; [by rewrite Ha1|].
    by apply startAppSession_unfold.
  - done.
  - done.
  - destruct (launchFails svc app).
    + destruct Hact as [[e He] Hact]. split; [exists e; by rewrite He|].
      by rewrite Hact.
    + destruct Hact as [_ ->]. apply elem_of_app. right. by left.
  - pose proof (loadingTimeout_spec p app (startAppSession svc p w).2) as Ht.
    simpl in Ht. rewrite bool_decide_eq_false_2 in Ht by done. tauto.
  - intros w2 Hin. pose proof (loadingTimeout_spec p app w2) as Ht.
    simpl in Ht. rewrite bool_decide_eq_true_2 in Ht by done.
    destruct Ht as (Hact2 & _ & Hl2 & Hev). rewrite Hl2.
    split; [apply not_in_remove|done].
  - intros w2 ws msg <- Hin Hsf Hk.
    pose proof (handleTpaInit_spec ws msg w2) as Hi. simpl in Hi.
    rewrite Hsf, Hk in Hi. simpl in Hi.
    rewrite bool_decide_eq_true_2 in Hi by done.
    destruct Hi as (-> & _ & -> & ->).
    split; [apply elem_of_push_unique; by right|].
    split; [apply not_in_remove|]. by rewrite lookup_insert_eq.
Qed.

(** C10 (amended). When the app record resolves, [stopAppSession] leaves
    the package out of [activeAppSessions] on normal return and on every
    error path; when it does not resolve, [stopAppSession] raises before
    it touches the session; the [stop_app] handler filters the package
    out of the active list in every case. *)
Theorem stopApp_leaves_inactive (p : string) (w : World) :
  (∀ app, getApp svc p = Found app →
          (p ∉ activeAppSessions (session (stopAppSession svc p w).2))) ∧
  ((∀ app, getApp svc p ≠ Found app) →
          ∃ e, stopAppSession svc p w = (Throw e, w)) ∧
  p ∉ activeAppSessions (session (handleStopApp svc p w).2).
Proof.
  split; [|split].
  - intros app Hf.
    destruct (stopAppSession_found p app w Hf) as [-> _].
    apply not_elem_of_without.
  - apply stopAppSession_unresolved.
  - destruct (handleStopApp_active p w) as [-> _]. apply not_elem_of_without.
Qed.

Lemma isStandard_of_found (p : string) (app : AppI) :
  getApp svc p = Found app → isStandard svc p = bool_decide (tpaType app = STANDARD).
Proof. intros H. unfold isStandard. by rewrite H. Qed.

Lemma AtMostOneStandard_subseteq (l l' : list string) :
  l' ⊆ l → AtMostOneStandard svc l → AtMostOneStandard svc l'.
Proof. intros Hsub H a b Ha Hb. apply H; by apply Hsub. Qed.

Lemma elem_of_afterExclusivity (app : AppI) (active : list string) (q : string) :
  q ∈ afterExclusivity svc app active →
  q ∈ active ∧ (tpaType app = STANDARD → isStandard svc q = false).
Proof.
  unfold afterExclusivity. case_decide.
  - rewrite list_elem_of_filter. tauto.
  - tauto.
Qed.

(** A start keeps the session exclusive, and a start that returns has
    the package in the active list. *)
Lemma startAppSession_exclusive (p : string) (w : World) :
  Exclusive svc w →
  let r := startAppSession svc p w in
  Exclusive svc r.2 ∧ (∀ id, r.1 = Ok id → p ∈ activeAppSessions (session r.2)).
Proof.
  intros [Hl Hone]. simpl.
  destruct (has p (loadingApps (session w)) || includes p (activeAppSessions (session w)))
    eqn:Hb.
  - rewrite (startAppSession_early_return p w Hb). simpl. split; [done|].
    intros _ _. unfold has, includes in Hb. rewrite Hl in Hb.
    apply orb_true_iff in Hb as [Hb|Hb]; apply bool_decide_eq_true_1 in Hb;
      [set_solver|done].
  - assert (Hnl : p ∉ loadingApps (session w)) by (rewrite Hl; set_solver).
    assert (Hna : p ∉ activeAppSessions (session w)).
    { apply orb_false_iff in Hb as [_ Hb]. by apply bool_decide_eq_false_1 in Hb. }
    destruct (getApp svc p) as [app| |] eqn:Hf.
    2,3: destruct (startAppSession_unresolved p w Hb) as [e ->];
         [congruence|simpl; split; [done|intros ? [=]]].
    pose proof (startAppSession_fresh p app w Hnl Hna Hf) as Hs. simpl in Hs.
    destruct Hs as (Hl' & _ & _ & Hact).
    assert (Hstd : tpaType app ≠ STANDARD → isStandard svc p = false).
    { intros Hn. rewrite (isStandard_of_found p app Hf). by apply bool_decide_eq_false_2. }
    assert (Hbase : AtMostOneStandard svc
                      (afterExclusivity svc app (activeAppSessions (session w)) ++ [p])).
    { intros a b [Ha| ->%list_elem_of_singleton]%elem_of_app
                 [Hb'| ->%list_elem_of_singleton]%elem_of_app Hsa Hsb; try done.
      - apply elem_of_afterExclusivity in Ha as [Ha Ha'].
        apply elem_of_afterExclusivity in Hb' as [Hb' Hb''].
        by apply Hone.
      - apply elem_of_afterExclusivity in Ha as [Ha Ha'].
        destruct (decide (tpaType app = STANDARD)) as [Ht|Ht].
        + rewrite Ha' in Hsa; done.
        + rewrite Hstd in Hsb; done.
      - apply elem_of_afterExclusivity in Hb' as [Hb' Hb''].
        destruct (decide (tpaType app = STANDARD)) as [Ht|Ht].
        + rewrite Hb'' in Hsb; done.
        + rewrite Hstd in Hsa; done. }
    destruct (launchFails svc app).
    + destruct Hact as [[e He] Hact]. rewrite He. simpl. rewrite He in Hl', Hact.
      simpl in *. split; [|intros ? [=]].
      split; [congruence|]. rewrite Hact.
      eapply AtMostOneStandard_subseteq; [|exact Hbase]. apply subseteq_snoc.
    + destruct Hact as [_ Hact]. split.
      * split; [congruence|]. by rewrite Hact.
      * intros _ _. rewrite Hact. apply elem_of_snoc.
Qed.

Lemma handleStartApp_session (p : string) (w : World) :
  session (handleStartApp svc p w).2 = session (startAppSession svc p w).2.
Proof.
  unfold handleStartApp. munfold.
  destruct (startAppSession svc p w) as [[id|e] w1]; simpl; [|done].
  by destruct (glassesSend_throws svc).
Qed.

Lemma handleTpaInit_idle (ws : WebSocket) (msg : TpaConnectionInit) (w : World) :
  loadingApps (session w) = ∅ →
  let w' := (handleTpaInit svc ws msg w).2 in
  loadingApps (session w') = ∅ ∧
  activeAppSessions (session w') = activeAppSessions (session w).
Proof.
  intros Hl. simpl.
  pose proof (handleTpaInit_spec ws msg w) as Hs. simpl in Hs.
  destruct (_ && _).
  - destruct Hs as (_ & _ & Hm).
    rewrite bool_decide_eq_false_2 in Hm by (rewrite Hl; set_solver).
    destruct Hm as [-> ->]. done.
  - destruct Hs as [-> _]. done.
Qed.

(** One round of the loop of [connection_init]. *)
Lemma restartApp_exclusive (p : string) (w : World) :
  Exclusive svc w →
  ∃ w', restartApp svc p w = (Ok (), w') ∧ Exclusive svc w'.
Proof.
  intros Hw. pose proof (startAppSession_exclusive p w Hw) as [[Hl Hone] Hok].
  unfold restartApp. munfold.
  destruct (startAppSession svc p w) as [[id|e] w1]; simpl in *.
  - eexists. split; [done|]. split; [done|]. simpl.
    eapply AtMostOneStandard_subseteq; [|exact Hone].
    specialize (Hok id eq_refl). by apply snoc_subseteq.
  - destruct (userStore_throws svc); simpl; eexists; (split; [done|]); by split.
Qed.

Lemma handleConnectionInit_exclusive (apps : list string) (w : World) :
  Exclusive svc w → Exclusive svc (handleConnectionInit svc apps w).2.
Proof.
  intros Hw. unfold handleConnectionInit.
  assert (Hloop : ∀ l w0, Exclusive svc w0 →
            ∃ w', forEach l (restartApp svc) w0 = (Ok (), w') ∧ Exclusive svc w').
  { induction l as [|x l IH]; intros w0 H0; [by exists w0|].
    destruct (restartApp_exclusive x w0 H0) as (w1 & E1 & H1').
    destruct (IH w1 H1') as (w2 & E2 & H2).
    exists w2. split; [|done]. by rewrite (forEach_cons_ok (restartApp svc) x l w0 w1 E1). }
  assert (Hd : ∃ w1, startDashboard svc w = (Ok (), w1) ∧ Exclusive svc w1).
  { pose proof (startAppSession_exclusive (dashboardPackageName svc) w Hw) as [H1 _].
    unfold startDashboard. munfold.
    destruct (startAppSession svc (dashboardPackageName svc) w) as [[id|e] w1];
      simpl in *; eauto. }
  destruct Hd as (w1 & E1 & Hw1).
  assert (Hmid : ∃ w2, (if userStore_throws svc
                        then emit (EvLog "Error starting user apps")
                        else forEach apps (restartApp svc)) w1 = (Ok (), w2) ∧
                       Exclusive svc w2).
  { destruct (userStore_throws svc); [|by apply Hloop].
    eexists. split; [reflexivity|]. exact Hw1. }
  destruct Hmid as (w2 & E2 & Hw2).
  unfold try_catch.
  rewrite (bind_ok _ _ w w1 () E1), (bind_ok _ _ w1 w2 () E2).
  munfold. simpl.
  destruct (startTranscription_throws svc), (glassesSend_throws svc); simpl; exact Hw2.
Qed.

Lemma step_exclusive (op : Op) (w : World) :
  Exclusive svc w → Exclusive svc (step svc op w).2.
Proof.
  intros Hw. destruct op as [apps|p|p|ws msg|p app]; simpl.
  - by apply handleConnectionInit_exclusive.
  - unfold Exclusive. rewrite handleStartApp_session.
    by apply startAppSession_exclusive.
  - destruct Hw as [Hl Hone].
    destruct (handleStopApp_active p w) as [Ha Hl'].
    split; [congruence|]. rewrite Ha.
    eapply AtMostOneStandard_subseteq; [|exact Hone].
    intros q [? _]%elem_of_without. done.
  - destruct Hw as [Hl Hone].
    destruct (handleTpaInit_idle ws msg w Hl) as [Hl' Ha].
    split; [done|]. by rewrite Ha.
  - destruct Hw as [Hl Hone].
    pose proof (loadingTimeout_spec p app w) as Ht. simpl in Ht.
    rewrite bool_decide_eq_false_2 in Ht by (rewrite Hl; set_solver).
    destruct Ht as (_ & _ & ->). done.
Qed.

Lemma run_exclusive (ops : list Op) (w : World) :
  Exclusive svc w → Exclusive svc (run svc ops w).
Proof.
  revert w. induction ops as [|op ops IH]; intros w Hw; [done|].
  simpl. apply IH. by apply step_exclusive.
Qed.

(** C4 (amended). When the handlers of a session run one at a time and
    the app catalog answers the same for a package every time it is
    asked: from a session in which at most one STANDARD app is active,
    whatever handlers run, the active list never holds two different
    STANDARD apps.  Starting a STANDARD app first stops every other
    STANDARD app of the active list: its subscriptions are removed and,
    unless that call throws, its stop webhook is called, the display
    manager is told to stop it and its open connection is closed; no
    STANDARD app is active when the package enters [loadingApps].
    Nothing is done to the apps that are not STANDARD: their
    connections and subscriptions stay, and on return they are exactly
    those that were active before, in the same order, the package being
    the only STANDARD app that can be active. *)
Theorem standard_exclusivity (ops : list Op) (p : string) (app : AppI) (w : World) :
  Exclusive svc w →
  p ∉ loadingApps (session w) →
  p ∉ activeAppSessions (session w) →
  getApp svc p = Found app →
  tpaType app = STANDARD →
  let r := startAppSession svc p w in
  AtMostOneStandard svc (activeAppSessions (session (run svc ops w))) ∧
  (∃ w1, beginLoading svc p app (activeAppSessions (session w)) w = (Ok (), w1) ∧
         (∀ q, q ∈ activeAppSessions (session w1) → isStandard svc q = false) ∧
         (∀ q appq, q ∈ activeAppSessions (session w) →
                    getApp svc q = Found appq → tpaType appq = STANDARD →
            EvRemoveSubscriptions q ∈ newEvents w w1 ∧
            (removeSubscriptions_throws svc q = false →
               EvStopWebhook (publicUrl appq) (sessionId (session w) +:+ "-" +:+ q)
                 ∈ newEvents w w1 ∧
               EvHandleAppStop q ∈ newEvents w w1 ∧
               (q ∉ mediaSubscribers w1) ∧
               (∀ ws, appConnections (session w) !! q = Some ws → readyState ws = OPEN →
                      EvTpaClose (wsId ws) ∈ newEvents w w1 ∧
                      (tpaClose_throws svc q = false →
                       appConnections (session w1) !! q = None)))) ∧
         (∀ q, isStandard svc q = false →
            appConnections (session w1) !! q = appConnections (session w) !! q ∧
            (q ∈ mediaSubscribers w1 ↔ q ∈ mediaSubscribers w) ∧
            (EvRemoveSubscriptions q ∉ newEvents w w1) ∧
            (EvHandleAppStop q ∉ newEvents w w1))) ∧
  (∀ q, q ∈ activeAppSessions (session r.2) → isStandard svc q = true → q = p) ∧
  filter (fun q => isStandard svc q = false) (activeAppSessions (session r.2)) =
  filter (fun q => isStandard svc q = false) (activeAppSessions (session w)).
Proof.
  intros Hw Hl Ha Hf Hstd. simpl.
  split; [by apply run_exclusive|].
  destruct (beginLoading_spec p app w Ha) as (w1 & Hb & Ha1 & _).
  destruct (beginLoading_events p app w Hstd) as (w1' & evs & Hb' & Ht & Hstop & Hun).
  assert (w1' = w1) as -> by congruence.
  assert (Hnew : newEvents w w1 = evs).
  { unfold newEvents. by rewrite Ht, drop_app_length. }
  pose proof (startAppSession_fresh p app w Hl Ha Hf) as Hs. simpl in Hs.
  destruct Hs as (_ & _ & _ & Hact).
  assert (Hp : isStandard svc p = true).
  { rewrite (isStandard_of_found p app Hf). by apply bool_decide_eq_true_2. }
  assert (Hbase : afterExclusivity svc app (activeAppSessions (session w)) =
                  filter (fun q => isStandard svc q = false) (activeAppSessions (session w))).
  { unfold afterExclusivity. by rewrite decide_True. }
  assert (Hidem : ∀ l : list string,
            filter (fun q => isStandard svc q = false)
                   (filter (fun q => isStandard svc q = false) l) =
            filter (fun q => isStandard svc q = false) l).
  { intros l. rewrite list_filter_filter. apply list_filter_iff. tauto. }
  split; [|split].
  - exists w1. split; [done|]. rewrite Hnew. split_and!.
    + intros q Hq. rewrite Ha1, Hbase in Hq.
      by apply list_elem_of_filter in Hq as [? _].
    + intros q appq Hin Hfq Hk.
      assert (Hne : q ≠ p) by (by intros ->).
      exact (Hstop q appq Hin Hne Hfq Hk).
    + intros q Hq. exact (Hun q Hq).
  - intros q Hq Hsq.
    assert (Hin : q ∈ afterExclusivity svc app (activeAppSessions (session w)) ++ [p]).
    { destruct (launchFails svc app); destruct Hact as [_ Hact];
        rewrite Hact in Hq; set_solver. }
    apply elem_of_app in Hin as [Hin| ->%list_elem_of_singleton]; [|done].
    rewrite Hbase in Hin. apply list_elem_of_filter in Hin as [Hn _]. congruence.
  - destruct (launchFails svc app); destruct Hact as [_ ->]; rewrite Hbase.
    + apply Hidem.
    + rewrite filter_app, Hidem, filter_cons, decide_False by congruence.
      by rewrite filter_nil, app_nil_r.
Qed.

End LifecycleFacts.

(** *** Concrete runs of the lifecycle controller *)

Section LifecycleRuns.

Import Lifecycle.

Lemma startApp_already_running_witness :
  startAppSession demoServices "com.x" runningWorld = (Ok "s1-com.x", runningWorld).
Proof.
  apply (startApp_already_running demoServices "com.x" runningWorld).
  right. simpl. by left.
Defined.

(** C1, as stated, fails: a package started on a fresh session is active on
    return although no TPA has bound a channel for it. *)
Lemma start_active_without_bind :
  ¬ (∀ (svc : Services) (p : string) (w : World),
       p ∉ loadingApps (session w) →
       p ∉ activeAppSessions (session w) →
       let w' := (startAppSession svc p w).2 in
       p ∈ activeAppSessions (session w') →
       is_Some (appConnections (session w') !! p)).
Proof.
  intros H.
  specialize (H demoServices "com.x" (emptyWorld "s1" "u@x")).
  simpl in H.
  assert (Hr : startAppSession demoServices "com.x" (emptyWorld "s1" "u@x") =
               (Ok "s1-com.x",
                mkWorld (mkSession "s1" "u@x" ∅ ["com.x"] ∅ (Some (mkWebSocket 0 OPEN))) ∅
                        [EvSessionWebhook "http://x/webhook" "s1-com.x";
                         EvHandleAppStart "com.x";
                         EvSetTimeout 5000 "com.x";
                         EvAddRunningApp "com.x"])) by (vm_compute; reflexivity).
  rewrite Hr in H. simpl in H.
  destruct H as [ws Hws].
  - apply not_elem_of_empty.
  - apply not_elem_of_nil.
  - by left.
  - by rewrite lookup_empty in Hws.
Qed.

Lemma start_activates_on_webhook_witness :
  "com.x" ∈ activeAppSessions (session (startAppSession demoServices "com.x"
                                           (emptyWorld "s1" "u@x")).2) ∧
  appConnections (session (startAppSession demoServices "com.x"
                             (emptyWorld "s1" "u@x")).2) !! "com.x" = None.
Proof.
  pose proof (start_activates_on_webhook demoServices "com.x"
                (mkApp "com.x" "http://x" BACKGROUND false) (emptyWorld "s1" "u@x")) as H.
  simpl in H.
  destruct H as (_ & _ & Hc & Hact & _).
  - apply not_elem_of_empty.
  - apply not_elem_of_nil.
  - reflexivity.
  - split; [exact Hact|]. rewrite Hc. apply lookup_empty.
Defined.

(** C3, as stated, fails: a non-system package that is neither loading nor
    active is bound all the same when its key validates. *)
Lemma bind_outside_loading_accepted :
  ¬ (∀ (svc : Services) (ws : WebSocket) (msg : TpaConnectionInit) (w : World),
       bindAccepted ws msg w (handleTpaInit svc ws msg w).2 →
       validateApiKey svc (initPackageName msg) (initApiKey msg) = true ∧
       (isSystemAppName svc (initPackageName msg) = true ∨
        initPackageName msg ∈ loadingApps (session w) ∨
        initPackageName msg ∈ activeAppSessions (session w))).
Proof.
  intros H.
  destruct (H demoServices demoSocket demoInit (emptyWorld "s1" "u@x")) as [_ [Hs|[Hl|Ha]]].
  - split; [vm_compute; reflexivity|].
    assert (Hev : newEvents (emptyWorld "s1" "u@x")
                    (handleTpaInit demoServices demoSocket demoInit (emptyWorld "s1" "u@x")).2 =
                  [EvLog "TPA not in loading or active state"; EvTpaAck 7 "s1-com.x"])
      by (vm_compute; reflexivity).
    rewrite Hev. simpl. right. by left.
  - vm_compute in Hs. done.
  - simpl in Hl. by apply not_elem_of_empty in Hl.
  - simpl in Ha. by apply not_elem_of_nil in Ha.
Qed.

Lemma bind_accepted_iff_key_valid_witness :
  bindAccepted demoSocket demoInit loadingWorld
    (handleTpaInit demoServices demoSocket demoInit loadingWorld).2 ∧
  "com.x" ∈ activeAppSessions
    (session (handleTpaInit demoServices demoSocket demoInit loadingWorld).2).
Proof.
  destruct (bind_accepted_iff_key_valid demoServices demoSocket demoInit loadingWorld)
    as (Hacc & _ & Hmove).
  simpl in *.
  assert (Hb : bindAccepted demoSocket demoInit loadingWorld
                 (handleTpaInit demoServices demoSocket demoInit loadingWorld).2).
  { apply Hacc. split; vm_compute; reflexivity. }
  split; [exact Hb|].
  apply Hmove; [|exact Hb]. by apply elem_of_singleton.
Defined.

(** C10, as stated, fails: com.x is started, then stopped while the app
    catalog cannot be reached; [stopAppSession] raises before its [try]
    and the package is still in the active list. *)
Lemma stopApp_unresolved_stays_active :
  ¬ (∀ (svc : Services) (p : string) (w : World),
       p ∉ activeAppSessions (session (stopAppSession svc p w).2)).
Proof.
  intros H. apply (H outageServices "com.x" startedWorld).
  assert (Hr : stopAppSession outageServices "com.x" startedWorld =
               (Throw "getApp rejected", startedWorld)) by reflexivity.
  rewrite Hr.
  assert (Ha : activeAppSessions (session startedWorld) = ["com.x"])
    by (vm_compute; reflexivity).
  cbn [snd]. rewrite Ha. by left.
Qed.

Lemma stopApp_leaves_inactive_witness :
  ("com.x" ∉ activeAppSessions
               (session (stopAppSession demoServices "com.x" runningWorld).2)) ∧
  (∃ e, stopAppSession demoServices "com.gone" orphanWorld = (Throw e, orphanWorld)).
Proof.
  split.
  - destruct (stopApp_leaves_inactive demoServices "com.x" runningWorld) as (H & _ & _).
    apply (H (mkApp "com.x" "http://x" BACKGROUND false)). reflexivity.
  - destruct (stopApp_leaves_inactive demoServices "com.gone" orphanWorld) as (_ & H & _).
    apply H. intros app. vm_compute. discriminate.
Defined.

Lemma emptyWorld_exclusive (svc : Services) (sid uid : string) :
  Exclusive svc (emptyWorld sid uid).
Proof. split; [done|]. intros a b Ha. by apply not_elem_of_nil in Ha. Qed.

Lemma standard_exclusivity_witness :
  EvStopWebhook "http://a" "s1-com.a"
    ∈ newEvents standardWorld
        (beginLoading demoServices "com.b" (mkApp "com.b" "http://b" STANDARD false)
           ["com.x"; "com.a"] standardWorld).2 ∧
  activeAppSessions (session (startAppSession demoServices "com.b" standardWorld).2) =
    ["com.x"; "com.b"].
Proof.
  destruct (standard_exclusivity demoServices [] "com.b"
              (mkApp "com.b" "http://b" STANDARD false) standardWorld)
    as (_ & (w1 & Hb & _ & Hstop & _) & _ & _).
  - split; [done|]. intros a b Ha Hb Hsa Hsb.
    apply elem_of_cons in Ha as [->|Ha]; [done|].
    apply list_elem_of_singleton in Ha as ->.
    apply elem_of_cons in Hb as [->|Hb]; [done|].
    by apply list_elem_of_singleton in Hb as ->.
  - apply not_elem_of_empty.
  - apply (bool_decide_unpack _). vm_compute. exact I.
  - reflexivity.
  - reflexivity.
  - split; [|vm_compute; reflexivity].
    change (activeAppSessions (session standardWorld)) with ["com.x"; "com.a"] in Hb.
    rewrite Hb. simpl.
    destruct (Hstop "com.a" (mkApp "com.a" "http://a" STANDARD false))
      as [_ Hs]; [by right; left|reflexivity|reflexivity|].
    by destruct (Hs eq_refl) as [Hwh _].
Defined.

(** C4, as stated, fails: two STANDARD apps are started on a fresh session,
    the second start being entered while the first awaits its webhook.
    Neither start finds a STANDARD app in the active list, and both apps
    are active when the starts have returned. *)
Lemma overlapping_starts_both_active :
  ¬ (∀ (svc : Services) (a b : string) (w : World),
       Exclusive svc w →
       AtMostOneStandard svc
         (activeAppSessions (session (overlappingStarts svc a b w).2))).
Proof.
  intros H.
  specialize (H demoServices "com.a" "com.b" (emptyWorld "s1" "u@x")
                (emptyWorld_exclusive demoServices "s1" "u@x")).
  assert (Hr : activeAppSessions
                 (session (overlappingStarts demoServices "com.a" "com.b"
                             (emptyWorld "s1" "u@x")).2) = ["com.a"; "com.b"])
    by (vm_compute; reflexivity).
  rewrite Hr in H.
  specialize (H "com.a" "com.b").
  discriminate H; [by left|by right; left|reflexivity|reflexivity].
Qed.

End LifecycleRuns.

(** ** The speech pipeline *)

Section TranscriptionFacts.

Import Transcription.

Variable getLanguageInfo : string → option LanguageInfo.
Variable sdkThrows : AsrCall → bool.

Lemma elem_of_newSet (seen l : list string) (k : string) :
  k ∈ newSet seen l ↔ k ∈ l ∧ k ∉ seen.
Proof.
  revert seen. induction l as [|x l IH]; intros seen; simpl.
  - split; [by intros ?%not_elem_of_nil|by intros [?%not_elem_of_nil _]].
  - case_bool_decide as Hx.
    + rewrite IH, elem_of_cons. split; [tauto|]. intros [[->|?] ?]; tauto.
    + rewrite !elem_of_cons, IH, not_elem_of_cons.
      split; [intros [->|[? [? ?]]]; tauto|].
      intros [[->|?] ?]; [tauto|]. destruct (decide (k = x)); tauto.
Qed.

Lemma NoDup_newSet (seen l : list string) : NoDup (newSet seen l).
Proof.
  revert seen. induction l as [|x l IH]; intros seen; simpl; [constructor|].
  case_bool_decide; [done|]. constructor; [|done].
  rewrite elem_of_newSet, not_elem_of_cons. tauto.
Qed.

Lemma ensureStream_present (k : string) (st : Streams) :
  k ∈ keys st → ensureStream getLanguageInfo k st = (Ok (), st).
Proof.
  intros H. unfold ensureStream, mbind, M_bind, getEntries, mapHas.
  by rewrite bool_decide_eq_true_2.
Qed.

Lemma ensureStream_invalid (k : string) (st : Streams) :
  k ∉ keys st → getLanguageInfo k = None →
  ∃ e, ensureStream getLanguageInfo k st = (Throw e, st).
Proof.
  intros H Hn. unfold ensureStream, mbind, M_bind, getEntries, mapHas,
    createASRStreamForSubscription.
  rewrite bool_decide_eq_false_2 by done. rewrite Hn. unfold throw. eauto.
Qed.

Lemma ensureStream_new (k : string) (info : LanguageInfo) (st : Streams) :
  k ∉ keys st → getLanguageInfo k = Some info →
  ∃ inst, ensureStream getLanguageInfo k st =
            (Ok (), mkStreams (Some (entries st ++ [(k, inst)]))
                              (S (S (nextHandle st)))
                              (asrCalls st ++ [startCall k inst])) ∧
          pushStream inst = nextHandle st ∧
          recognizer inst = S (nextHandle st) ∧
          handlersFor inst = info ∧
          recognizerKind inst =
            (if bool_decide (type info = TRANSLATION) && truthy (translateLanguage info)
             then TRANSLATION else TRANSCRIPTION).
Proof.
  intros H Hi. unfold ensureStream, mbind, M_bind, getEntries, mapHas,
    createASRStreamForSubscription.
  rewrite bool_decide_eq_false_2 by done. rewrite Hi.
  unfold mbind, M_bind, fresh, sdk, setStreams, mret, M_ret, mapSet, mapHas, entries. simpl.
  destruct (bool_decide (type info = TRANSLATION) && truthy (translateLanguage info));
    simpl; rewrite bool_decide_eq_false_2 by done.
  - by exists (mkStream TRANSLATION (S (nextHandle st)) (nextHandle st) info).
  - by exists (mkStream TRANSCRIPTION (S (nextHandle st)) (nextHandle st) info).
Qed.

Lemma keys_snoc (st : Streams) (k : string) (inst : ASRStreamInstance) n cs :
  keys (mkStreams (Some (entries st ++ [(k, inst)])) n cs) = keys st ++ [k].
Proof. unfold keys, entries. simpl. by rewrite fmap_app. Qed.

Lemma grow_ok (ds : list string) (st st1 : Streams) :
  forEach ds (ensureStream getLanguageInfo) st = (Ok (), st1) → Grown getLanguageInfo ds st st1.
Proof.
  revert st. induction ds as [|x ds IH]; intros st.
  - simpl. intros [= <-]. exists [], []. rewrite !app_nil_r. split_and!; try done.
    + intros k. split; [by intros ?%not_elem_of_nil|by intros [?%not_elem_of_nil _]].
    + intros k inst Hin. by apply not_elem_of_nil in Hin.
  - destruct (decide (x ∈ keys st)) as [Hx|Hx].
    + rewrite (forEach_cons_ok _ x ds st st (ensureStream_present x st Hx)).
      intros (added & cs & He & Hc & Hk & Hi & Hn)%IH.
      exists added, cs. split_and!; try done.
      intros k. rewrite Hk, elem_of_cons. split; [tauto|].
      intros [[->|?] ?]; tauto.
    + destruct (getLanguageInfo x) as [info|] eqn:Hinfo.
      2: { destruct (ensureStream_invalid x st Hx Hinfo) as [e He].
           by rewrite (forEach_cons_throw _ x ds st st e He). }
      destruct (ensureStream_new x info st Hx Hinfo) as (inst & He & Hp & Hr & Hh & Hkind).
      rewrite (forEach_cons_ok _ x ds st _ He).
      intros (added & cs & He' & Hc & Hk & Hi & Hn)%IH.
      simpl in *. unfold entries in He' at 2. simpl in He'.
      exists ((x, inst) :: added), (startCall x inst :: cs).
      split_and!.
      * rewrite He'. by rewrite <- app_assoc.
      * rewrite Hc. by rewrite <- app_assoc.
      * intros k. cbn [fmap list_fmap fst]. rewrite !elem_of_cons, Hk, keys_snoc.
        rewrite elem_of_app, list_elem_of_singleton.
        split; [intros [->|[? ?]]; tauto|].
        intros [[->|?] ?]; [tauto|]. destruct (decide (k = x)); tauto.
      * intros k inst0 [[= -> ->]|Hin]%elem_of_cons.
        -- split_and!; [by left|lia|lia|congruence|by rewrite Hh].
        -- destruct (Hi k inst0 Hin) as (? & ? & ? & ? & ?).
           split_and!; [by right|lia|lia|done|done].
      * lia.
Qed.

Lemma grow_total (ds : list string) (st : Streams) :
  (∀ k, k ∈ ds → k ∈ keys st ∨ is_Some (getLanguageInfo k)) →
  ∃ st1, forEach ds (ensureStream getLanguageInfo) st = (Ok (), st1).
Proof.
  revert st. induction ds as [|x ds IH]; intros st Hv; [by exists st|].
  destruct (decide (x ∈ keys st)) as [Hx|Hx].
  - rewrite (forEach_cons_ok _ x ds st st (ensureStream_present x st Hx)).
    apply IH. intros k Hk. apply Hv. by right.
  - destruct (Hv x) as [?|[info Hinfo]]; [by left|done|].
    destruct (ensureStream_new x info st Hx Hinfo) as (inst & He & _).
    rewrite (forEach_cons_ok _ x ds st _ He).
    apply IH. intros k Hk. rewrite keys_snoc.
    destruct (Hv k) as [?|?]; [by right| |by right].
    left. apply elem_of_app. by left.
Qed.

(** A teardown never throws, changes nothing but the list of calls, and
    adds to it the calls that returned. *)
Lemma stopIndividual_spec (inst : ASRStreamInstance) (sub : string) (st : Streams) :
  stopIndividualTranscriptionStream sdkThrows inst sub st =
  (Ok (), mkStreams (transcriptionStreams st) (nextHandle st)
                    (asrCalls st ++ stopCalls sdkThrows (sub, inst))).
Proof.
  unfold stopIndividualTranscriptionStream, stopRecognizer, stopCalls, sdkCall,
    try_catch, mbind, M_bind, mret, M_ret, throw, sdk.
  cbn [fst snd].
  destruct (hasStopMethod sub inst); cbn [andb];
    [destruct (sdkThrows (stopCall sub inst)); cbn [negb];
       [|destruct (sdkThrows (CloseRecognizer (recognizer inst)))]|];
    destruct (sdkThrows (ClosePushStream (pushStream inst)));
    cbn [transcriptionStreams nextHandle asrCalls app];
    rewrite ?app_nil_r, <- ?app_assoc; try done; by destruct st.
Qed.


(** What the second loop leaves when it has visited the entries [l]. *)
Lemma prune_ok (desired : list string) (l : list (string * ASRStreamInstance))
    (st : Streams) :
  ∃ st2 cs,
    forEach l (dropUnlessDesired sdkThrows desired) st = (Ok (), st2) ∧
    entries st2 = filter (fun e => e.1 ∈ desired ∨ e.1 ∉ l.*1) (entries st) ∧
    asrCalls st2 = asrCalls st ++ cs ∧
    nextHandle st2 = nextHandle st ∧
    ∀ e, e ∈ l → e.1 ∉ desired → ∀ c, c ∈ stopCalls sdkThrows e → c ∈ cs.
Proof.
  revert st. induction l as [|e l IH]; intros st.
  - exists st, []. simpl. rewrite app_nil_r. split_and!; try done.
    + symmetry. induction (entries st) as [|y ys IHy]; [done|].
      rewrite filter_cons, decide_True; [by rewrite IHy|].
      right. apply not_elem_of_nil.
    + intros e Hin. by apply not_elem_of_nil in Hin.
  - destruct (decide (e.1 ∈ desired)) as [Hd|Hd].
    + assert (E : dropUnlessDesired sdkThrows desired e st = (Ok (), st)).
      { unfold dropUnlessDesired. by rewrite bool_decide_eq_true_2. }
      rewrite (forEach_cons_ok _ e l st st E).
      destruct (IH st) as (st2 & cs & E2 & He & Hc & Hn & Hs).
      exists st2, cs. split_and!; try done.
      * rewrite He. apply list_filter_iff. intros y.
        cbn [fmap list_fmap]. rewrite not_elem_of_cons.
        split; [|tauto]. intros [?|?]; [tauto|].
        destruct (decide (y.1 = e.1)) as [Heq|?]; [left; by rewrite Heq|tauto].
      * intros e' [->|Hin]%elem_of_cons He'; [done|]. by apply Hs.
    + set (st' := mkStreams (Some (mapDelete e.1 (entries st))) (nextHandle st)
                    (asrCalls st ++ stopCalls sdkThrows e)).
      assert (E : dropUnlessDesired sdkThrows desired e st = (Ok (), st')).
      { unfold dropUnlessDesired. rewrite bool_decide_eq_false_2 by done.
        unfold mbind, M_bind. rewrite stopIndividual_spec.
        unfold setStreams, st', entries. simpl. by destruct e. }
      rewrite (forEach_cons_ok _ e l st st' E).
      destruct (IH st') as (st2 & cs & E2 & He & Hc & Hn & Hs).
      exists st2, (stopCalls sdkThrows e ++ cs).
      split_and!; try done.
      * rewrite He. unfold st', entries at 1. simpl. unfold mapDelete.
        rewrite list_filter_filter. apply list_filter_iff. intros y.
        cbn [fmap list_fmap]. rewrite not_elem_of_cons. split; [tauto|].
        intros [?|[? ?]]; [|tauto]. split; [tauto|]. intros Heq. apply Hd. by rewrite <- Heq.
      * rewrite Hc. unfold st'. simpl. by rewrite <- app_assoc.
      * intros e' [->|Hin]%elem_of_cons He' c Hc'.
        -- apply elem_of_app. by left.
        -- apply elem_of_app. right. by apply (Hs e' Hin He').
Qed.


Lemma update_unfold (L : list string) (st : Streams) :
  updateTranscriptionStreams getLanguageInfo sdkThrows L st =
  match forEach (newSet [] L) (ensureStream getLanguageInfo)
                (mkStreams (Some (entries st)) (nextHandle st) (asrCalls st)) with
  | (Ok _, st1) => forEach (entries st1) (dropUnlessDesired sdkThrows (newSet [] L)) st1
  | (Throw e, st1) => (Throw e, st1)
  end.
Proof.
  unfold updateTranscriptionStreams, mbind, M_bind, setStreams, getEntries. simpl.
  by destruct (forEach _ _ _) as [[[]|e] st1].
Qed.


End TranscriptionFacts.

Section TranscriptFacts.

Import Transcription.



(** *** Transcript history *)

Lemma replace_last (segs : list Segment) (x : Segment) :
  segs ≠ [] → <[(length segs - 1)%nat := x]> segs = removelast segs ++ [x].
Proof.
  induction segs as [|a segs IH]; [done|]. intros _.
  destruct segs as [|b segs]; [done|].
  change (removelast (a :: b :: segs)) with (a :: removelast (b :: segs)).
  simpl length. replace (S (S (length segs)) - 1)%nat with (S (length segs)) by lia.
  simpl. f_equal.
  specialize (IH ltac:(done)). simpl length in IH.
  replace (S (length segs) - 1)%nat with (length segs) in IH by lia. done.
Qed.

(** An insert: a trailing interim segment is dropped (replaced by an
    interim, removed before a final), the new segment goes last, and the
    thirty-minute filter runs over the result. *)
Lemma updateTranscriptHistory_spec
    (segs : list Segment) (ev : RecognitionResult) (final : bool) (now : Z) :
  updateTranscriptHistory segs ev final now =
  retained now ((if endsInterim segs then removelast segs else segs)
                ++ [segmentOf ev now final]).
Proof.
  unfold updateTranscriptHistory, retained, endsInterim.
  destruct final; [done|].
  destruct (last segs) as [seg|] eqn:El; [|done].
  destruct (negb (isFinal seg)); [|done].
  rewrite replace_last; [done|]. by intros ->.
Qed.

Lemma updateTranscriptHistory_recent
    (segs : list Segment) (ev : RecognitionResult) (final : bool) (now : Z) (seg : Segment) :
  seg ∈ updateTranscriptHistory segs ev final now →
  (now - THIRTY_MINUTES_MS ≤ timestamp seg)%Z.
Proof.
  unfold updateTranscriptHistory. by intros [? _]%list_elem_of_filter.
Qed.

Lemma updateTranscriptHistory_last
    (segs : list Segment) (ev : RecognitionResult) (final : bool) (now : Z) :
  last (updateTranscriptHistory segs ev final now) = Some (segmentOf ev now final).
Proof.
  rewrite updateTranscriptHistory_spec. unfold retained.
  rewrite filter_app, filter_cons, decide_True, filter_nil.
  - by rewrite last_snoc.
  - simpl. unfold THIRTY_MINUTES_MS. lia.
Qed.

(** The guard of the transcription callbacks: a base transcription stream
    of another language leaves the transcript alone. *)
Lemma transcription_other_language
    (info : LanguageInfo) (final : bool) (ev : RecognitionResult) (now : Z) (h : History) :
  type info = TRANSCRIPTION → transcribeLanguage info ≠ "en-US" →
  segments (onRecognition info final ev now h) = segments h.
Proof.
  intros Ht Hl. unfold onRecognition. rewrite Ht.
  case_bool_decide; [done|]. simpl. by rewrite bool_decide_eq_false_2.
Qed.

(** The translation callbacks record every event that carries
    translations, whatever the languages of the stream. *)
Lemma translation_always_recorded
    (info : LanguageInfo) (final : bool) (ev : RecognitionResult) (now : Z) (h : History) :
  type info = TRANSLATION → is_Some (evTranslations ev) →
  last (segments (onRecognition info final ev now h)) = Some (segmentOf ev now final).
Proof.
  intros Ht [tr Htr]. unfold onRecognition. rewrite Ht, Htr. simpl.
  apply updateTranscriptHistory_last.
Qed.

(** C7. The translation callbacks have no such guard: an interim result of
    the stream translation:es-ES-to-en-US puts its Spanish source text in
    the transcript of an empty session. *)
Theorem translation_event_reaches_transcript :
  demoLanguageInfo "translation:es-ES-to-en-US" = Some spanishToEnglish ∧
  segments (onRecognition spanishToEnglish false holaInterim 1000 (mkHistory [] [])) =
  [mkSegment "r1" None "hola" 1000 false].
Proof. split; reflexivity. Qed.

End TranscriptFacts.

(** ** The microphone debouncer *)

Section MicDebounceFacts.

Import MicDebounce.

Variable sendThrows : string → Z → bool.
Variable startTranscriptionThrows : string → Z → bool.
Variable sid : string.


Lemma pending_pending t b b0 t' b' m :
  pending sid t' b' b0 (pending sid t b b0 m) = pending sid t' b' b0 m.
Proof. unfold pending. simpl. by rewrite insert_insert_eq. Qed.

(** The callback when nothing it calls throws: the state is sent when it
    differs from the last one sent, the transcription service is called,
    and the record is deleted. *)
Lemma timerExpired_returns (now : Z) (d : Debouncer) (m : Mic) :
  microphoneStateChangeDebouncers m !! sid = Some d →
  sendThrows sid now = false →
  startTranscriptionThrows sid now = false →
  timerExpired sendThrows startTranscriptionThrows now sid m =
    (Ok (),
     mkMic (delete sid (microphoneStateChangeDebouncers m))
           (if bool_decide (lastState d = lastSentState d) then sent m
            else sent m ++ [(sid, lastState d)])
           (transcriptionCalls m ++ [(sid, lastState d)])).
Proof.
  intros Hd Hs Ht. unfold timerExpired. rewrite Hd.
  unfold mbind, M_bind, setDebouncer, wsSend, callTranscription, deleteDebouncer, mret, M_ret.
  simpl. case_bool_decide as Heq; simpl.
  - rewrite Ht, andb_false_r, <- Heq. simpl. by rewrite delete_insert_eq.
  - rewrite Hs. simpl. rewrite Ht, andb_false_r. simpl.
    by rewrite insert_insert_eq, delete_insert_eq.
Qed.

(** The callback when [startTranscription] throws: the message has been
    sent where one was due, but the record stays in the table, with no
    timer pending. *)
Lemma timerExpired_start_throws (now : Z) (d : Debouncer) (m : Mic) :
  microphoneStateChangeDebouncers m !! sid = Some d →
  sendThrows sid now = false →
  lastState d = true →
  startTranscriptionThrows sid now = true →
  timerExpired sendThrows startTranscriptionThrows now sid m =
    (Throw "startTranscription failed",
     mkMic (<[sid := mkDebouncer None true true]> (microphoneStateChangeDebouncers m))
           (if bool_decide (lastState d = lastSentState d) then sent m
            else sent m ++ [(sid, true)])
           (transcriptionCalls m ++ [(sid, true)])).
Proof.
  intros Hd Hs Hl Ht. unfold timerExpired. rewrite Hd.
  unfold mbind, M_bind, setDebouncer, wsSend, callTranscription, deleteDebouncer, mret, M_ret.
  simpl. rewrite Hl. case_bool_decide as Heq; simpl.
  - rewrite <- Heq, Ht. done.
  - rewrite Hs. simpl. rewrite Ht. simpl. by rewrite insert_insert_eq.
Qed.

(** The callback when [ws.send] throws: nothing is sent, the
    transcription service is not called, and the record stays. *)
Lemma timerExpired_send_throws (now : Z) (d : Debouncer) (m : Mic) :
  microphoneStateChangeDebouncers m !! sid = Some d →
  lastState d ≠ lastSentState d →
  sendThrows sid now = true →
  timerExpired sendThrows startTranscriptionThrows now sid m =
    (Throw "send failed",
     mkMic (<[sid := mkDebouncer None (lastState d) (lastSentState d)]>
              (microphoneStateChangeDebouncers m))
           (sent m) (transcriptionCalls m)).
Proof.
  intros Hd Hne Hs. unfold timerExpired. rewrite Hd.
  unfold mbind, M_bind, setDebouncer, wsSend, callTranscription, deleteDebouncer, mret, M_ret.
  simpl. rewrite bool_decide_eq_false_2 by done. simpl. by rewrite Hs.
Qed.

(** A request that arrives while the timer is pending only records the
    desired state and moves the timer. *)
Lemma request_in_window (t t2 : Z) (b b2 b0 : bool) (m : Mic) :
  (t2 < t + DEFAULT_DELAY)%Z →
  sendDebouncedMicrophoneStateChange sendThrows t2 sid b2 DEFAULT_DELAY
    (advance sendThrows startTranscriptionThrows t2 sid (pending sid t b b0 m)) =
    (Ok (), pending sid t2 b2 b0 m).
Proof.
  intros Ht. unfold advance, pending. simpl. rewrite lookup_insert_eq. simpl.
  rewrite bool_decide_eq_false_2 by lia.
  unfold sendDebouncedMicrophoneStateChange, setDebouncer. simpl.
  rewrite lookup_insert_eq. simpl.
  by rewrite insert_insert_eq.
Qed.

Lemma serve_burst (rest : list (Z * bool)) (t : Z) (b b0 : bool) (m : Mic) :
  withinWindow ((t, b) :: rest) →
  serve sendThrows startTranscriptionThrows sid rest (pending sid t b b0 m) =
  pending sid (default (t, b) (last rest)).1 (default (t, b) (last rest)).2 b0 m.
Proof.
  revert t b. induction rest as [|[t2 b2] rest IH]; intros t b Hw; [done|].
  simpl in Hw. destruct Hw as [[_ Ht] Hw].
  unfold serve. simpl. rewrite request_in_window by done. simpl.
  fold (serve sendThrows startTranscriptionThrows sid rest (pending sid t2 b2 b0 m)).
  rewrite (IH t2 b2 Hw).
  destruct rest as [|r rest]; [done|].
  rewrite last_cons_cons.
  destruct (last (r :: rest)) eqn:E; [done|]. by apply last_None in E.
Qed.

Lemma first_request (t : Z) (b : bool) (m : Mic) :
  microphoneStateChangeDebouncers m !! sid = None →
  sendThrows sid t = false →
  sendDebouncedMicrophoneStateChange sendThrows t sid b DEFAULT_DELAY
    (advance sendThrows startTranscriptionThrows t sid m) =
  (Ok (), pending sid t b b (mkMic (microphoneStateChangeDebouncers m) (sent m ++ [(sid, b)])
                              (transcriptionCalls m))).
Proof.
  intros Hn Hs. unfold advance, sendDebouncedMicrophoneStateChange. rewrite !Hn.
  unfold mbind, M_bind, wsSend, setDebouncer. by rewrite Hs.
Qed.

Lemma settleTime_last (t : Z) (b : bool) (rest : list (Z * bool)) :
  settleTime ((t, b) :: rest) = ((default (t, b) (last rest)).1 + DEFAULT_DELAY)%Z.
Proof.
  unfold settleTime. destruct rest as [|r rest]; [done|].
  rewrite last_cons_cons.
  destruct (last (r :: rest)) eqn:E; [done|]. by apply last_None in E.
Qed.

(** A burst of requests, each arriving before the timer armed by the
    one before it is due, on a session with no debouncer record, when
    neither the first send nor the calls of the timer callback throw: the
    first request is sent at once; when the timer of the last request
    expires, the final desired state is sent as a second message exactly
    when it differs from the first, [startTranscription] or
    [stopTranscription] is called to match the last state sent, and the
    debouncer record is gone. *)
Theorem debounced_burst (t : Z) (b : bool) (rest : list (Z * bool)) (m : Mic) :
  microphoneStateChangeDebouncers m !! sid = None →
  withinWindow ((t, b) :: rest) →
  sendThrows sid t = false →
  sendThrows sid (settleTime ((t, b) :: rest)) = false →
  startTranscriptionThrows sid (settleTime ((t, b) :: rest)) = false →
  let final := (default (t, b) (last rest)).2 in
  let m' := advance sendThrows startTranscriptionThrows (settleTime ((t, b) :: rest)) sid
              (serve sendThrows startTranscriptionThrows sid ((t, b) :: rest) m) in
  sent m' = sent m ++ (if bool_decide (final = b)
                       then [(sid, b)] else [(sid, b); (sid, final)]) ∧
  transcriptionCalls m' = transcriptionCalls m ++ [(sid, final)] ∧
  microphoneStateChangeDebouncers m' !! sid = None ∧
  sent (serve sendThrows startTranscriptionThrows sid ((t, b) :: rest) m) = sent m ++ [(sid, b)] ∧
  transcriptionCalls (serve sendThrows startTranscriptionThrows sid ((t, b) :: rest) m) =
    transcriptionCalls m.
Proof.
  intros Hn Hw Hs1 Hs2 Ht2. cbv zeta.
  assert (Hs : serve sendThrows startTranscriptionThrows sid ((t, b) :: rest) m =
               pending sid (default (t, b) (last rest)).1 (default (t, b) (last rest)).2 b
                 (mkMic (microphoneStateChangeDebouncers m) (sent m ++ [(sid, b)])
                        (transcriptionCalls m))).
  { unfold serve. simpl. rewrite first_request by done.
    apply (serve_burst rest t b b _ Hw). }
  rewrite Hs. rewrite settleTime_last in *.
  unfold advance. unfold pending at 1. simpl. rewrite lookup_insert_eq. simpl.
  rewrite bool_decide_eq_true_2 by lia.
  erewrite timerExpired_returns;
    [|unfold pending; simpl; apply lookup_insert_eq|done|done].
  simpl. rewrite lookup_delete_eq.
  destruct (default (t, b) (last rest)) as [tl bl]. simpl.
  destruct (bool_decide (bl = b)) eqn:E; simpl.
  - apply bool_decide_eq_true_1 in E as ->. done.
  - by rewrite <- app_assoc.
Qed.

(** C6. The timer callback of a session whose transcription cannot be
    started: one request for the microphone at time [t], on a table
    with no record for the session.  The request is sent at once and
    [startTranscription] is called when the timer expires, but the call
    throws and the statement that deletes the record is never reached:
    the record is still in the table at every later time, and a request
    made after the delay has long passed is treated as part of a burst,
    so it is not sent at once. *)
Theorem failed_callback_keeps_debouncer (t T t2 : Z) (b2 : bool) (m : Mic) :
  microphoneStateChangeDebouncers m !! sid = None →
  sendThrows sid t = false →
  sendThrows sid (t + DEFAULT_DELAY) = false →
  startTranscriptionThrows sid (t + DEFAULT_DELAY) = true →
  (t + DEFAULT_DELAY ≤ T)%Z →
  (T ≤ t2)%Z →
  let m1 := advance sendThrows startTranscriptionThrows T sid
              (serve sendThrows startTranscriptionThrows sid [(t, true)] m) in
  let m2 := serve sendThrows startTranscriptionThrows sid [(t2, b2)] m1 in
  sent m1 = sent m ++ [(sid, true)] ∧
  transcriptionCalls m1 = transcriptionCalls m ++ [(sid, true)] ∧
  microphoneStateChangeDebouncers m1 !! sid = Some (mkDebouncer None true true) ∧
  sent m2 = sent m1 ∧
  microphoneStateChangeDebouncers m2 !! sid =
    Some (mkDebouncer (Some (t2 + DEFAULT_DELAY)%Z) b2 true).
Proof.
  intros Hn Hs1 Hs2 Ht HT Ht2. cbv zeta.
  assert (H1 : advance sendThrows startTranscriptionThrows T sid
                 (serve sendThrows startTranscriptionThrows sid [(t, true)] m) =
               mkMic (<[sid := mkDebouncer None true true]> (microphoneStateChangeDebouncers m))
                     (sent m ++ [(sid, true)]) (transcriptionCalls m ++ [(sid, true)])).
  { unfold serve. simpl. rewrite first_request by done. simpl.
    unfold advance. unfold pending at 1. simpl. rewrite lookup_insert_eq. simpl.
    rewrite bool_decide_eq_true_2 by lia.
    erewrite timerExpired_start_throws;
      [|unfold pending; simpl; apply lookup_insert_eq|done|done|done].
    simpl. by rewrite insert_insert_eq. }
  rewrite H1. simpl. rewrite lookup_insert_eq. split_and!; try done.
  - unfold serve, advance. simpl. rewrite lookup_insert_eq. simpl.
    unfold sendDebouncedMicrophoneStateChange. simpl. by rewrite lookup_insert_eq.
  - unfold serve, advance. simpl. rewrite lookup_insert_eq. simpl.
    unfold sendDebouncedMicrophoneStateChange. simpl. rewrite lookup_insert_eq. simpl.
    by rewrite lookup_insert_eq.
Qed.

End MicDebounceFacts.

Section MicDebounceRuns.

Import MicDebounce.

Lemma debounced_burst_witness :
  sent (advance neverThrows neverThrows 1900 "s1"
          (serve neverThrows neverThrows "s1" [(0, true); (400, false); (900, true)]%Z idle))
    = [("s1", true)] ∧
  sent (advance neverThrows neverThrows 1400 "s1"
          (serve neverThrows neverThrows "s1" [(0, true); (400, false)]%Z idle))
    = [("s1", true); ("s1", false)].
Proof.
  split.
  - destruct (debounced_burst neverThrows neverThrows "s1" 0 true
                [(400, false); (900, true)]%Z idle)
      as (H & _); [done| |done..|exact H].
    simpl. unfold DEFAULT_DELAY. lia.
  - destruct (debounced_burst neverThrows neverThrows "s1" 0 true [(400, false)]%Z idle)
      as (H & _); [done| |done..|exact H].
    simpl. unfold DEFAULT_DELAY. lia.
Defined.

(** The microphone is requested at time 0 for a session whose
    transcription cannot be started, and released five seconds later:
    the release is not sent when it is requested. *)
Lemma failed_callback_keeps_debouncer_witness :
  microphoneStateChangeDebouncers
    (advance neverThrows alwaysThrows 1000 "s1"
       (serve neverThrows alwaysThrows "s1" [(0, true)]%Z idle)) !! "s1" =
    Some (mkDebouncer None true true) ∧
  sent (serve neverThrows alwaysThrows "s1" [(5000, false)]%Z
          (advance neverThrows alwaysThrows 1000 "s1"
             (serve neverThrows alwaysThrows "s1" [(0, true)]%Z idle))) = [("s1", true)].
Proof.
  destruct (failed_callback_keeps_debouncer neverThrows alwaysThrows "s1"
              0 1000 5000 false idle)
    as (Hs & _ & Hd & Hs2 & _); [done..|unfold DEFAULT_DELAY; lia|lia|].
  split; [exact Hd|]. rewrite Hs2. exact Hs.
Defined.

End MicDebounceRuns.

(** ** The glasses channel *)

Section GlassesChannelFacts.

Import GlassesChannel.

Lemma endedAt_doCall (c : Call) (k : Conn) :
  endedAt (doCall c k) = endedAt k ++ (if decide (c = EndSession) then [now k] else []).
Proof.
  unfold endedAt, doCall. simpl. rewrite filter_app, fmap_app. f_equal.
  rewrite filter_cons. simpl. destruct (decide (c = EndSession)); done.
Qed.

Lemma onClose_spec (k : Conn) :
  endedAt (onClose k) = endedAt k ∧
  graceTimers (onClose k) = graceTimers k ++ [(now k + RECONNECT_GRACE_PERIOD_MS)%Z] ∧
  socket (onClose k) = socket k ∧
  now (onClose k) = now k ∧
  (now k, MarkSessionDisconnected) ∈ calls (onClose k).
Proof.
  unfold onClose. split_and!; try done.
  - rewrite endedAt_doCall. simpl. rewrite app_nil_r.
    unfold endedAt. simpl. rewrite filter_app, fmap_app. simpl.
    by rewrite app_nil_r.
  - simpl. rewrite !elem_of_app. left. right. by left.
Qed.


Lemma onGraceExpired_spec (k : Conn) :
  endedAt (onGraceExpired k) =
  endedAt k ++ (if closedOrClosing (socket k) then [now k] else []) ∧
  socket (onGraceExpired k) = socket k ∧
  graceTimers (onGraceExpired k) = graceTimers k.
Proof.
  unfold onGraceExpired, closedOrClosing.
  destruct (_ || _).
  - rewrite endedAt_doCall. by rewrite decide_True.
  - by rewrite app_nil_r.
Qed.

(** The grace callbacks never change the socket; with the socket closed or
    closing each callback that is due calls [endSession] at its due time,
    otherwise none does. *)
Lemma fireDue_spec (t : Z) (due : list Z) (k : Conn) :
  socket (fireDue t due k) = socket k ∧
  endedAt (fireDue t due k) =
    endedAt k ++
    (if closedOrClosing (socket k) then filter (λ d, (d ≤ t)%Z) due else []).
Proof.
  revert k. induction due as [|d rest IH]; intros k.
  - cbn [fireDue]. rewrite filter_nil. split; [done|].
    destruct (closedOrClosing _); by rewrite app_nil_r.
  - cbn [fireDue]. rewrite filter_cons. case_bool_decide as Hd.
    + rewrite decide_True by done.
      set (k1 := mkConn d (socket k) (graceTimers k) (calls k)).
      destruct (IH (onGraceExpired k1)) as [Hs He].
      destruct (onGraceExpired_spec k1) as (He' & Hs' & _).
      rewrite Hs, He, Hs', He'. split; [done|].
      change (socket k1) with (socket k). change (endedAt k1) with (endedAt k).
      change (now k1) with d.
      destruct (closedOrClosing (socket k)); by rewrite <- app_assoc.
    + rewrite decide_False by done. apply IH.
Qed.

Lemma advanceTo_spec (t : Z) (k : Conn) :
  now (advanceTo t k) = t ∧
  socket (advanceTo t k) = socket k ∧
  graceTimers (advanceTo t k) = filter (λ d, (t < d)%Z) (graceTimers k) ∧
  endedAt (advanceTo t k) =
    endedAt k ++
    (if closedOrClosing (socket k)
     then filter (λ d, (d ≤ t)%Z) (graceTimers k) else []).
Proof.
  destruct (fireDue_spec t (graceTimers k) k) as [Hs He].
  unfold advanceTo. split_and!; [done|exact Hs|done|exact He].
Qed.


End GlassesChannelFacts.

Section GlassesChannelRuns.

Import GlassesChannel.



End GlassesChannelRuns.

(** ** The VAD gate *)

Section VadGateFacts.

Import VadGate.

Lemma runGate_app (a1 a2 : list Action) (g : Gate) :
  runGate (a1 ++ a2) g =
  let '(g1, out1) := runGate a1 g in
  let '(g2, out2) := runGate a2 g1 in
  (g2, out1 ++ out2).
Proof.
  revert g. induction a1 as [|a a1 IH]; intros g; simpl.
  - by destruct (runGate a2 g).
  - destruct (act a g) as [g1 o1]. rewrite IH.
    destruct (runGate a1 g1) as [g2 o2]. destruct (runGate a2 g2) as [g3 o3].
    by rewrite app_assoc.
Qed.

Lemma runGate_cons (a : Action) (rest : list Action) (g : Gate) :
  runGate (a :: rest) g =
  ((runGate rest (act a g).1).1, (act a g).2 ++ (runGate rest (act a g).1).2).
Proof.
  cbn [runGate]. destruct (act a g) as [g1 o1]. cbn [fst snd].
  by destruct (runGate rest g1).
Qed.

Lemma runGate_app' (a1 a2 : list Action) (g : Gate) :
  runGate (a1 ++ a2) g =
  ((runGate a2 (runGate a1 g).1).1, (runGate a1 g).2 ++ (runGate a2 (runGate a1 g).1).2).
Proof.
  rewrite runGate_app. destruct (runGate a1 g) as [g1 o1]. simpl.
  by destruct (runGate a2 g1).
Qed.

(** No action changes how the gate is configured. *)
Lemma act_config (a : Action) (h : Gate) :
  vadInitialized (act a h).1 = vadInitialized h ∧
  sendPcmToBackend (act a h).1 = sendPcmToBackend h ∧
  bypassVadForDebugging (act a h).1 = bypassVadForDebugging h.
Proof.
  destruct a as [x|x|x]; simpl.
  - unfold ingestAudioChunk, bufferAndMaybeSend.
    destruct (vadInitialized h) eqn:?, (sendPcmToBackend h) eqn:?; simpl;
      repeat split; congruence.
  - unfold ingestLC3AudioChunk, bufferAndMaybeSend.
    destruct (sendPcmToBackend h) eqn:?; simpl; repeat split; congruence.
  - unfold listenerStep. destruct (pc h) as [| |[|? ?]|]; simpl; try done.
    case_bool_decide; [done|]. by destruct x.
Qed.

Lemma runGate_config (actions : list Action) (h : Gate) :
  vadInitialized (runGate actions h).1 = vadInitialized h ∧
  sendPcmToBackend (runGate actions h).1 = sendPcmToBackend h ∧
  bypassVadForDebugging (runGate actions h).1 = bypassVadForDebugging h.
Proof.
  revert h. induction actions as [|a actions IH]; intros h; [done|].
  rewrite runGate_cons. cbn [fst].
  destruct (IH (act a h).1) as (-> & -> & ->). apply act_config.
Qed.

Lemma runThreads_cons (m : Move) (rest : list Move) (t : Threads) :
  runThreads (m :: rest) t =
  ((runThreads rest (move m t).1).1, (move m t).2 ++ (runThreads rest (move m t).1).2).
Proof.
  cbn [runThreads]. destruct (move m t) as [t1 o1]. cbn [fst snd].
  by destruct (runThreads rest t1).
Qed.

Lemma runThreads_app (m1 m2 : list Move) (t : Threads) :
  runThreads (m1 ++ m2) t =
  ((runThreads m2 (runThreads m1 t).1).1,
   (runThreads m1 t).2 ++ (runThreads m2 (runThreads m1 t).1).2).
Proof.
  revert t. induction m1 as [|m m1 IH]; intros t.
  - simpl. by destruct (runThreads m2 t).
  - rewrite <- app_comm_cons, !runThreads_cons, IH. cbn [fst snd]. by rewrite app_assoc.
Qed.

(** No move changes how the gate is configured. *)
Lemma move_config (m : Move) (t : Threads) :
  vadInitialized (gate (move m t).1) = vadInitialized (gate t) ∧
  sendPcmToBackend (gate (move m t).1) = sendPcmToBackend (gate t) ∧
  bypassVadForDebugging (gate (move m t).1) = bypassVadForDebugging (gate t).
Proof.
  destruct m as [p c| | |v]; simpl.
  - unfold begin, pathEnabled.
    by destruct p, (vadInitialized (gate t)) eqn:?, (sendPcmToBackend (gate t)) eqn:?.
  - by destruct (waiting t).
  - by destruct (decided t).
  - unfold listenerStep. destruct (pc (gate t)) as [| |[|? ?]|]; simpl; try done.
    case_bool_decide; [done|]. by destruct v.
Qed.

Lemma runThreads_config (moves : list Move) (t : Threads) :
  vadInitialized (gate (runThreads moves t).1) = vadInitialized (gate t) ∧
  sendPcmToBackend (gate (runThreads moves t).1) = sendPcmToBackend (gate t) ∧
  bypassVadForDebugging (gate (runThreads moves t).1) = bypassVadForDebugging (gate t).
Proof.
  revert t. induction moves as [|m moves IH]; intros t; [done|].
  rewrite runThreads_cons. cbn [fst].
  destruct (IH (move m t).1) as (-> & -> & ->). apply move_config.
Qed.

(** What the first part of a call leaves for the rest of it. *)
Lemma begin_spec (p : Path) (c : chunk) (t : Threads) :
  waiting (begin p c t) = waiting t ++ (if pathEnabled (gate t) p then [c] else []) ∧
  decided (begin p c t) = decided t ∧
  isSpeaking (gate (begin p c t)) = isSpeaking (gate t) ∧
  bypassVadForDebugging (gate (begin p c t)) = bypassVadForDebugging (gate t).
Proof.
  unfold begin, pathEnabled.
  destruct p, (vadInitialized (gate t)) eqn:?, (sendPcmToBackend (gate t)) eqn:?; simpl;
    by rewrite ?app_nil_r.
Qed.

(** A call that no move of the listener interrupts is the call of the
    schedules of whole calls. *)
Lemma uninterrupted_call (a : Action) (g : Gate) :
  runThreads (movesOf a) (atRest g) = (atRest (act a g).1, (act a g).2).
Proof.
  destruct a as [c|c|v]; simpl.
  - unfold begin, ingestAudioChunk, bufferAndMaybeSend, gateOpen, atRest. simpl.
    destruct (vadInitialized g) eqn:Ev, (sendPcmToBackend g) eqn:Ep; simpl; try done.
    by destruct (bypassVadForDebugging g || isSpeaking g).
  - unfold begin, ingestLC3AudioChunk, bufferAndMaybeSend, gateOpen, atRest. simpl.
    destruct (sendPcmToBackend g) eqn:Ep; simpl; try done.
    by destruct (bypassVadForDebugging g || isSpeaking g).
  - unfold atRest. simpl. destruct (listenerStep v g) as [g1 o1]. simpl.
    by rewrite app_nil_r.
Qed.

(** The schedules of whole calls are the schedules of moves in which
    every call runs uninterrupted. *)
Lemma runGate_as_moves (actions : list Action) (g : Gate) :
  runThreads (flat_map movesOf actions) (atRest g) =
  (atRest (runGate actions g).1, (runGate actions g).2).
Proof.
  revert g. induction actions as [|a actions IH]; intros g; [done|].
  cbn [flat_map]. rewrite runThreads_app, uninterrupted_call. cbn [fst snd].
  rewrite IH, runGate_cons. done.
Qed.

Lemma addRolling_window (c : chunk) (buf rest : list chunk) :
  (length buf ≤ LC3_BUFFER_MAX_SIZE)%nat →
  (length (addRolling c buf) ≤ LC3_BUFFER_MAX_SIZE)%nat ∧
  drop (length (addRolling c buf ++ rest) - LC3_BUFFER_MAX_SIZE) (addRolling c buf ++ rest) =
  drop (length (buf ++ c :: rest) - LC3_BUFFER_MAX_SIZE) (buf ++ c :: rest).
Proof.
  unfold addRolling, LC3_BUFFER_MAX_SIZE. intros Hb. cbv zeta.
  rewrite length_app. simpl.
  destruct (decide (length buf = 22)) as [Hfull|Hroom].
  - rewrite Hfull. simpl. destruct buf as [|b0 buf]; [done|]. simpl in *.
    rewrite drop_0. split; [rewrite length_app; simpl; lia|].
    rewrite <- !app_assoc. simpl. rewrite !length_app. simpl.
    replace (length buf + S (length rest) - 21)%nat
      with (S (length buf + S (length rest) - 22)) by lia.
    done.
  - replace (length buf + 1 - 22)%nat with 0%nat by lia. rewrite drop_0.
    split; [rewrite length_app; simpl; lia|].
    by rewrite <- !app_assoc.
Qed.

Lemma newest_newest (a b : list chunk) : newest (newest a ++ b) = newest (a ++ b).
Proof.
  unfold newest, LC3_BUFFER_MAX_SIZE.
  destruct (decide (length a ≤ 22)%nat) as [Hle|Hgt].
  - replace (length a - 22)%nat with 0%nat by lia. by rewrite drop_0.
  - rewrite <- (drop_app_le a b (length a - 22)) by lia.
    rewrite drop_drop. f_equal. rewrite length_drop, !length_app. lia.
Qed.

Lemma buffered_config (g g' : Gate) (moves : list Move) :
  vadInitialized g' = vadInitialized g →
  sendPcmToBackend g' = sendPcmToBackend g →
  buffered g' moves = buffered g moves.
Proof.
  intros Hv Hp. unfold buffered. induction moves as [|m moves IH]; [done|].
  cbn [omap list_omap]. rewrite IH. destruct m as [p c| | |v]; try done.
  unfold pathEnabled. by rewrite Hv, Hp.
Qed.

(** A move of an ingest call while the gate is silent, bypass unset, and
    no call has a send ahead of it: nothing is sent, no call comes to
    have a send ahead of it, and of the gate only the VAD queue and the
    rolling buffer change, the buffer by the chunk of a call that begins
    on the path that is switched on. *)
Lemma ingest_move_silent (m : Move) (t : Threads) :
  isListen m = false →
  bypassVadForDebugging (gate t) = false → isSpeaking (gate t) = false →
  decided t = [] →
  (move m t).2 = [] ∧ sameListener (gate t) (gate (move m t).1) ∧
  decided (move m t).1 = [] ∧
  lc3RollingBuffer (gate (move m t).1) =
    match buffered (gate t) [m] with
    | c :: _ => addRolling c (lc3RollingBuffer (gate t))
    | [] => lc3RollingBuffer (gate t)
    end.
Proof.
  intros Ha Hb Hs Hd. unfold sameListener. destruct m as [p c| | |v]; [| | |done]; simpl.
  - unfold begin, buffered, pathEnabled. simpl.
    destruct p, (vadInitialized (gate t)) eqn:?, (sendPcmToBackend (gate t)) eqn:?; simpl;
      repeat split; congruence.
  - destruct (waiting t) as [|c rest]; simpl; [by repeat split|].
    unfold gateOpen. rewrite Hb, Hs. simpl. by repeat split.
  - rewrite Hd. simpl. by repeat split.
Qed.

Lemma ingest_moves_silent (moves : list Move) (t : Threads) :
  ingestMoves moves →
  bypassVadForDebugging (gate t) = false → isSpeaking (gate t) = false →
  decided t = [] →
  (length (lc3RollingBuffer (gate t)) ≤ LC3_BUFFER_MAX_SIZE)%nat →
  (runThreads moves t).2 = [] ∧ sameListener (gate t) (gate (runThreads moves t).1) ∧
  decided (runThreads moves t).1 = [] ∧
  lc3RollingBuffer (gate (runThreads moves t).1) =
    newest (lc3RollingBuffer (gate t) ++ buffered (gate t) moves) ∧
  (length (lc3RollingBuffer (gate (runThreads moves t).1)) ≤ LC3_BUFFER_MAX_SIZE)%nat.
Proof.
  intros Hall. revert t. induction Hall as [|m moves Ha _ IH]; intros t Hb Hs Hd Hlen.
  - simpl. split_and!; try done.
    unfold newest. rewrite app_nil_r.
    replace (length (lc3RollingBuffer (gate t)) - LC3_BUFFER_MAX_SIZE)%nat with 0%nat by lia.
    done.
  - rewrite runThreads_cons. cbn [fst snd].
    destruct (ingest_move_silent m t Ha Hb Hs Hd) as (Ho & Hl & Hd1 & Hbuf).
    destruct Hl as (Hv & Hb1 & Hp & Hs1 & Hpr & Hpc).
    assert (Hlen1 : (length (lc3RollingBuffer (gate (move m t).1)) ≤ LC3_BUFFER_MAX_SIZE)%nat).
    { rewrite Hbuf. destruct (buffered (gate t) [m]) as [|c ?]; [done|].
      by apply (addRolling_window c _ []). }
    destruct (IH (move m t).1) as (Ho2 & Hl2 & Hd2 & Hbuf2 & Hlen2); [congruence..|done|done|].
    rewrite Ho, Ho2. split; [done|].
    destruct Hl2 as (? & ? & ? & ? & ? & ?).
    split; [unfold sameListener; repeat split; congruence|].
    split; [done|]. split; [|done].
    rewrite Hbuf2, (buffered_config (gate t)) by done. rewrite Hbuf.
    change (buffered (gate t) (m :: moves))
      with (omap (λ m0, match m0 with
                        | Begin p c => if pathEnabled (gate t) p then Some c else None
                        | _ => None
                        end) (m :: moves)).
    cbn [omap list_omap]. unfold buffered. cbn [omap list_omap].
    destruct (match m with
              | Begin p c => if pathEnabled (gate t) p then Some c else None
              | _ => None
              end) as [c|]; [|done].
    unfold newest. by apply addRolling_window.
Qed.

(** The flush, whatever the ingest calls do in between: the chunks of
    the snapshot go out in order, and the flag is raised by the listener
    move that follows the last of them. *)
Lemma flush_interleaved (moves : list Move) (rest : list chunk) (t : Threads) :
  bypassVadForDebugging (gate t) = false → isSpeaking (gate t) = false →
  decided t = [] →
  pc (gate t) = Flushing rest →
  listens moves = S (length rest) →
  (∃ pre post, moves = pre ++ post ∧ ingestMoves post ∧
     (runThreads pre t).2 = AudioChunk <$> rest ∧
     isSpeaking (gate (runThreads pre t).1) = true ∧
     previousVadState (gate (runThreads pre t).1) = true ∧
     pc (gate (runThreads pre t).1) = Polling ∧
     bypassVadForDebugging (gate (runThreads pre t).1) = false ∧
     decided (runThreads pre t).1 = []).
Proof.
  revert rest t. induction moves as [|m moves IH]; intros rest t Hb Hs Hd Hpc Hn.
  - done.
  - destruct (isListen m) eqn:Ha.
    + destruct m as [p c| | |v]; [done..|].
      unfold listens in Hn. rewrite filter_cons, decide_True in Hn by done.
      simpl in Hn. injection Hn as Hn.
      destruct rest as [|c rest].
      * exists [Listen v], moves. simpl. unfold listenerStep. rewrite Hpc. simpl.
        split_and!; try done.
        apply Forall_forall. intros x Hx.
        destruct (isListen x) eqn:Ex; [|done].
        assert (Hin : x ∈ filter (fun m => isListen m = true) moves)
          by (by apply list_elem_of_filter).
        destruct (filter _ moves); [by apply not_elem_of_nil in Hin|done].
      * set (t1 := mkThreads
                     (setListener (isSpeaking (gate t)) (previousVadState (gate t))
                        (Flushing rest) (gate t))
                     (waiting t) (decided t)).
        destruct (IH rest t1) as (pre & post & -> & Hi & Ho & H1 & H2 & H3 & H4 & H5);
          [done..|].
        exists (Listen v :: pre), post.
        split; [done|]. split; [done|].
        rewrite runThreads_cons. simpl. unfold listenerStep. rewrite Hpc. simpl. fold t1.
        rewrite Ho. done.
    + destruct (ingest_move_silent m t Ha Hb Hs Hd) as
        (Ho & (Hv & Hb1 & Hp & Hs1 & Hpr & Hpc1) & Hd1 & _).
      unfold listens in Hn. rewrite filter_cons, decide_False in Hn by congruence.
      destruct (IH rest (move m t).1) as (pre & post & -> & Hi & Ho2 & H1 & H2 & H3 & H4 & H5);
        [congruence..|done|].
      exists (m :: pre), post. split; [done|]. split; [done|].
      rewrite runThreads_cons. cbn [fst snd]. rewrite Ho, Ho2. done.
Qed.

(** While the gate is open, every waiting call that reads the flag comes
    to have a send ahead of it. *)
Lemma reads_while_open (g : Gate) (w d : list chunk) :
  gateOpen g = true →
  runThreads (replicate (length w) ReadFlag) (mkThreads g w d) = (mkThreads g [] (d ++ w), []).
Proof.
  intros Hopen. revert d. induction w as [|c w IH]; intros d.
  - simpl. by rewrite app_nil_r.
  - cbn [length replicate]. rewrite runThreads_cons. simpl. rewrite Hopen.
    rewrite IH. simpl. by rewrite <- app_assoc.
Qed.

Lemma sends_in_order (g : Gate) (w d : list chunk) :
  runThreads (replicate (length d) SendLive) (mkThreads g w d) =
    (mkThreads g w [], AudioChunk <$> d).
Proof.
  induction d as [|c d IH]; [done|].
  cbn [length replicate]. rewrite runThreads_cons. simpl. by rewrite IH.
Qed.

(** C9 (amended). A silent gate with the bypass flag unset, its listener polling,
    and ingest calls under way of which none has a send ahead of it.
    The moves of ingest calls made while the gate is silent send nothing
    and add the chunks of the calls that begin to the rolling buffer,
    which holds the newest 22.  When the listener then sees speech,
    whatever the ingest calls do between its moves, the messages that
    reach the server up to the raising of [isSpeaking] are [vad:true]
    followed by exactly the newest 22 of the chunks buffered before
    [sendBufferedAudio] copied the buffer, in order.  From then on a
    call that reads the flag forwards its chunk: the calls that were
    waiting and a call that begins on the path that is switched on send
    their chunks, in order.  When the listener sees silence it sends
    [vad:false] and lowers the flag, which leaves the gate silent and
    polling again. *)
Theorem vad_gate (g : Gate) (w : list chunk) (quiet mid moves : list Move)
    (v v' : bool) (p : Path) (c : chunk) :
  bypassVadForDebugging g = false →
  isSpeaking g = false →
  previousVadState g = false →
  pc g = Polling →
  (length (lc3RollingBuffer g) ≤ LC3_BUFFER_MAX_SIZE)%nat →
  ingestMoves quiet →
  ingestMoves mid →
  let t := mkThreads g w [] in
  let snapshot := newest (lc3RollingBuffer g ++ buffered g (quiet ++ mid)) in
  listens moves = S (length snapshot) →
  ∃ pre post,
    moves = pre ++ post ∧ ingestMoves post ∧
    let r := runThreads (quiet ++ Listen true :: mid ++ Listen v :: pre) t in
    (runThreads quiet t).2 = [] ∧
    sameListener g (gate (runThreads quiet t).1) ∧
    lc3RollingBuffer (gate (runThreads quiet t).1) =
      newest (lc3RollingBuffer g ++ buffered g quiet) ∧
    r.2 = VadStatus true :: (AudioChunk <$> snapshot) ∧
    isSpeaking (gate r.1) = true ∧
    decided r.1 = [] ∧
    (let calls := waiting r.1 ++ (if pathEnabled g p then [c] else []) in
     (runThreads (Begin p c :: replicate (length calls) ReadFlag ++
                    replicate (length calls) SendLive) r.1).2 = AudioChunk <$> calls) ∧
    (move (Listen false) r.1).2 = [VadStatus false] ∧
    let t' := (move (Listen v') (move (Listen false) r.1).1).1 in
    isSpeaking (gate t') = false ∧ previousVadState (gate t') = false ∧
    pc (gate t') = Polling ∧ bypassVadForDebugging (gate t') = false.
Proof.
  intros Hb Hs Hp Hpc Hlen Hq Hm t snapshot Hn.
  destruct (ingest_moves_silent quiet t Hq Hb Hs eq_refl Hlen) as (Ho1 & Hl1 & Hd1 & Hbuf1 & Hlen1).
  set (t1 := (runThreads quiet t).1) in *.
  destruct Hl1 as (Hv1 & Hb1 & Hpcm1 & Hs1 & Hp1 & Hpc1).
  cbn [t gate] in Hv1, Hb1, Hpcm1, Hs1, Hp1, Hpc1, Hbuf1.
  (* the listener announces speech *)
  set (t2 := mkThreads (setListener false false Announced (gate t1)) (waiting t1) (decided t1)).
  assert (Hann : move (Listen true) t1 = (t2, [VadStatus true])).
  { simpl. unfold listenerStep. rewrite Hpc1, Hpc. simpl. rewrite Hp1, Hp. simpl.
    by rewrite Hs1, Hs. }
  destruct (ingest_moves_silent mid t2 Hm) as (Ho3 & Hl3 & Hd3 & Hbuf3 & Hlen3);
    [simpl; congruence|done|done|done|].
  set (t3 := (runThreads mid t2).1) in *.
  destruct Hl3 as (Hv3 & Hb3 & Hpcm3 & Hs3 & Hp3 & Hpc3).
  cbn [t2 gate setListener vadInitialized bypassVadForDebugging sendPcmToBackend
       isSpeaking previousVadState pc lc3RollingBuffer] in Hv3, Hb3, Hpcm3, Hs3, Hp3, Hpc3, Hbuf3.
  assert (Hsnap : lc3RollingBuffer (gate t3) = snapshot).
  { rewrite Hbuf3, Hbuf1. unfold snapshot.
    rewrite (buffered_config g _ mid) by (simpl; congruence).
    rewrite newest_newest, <- app_assoc. f_equal. f_equal.
    unfold buffered. by rewrite omap_app. }
  (* the listener copies the buffer *)
  set (t4 := mkThreads (setListener false false (Flushing snapshot) (gate t3))
                       (waiting t3) (decided t3)).
  assert (Hcopy : move (Listen v) t3 = (t4, [])).
  { simpl. unfold listenerStep. rewrite Hpc3. simpl. by rewrite Hs3, Hp3, Hsnap. }
  destruct (flush_interleaved moves snapshot t4) as
    (pre & post & Hact & Hpost & Hout & Hsp & Hprev & Hpol & Hbyp & Hdec);
    [simpl; congruence|done..|].
  exists pre, post. split; [done|]. split; [done|]. cbv zeta.
  assert (Hr : runThreads (quiet ++ Listen true :: mid ++ Listen v :: pre) t =
               ((runThreads pre t4).1, VadStatus true :: (AudioChunk <$> snapshot))).
  { rewrite runThreads_app. fold t1. rewrite Ho1. cbn [app].
    rewrite runThreads_cons, Hann. cbn [fst snd].
    rewrite runThreads_app. fold t3. rewrite Ho3. cbn [app].
    rewrite runThreads_cons, Hcopy. cbn [fst snd].
    by rewrite Hout. }
  rewrite Hr. cbn [fst snd].
  set (r1 := (runThreads pre t4).1) in *.
  assert (Hsil : listenerStep false (gate r1) =
                 (setListener true true Silencing (gate r1), [VadStatus false])).
  { unfold listenerStep. by rewrite Hpol, Hprev, Hsp. }
  split_and!; try done.
  - (* calls that read the raised flag *)
    assert (Hen : pathEnabled (gate r1) p = pathEnabled g p).
    { destruct (runThreads_config (quiet ++ Listen true :: mid ++ Listen v :: pre) t)
        as (Hcv & Hcp & _).
      rewrite Hr in Hcv, Hcp. cbn [fst] in Hcv, Hcp. fold r1 in Hcv, Hcp.
      unfold pathEnabled. by rewrite Hcv, Hcp. }
    rewrite runThreads_cons. cbn [move fst snd app].
    destruct (begin_spec p c r1) as (Hw & Hd & Hsp2 & _).
    rewrite Hen in Hw.
    destruct (begin p c r1) as [g2 w2 d2]. cbn [gate waiting decided] in *.
    rewrite <- Hw. rewrite runThreads_app, reads_while_open
      by (unfold gateOpen; rewrite Hsp2, Hsp; apply orb_true_r).
    cbn [fst snd app]. rewrite Hd, Hdec. cbn [app].
    by rewrite sends_in_order.
  - simpl. by rewrite Hsil.
  - simpl. rewrite Hsil. done.
  - simpl. rewrite Hsil. done.
  - simpl. rewrite Hsil. done.
  - simpl. rewrite Hsil. simpl. done.
Qed.

End VadGateFacts.

Section VadGateRuns.

Import VadGate.

Lemma vad_gate_witness :
  ∃ pre post,
    [Listen true; Begin LC3 someChunk; Listen true; Listen true] = pre ++ post ∧
    (runThreads ([Begin LC3 someChunk; ReadFlag] ++ Listen true ::
                   [Begin LC3 otherChunk] ++ Listen true :: pre)
                (atRest (initialGate false false))).2 =
    [VadStatus true; AudioChunk someChunk; AudioChunk otherChunk].
Proof.
  destruct (vad_gate (initialGate false false) [] [Begin LC3 someChunk; ReadFlag]
              [Begin LC3 otherChunk]
              [Listen true; Begin LC3 someChunk; Listen true; Listen true]
              true true LC3 someChunk)
    as (pre & post & Hact & _ & H).
  - reflexivity.
  - reflexivity.
  - reflexivity.
  - reflexivity.
  - simpl. unfold LC3_BUFFER_MAX_SIZE. lia.
  - by repeat constructor.
  - by repeat constructor.
  - vm_compute. reflexivity.
  - exists pre, post. split; [exact Hact|].
    cbv zeta in H. destruct H as (_ & _ & _ & Hout & _). exact Hout.
Defined.

(** C9, as stated, fails: a call reads the raised flag, the listener
    announces silence and lowers the flag, and the call then sends its
    chunk, so a chunk is sent live while the gate is silent and the
    bypass flag is unset. *)
Lemma chunk_sent_after_silence :
  ¬ (∀ (moves : list Move) (m : Move) (g : Gate),
       isListen m = false →
       bypassVadForDebugging (gate (runThreads moves (atRest g)).1) = false →
       isSpeaking (gate (runThreads moves (atRest g)).1) = false →
       (move m (runThreads moves (atRest g)).1).2 = []).
Proof.
  intros H.
  specialize (H lateSend SendLive (initialGate false false) eq_refl eq_refl eq_refl).
  vm_compute in H. discriminate H.
Qed.

End VadGateRuns.

(** ** The router *)

Section RouterFacts.

Import Router.

Variable getSession : string → option UserSession.
Variable getSubscribedApps : UserSession → string → list string.
Variable findOne : string → FindOne.
Variable normalize : string → string.

Lemma forEach_deliverTo (s : UserSession) (msg : string → TpaMessage)
    (l : list string) (out : Outbox) :
  forEach l (deliverTo s msg) out = (Ok (), out ++ omap (frameFor s msg) l).
Proof.
  revert out. induction l as [|p l IH]; intros out.
  - simpl. by rewrite app_nil_r.
  - assert (E : deliverTo s msg p out =
                (Ok (), out ++ from_option (λ f, [f]) [] (frameFor s msg p))).
    { unfold deliverTo, frameFor. destruct (appConnections s !! p) as [ws|]; simpl.
      - destruct (decide (readyState ws = OPEN)); simpl; [done|].
        by rewrite app_nil_r.
      - by rewrite app_nil_r. }
    rewrite (forEach_cons_ok _ p l out _ E), IH. f_equal.
    rewrite <- app_assoc. f_equal.
    simpl. by destruct (frameFor s msg p).
Qed.

Lemma broadcastToTpa_spec (sid streamType : string) (data : StreamData) (out : Outbox) :
  broadcastToTpa getSession getSubscribedApps sid streamType data out =
    (Ok (), out ++ broadcastFrames getSession getSubscribedApps sid streamType data).
Proof.
  unfold broadcastToTpa, broadcastFrames. destruct (getSession sid) as [us|].
  - apply forEach_deliverTo.
  - simpl. by rewrite app_nil_r.
Qed.

(** X1.  A broadcast writes one frame, in the order of the subscriber list, to
    each subscriber of the effective key whose connection is stored and
    open, and nothing to the others; it keeps what was written before and
    never throws.  For an unknown session nothing is written.  Audio
    frames go the same way under the key audio_chunk. *)
Theorem broadcast_reaches_open_subscribers
    (sid streamType : string) (data : StreamData) (s : UserSession)
    (buf : list Byte.byte) (out : Outbox) :
  broadcastToTpa getSession getSubscribedApps sid streamType data out =
    (Ok (), out ++ broadcastFrames getSession getSubscribedApps sid streamType data) ∧
  broadcastToTpaAudio getSubscribedApps s buf out =
    (Ok (), out ++ omap (frameFor s (λ _, AudioFrame buf))
                        (getSubscribedApps s "audio_chunk")).
Proof.
  split; [apply broadcastToTpa_spec|apply forEach_deliverTo].
Qed.

Lemma matchPhrases_spec (s : UserSession) (text p : string) (c : CommandSchema)
    (ps : list string) (out : Outbox) :
  matchPhrases normalize s text p c ps out =
  (Ok (), out ++
     match appConnections s !! p with
     | Some ws =>
       if decide (readyState ws = OPEN) then
         if existsb (λ phrase, Transcription.strIncludes (normalize phrase) text) ps
         then [(wsId ws, CommandActivate (cmdId c) text (sessionId s +:+ "-" +:+ p))]
         else []
       else []
     | None => []
     end).
Proof.
  destruct (appConnections s !! p) as [ws|] eqn:Ews.
  - destruct (decide (readyState ws = OPEN)) as [Ho|Ho].
    + induction ps as [|ph ps IH]; simpl; [by rewrite app_nil_r|].
      rewrite Ews. destruct (Transcription.strIncludes (normalize ph) text); simpl; [|done].
      by rewrite decide_True.
    + induction ps as [|ph ps IH]; simpl; [by rewrite app_nil_r|].
      rewrite Ews. rewrite decide_False by done.
      by destruct (Transcription.strIncludes (normalize ph) text).
  - induction ps as [|ph ps IH]; simpl; [by rewrite app_nil_r|].
    rewrite Ews. by destruct (Transcription.strIncludes (normalize ph) text).
Qed.

Lemma forEach_commands (s : UserSession) (text p : string)
    (cmds : list CommandSchema) (out : Outbox) :
  forEach cmds (λ command, matchPhrases normalize s text p command (phrases command)) out =
  (Ok (), out ++
     match appConnections s !! p with
     | Some ws =>
       if decide (readyState ws = OPEN) then
         (λ command, (wsId ws, CommandActivate (cmdId command) text
                                 (sessionId s +:+ "-" +:+ p)))
           <$> filter (λ command, commandMatches normalize text command = true) cmds
       else []
     | None => []
     end).
Proof.
  revert out. induction cmds as [|c cmds IH]; intros out.
  - simpl. destruct (appConnections s !! p) as [ws|]; [|by rewrite app_nil_r].
    destruct (decide _); by rewrite app_nil_r.
  - rewrite (forEach_cons_ok _ c cmds out _ (matchPhrases_spec s text p c (phrases c) out)).
    rewrite IH. f_equal. rewrite <- app_assoc. f_equal.
    destruct (appConnections s !! p) as [ws|]; [|done].
    destruct (decide _); [|done].
    fold (commandMatches normalize text c). rewrite filter_cons.
    by destruct (commandMatches normalize text c).
Qed.

Lemma matchPackage_ok (s : UserSession) (text p : string) (out : Outbox) :
  findOne p ≠ FindError →
  matchPackage findOne normalize s text p out =
  (Ok (), out ++ activations findOne normalize s text p).
Proof.
  intros Hf. unfold matchPackage, activations.
  destruct (findOne p) as [[cmds|]| |]; [| | |done].
  - destruct cmds as [|c cmds].
    + simpl. destruct (appConnections s !! p) as [ws|]; [|by rewrite app_nil_r].
      destruct (decide _); by rewrite app_nil_r.
    + apply forEach_commands.
  - simpl. by rewrite app_nil_r.
  - simpl. by rewrite app_nil_r.
Qed.

Lemma forEach_packages (s : UserSession) (text : string) (l : list string) (out : Outbox) :
  ∃ r, forEach l (matchPackage findOne normalize s text) out =
       (r, out ++ flat_map (activations findOne normalize s text) (scanned findOne l)).
Proof.
  revert out. induction l as [|p l IH]; intros out.
  - exists (Ok ()). simpl. by rewrite app_nil_r.
  - assert (Hd : findOne p = FindError ∨ findOne p ≠ FindError)
      by (destruct (findOne p); [by right|by right|by left]).
    destruct Hd as [Hf|Hf].
    + exists (Throw "findOne rejected"). simpl. unfold mbind, M_bind, matchPackage.
      rewrite Hf. simpl. by rewrite app_nil_r.
    + rewrite (forEach_cons_ok _ p l out _ (matchPackage_ok s text p out Hf)).
      destruct (IH (out ++ activations findOne normalize s text p)) as [r ->].
      exists r. f_equal. rewrite <- app_assoc. f_equal. simpl.
      by destruct (findOne p).
Qed.

Lemma matchCommands_spec (s : UserSession) (data : StreamData) (out : Outbox) :
  matchCommandsInTranscription findOne normalize s data out =
  (Ok (), out ++ commandFrames findOne normalize s data).
Proof.
  unfold matchCommandsInTranscription, commandFrames.
  case_bool_decide; [simpl; by rewrite app_nil_r|].
  unfold try_catch. cbv zeta.
  case_bool_decide as Ha.
  - rewrite Ha. simpl. by rewrite app_nil_r.
  - destruct (forEach_packages s (normalize (dataText data)) (activeAppSessions s) out)
      as [[[]|e] ->]; done.
Qed.

(** X2.  Command matching never throws and keeps what was written.  For a text
    that is not empty it scans the active packages in order, up to the
    first whose app lookup is rejected, and sends each scanned package
    with an open connection one activation for every one of its commands
    that has a phrase contained in the normalised text: finding a phrase
    ends the scan of that command only, and a package without an open
    connection is sent nothing. *)
Theorem commands_one_activation_per_matching_command
    (s : UserSession) (data : StreamData) (out : Outbox) :
  matchCommandsInTranscription findOne normalize s data out =
    (Ok (),
     out ++
     if bool_decide (dataText data = "") then []
     else flat_map (activations findOne normalize s (normalize (dataText data)))
                   (scanned findOne (activeAppSessions s))).
Proof. apply matchCommands_spec. Qed.

(** X3.  A recognition result is first broadcast under its stream type;
    command activations follow, and only for a final result of type
    transcription, whatever its language.  Interim results and
    translations never activate a command. *)
Theorem final_transcription_runs_commands
    (s : UserSession) (data : StreamData) (out : Outbox) :
  broadcastTranscriptionResult getSession getSubscribedApps findOne normalize s data out =
    (Ok (),
     out ++
     broadcastFrames getSession getSubscribedApps (sessionId s)
       (if bool_decide (dataType data = "translation")
        then "translation" else "transcription") data ++
     if bool_decide (dataType data = "transcription") && dataIsFinal data
     then commandFrames findOne normalize s data else []).
Proof.
  unfold broadcastTranscriptionResult. cbv zeta.
  set (st := if bool_decide (dataType data = "translation") then _ else _).
  pose proof (broadcastToTpa_spec (sessionId s) st data out) as E.
  assert (E1 : try_catch (broadcastToTpa getSession getSubscribedApps (sessionId s) st data)
                 (λ _, mret ()) out =
               (Ok (), out ++ broadcastFrames getSession getSubscribedApps (sessionId s) st data)).
  { unfold try_catch. by rewrite E. }
  rewrite (bind_ok _ _ out _ () E1).
  destruct (bool_decide (dataType data = "transcription") && dataIsFinal data);
    cbn [andb]; [|simpl; by rewrite app_nil_r].
  destruct (bool_decide (activeAppSessions s = [])) eqn:Ha; cbn [negb].
  - apply bool_decide_eq_true_1 in Ha. unfold commandFrames. rewrite Ha. simpl.
    case_bool_decide; by rewrite !app_nil_r.
  - unfold try_catch. rewrite matchCommands_spec. by rewrite app_assoc.
Qed.

End RouterFacts.

(** ** The TPA channel *)

Section TpaChannelFacts.

Import Lifecycle TpaChannel.

Variable svc : Services.

Lemma split_dashFree (str : string) : dashFree str = true → split "-" str = [str].
Proof.
  induction str as [|c str IH]; [done|]. simpl.
  destruct (Ascii.eqb c "-"); [done|]. simpl. intros H. by rewrite IH.
Qed.

Lemma split_app (a b : string) :
  dashFree a = true → split "-" (a +:+ "-" +:+ b) = a :: split "-" b.
Proof.
  induction a as [|c a IH]; [done|]. simpl.
  destruct (Ascii.eqb c "-") eqn:E; [done|]. simpl. intros H.
  simpl in IH. by rewrite IH.
Qed.

Lemma splitHead_split (str : string) : head (split "-" str) = Some (splitHead str).
Proof.
  induction str as [|c str IH]; [done|]. simpl.
  destruct (Ascii.eqb c "-"); [done|].
  destruct (split "-" str) as [|f fs]; [done|]. simpl in *. congruence.
Qed.

(** X4.  The id handed to a TPA, sessionId-packageName, is taken apart again
    by the handlers of the TPA channel: its first field is the session id
    when that has no dash, and its second field is the package name when
    neither has one.  A package name with a dash is cut at its first
    dash. *)
Theorem tpaSessionId_round_trip (s : UserSession) (p q : string) :
  dashFree (sessionId s) = true →
  dashFree p = true →
  splitHead (tpaSessionId s (p +:+ "-" +:+ q)) = sessionId s ∧
  split "-" (tpaSessionId s p) = [sessionId s; p] ∧
  split "-" (tpaSessionId s (p +:+ "-" +:+ q)) !! 1%nat = Some p.
Proof.
  intros Hs Hp. unfold tpaSessionId. split_and!.
  - assert (H := splitHead_split (sessionId s +:+ "-" +:+ p +:+ "-" +:+ q)).
    rewrite split_app in H by done. simpl in H. congruence.
  - rewrite split_app by done. by rewrite split_dashFree.
  - rewrite !split_app by done. done.
Qed.

Ltac hunfold :=
  unfold handleTpaInit, onClose, onError, cleanUp, removeSubscriptions,
    call, emit, modifySession, modifyMedia, getSession, try_catch, throw,
    mbind, M_bind, mret, M_ret in *.

Lemma tpaSessionId_nonempty (s : UserSession) (p : string) : tpaSessionId s p ≠ "".
Proof. unfold tpaSessionId. by destruct (sessionId s). Qed.

Lemma handleTpaInit_accepted (ws : WebSocket) (msg : TpaConnectionInit) (w : World) :
  sessionFound msg (session w) = true →
  validateApiKey svc (initPackageName msg) (initApiKey msg) = true →
  let w1 := (handleTpaInit svc ws msg w).2 in
  sessionId (session w1) = sessionId (session w) ∧
  appConnections (session w1) = <[initPackageName msg := ws]> (appConnections (session w)) ∧
  mediaSubscribers w1 = mediaSubscribers w.
Proof.
  intros Hf Hv. hunfold. simpl. rewrite Hf, Hv. simpl.
  repeat (case_match; simplify_eq/=); done.
Qed.

(** X5.  A bind followed by the close of the channel.  For a TPA that binds
    with the id sessionId-packageName it was given, neither part holding a
    dash, the close handler finds the session, removes the connection
    stored by the bind and the subscriptions of the package, and records
    the disconnection; it leaves the active list and the loading set as
    the bind left them, so the package stays active without a
    connection.  An error on the channel does the same and then closes
    the socket. *)
Theorem close_drops_bound_connection
    (ws : WebSocket) (msg : TpaConnectionInit) (w : World) :
  dashFree (sessionId (session w)) = true →
  dashFree (initPackageName msg) = true →
  initSessionId msg = tpaSessionId (session w) (initPackageName msg) →
  validateApiKey svc (initPackageName msg) (initApiKey msg) = true →
  removeSubscriptions_throws svc (initPackageName msg) = false →
  let p := initPackageName msg in
  let w1 := (handleTpaInit svc ws msg w).2 in
  let current := boundSession svc msg w None in
  current = Some (initSessionId msg) ∧
  appConnections (session w1) !! p = Some ws ∧
  ∃ w2, onClose svc current w1 = (Ok (), w2) ∧
        appConnections (session w2) = delete p (appConnections (session w)) ∧
        mediaSubscribers w2 = mediaSubscribers w ∖ {[p]} ∧
        activeAppSessions (session w2) = activeAppSessions (session w1) ∧
        loadingApps (session w2) = loadingApps (session w1) ∧
        onError svc ws current w1 =
          (Ok (), mkWorld (session w2) (mediaSubscribers w2)
                          (trace w2 ++ [EvTpaClose (wsId ws)])).
Proof.
  intros Hs Hp Hid Hv Hr. cbv zeta.
  assert (Hsplit : split "-" (initSessionId msg) = [sessionId (session w); initPackageName msg]).
  { rewrite Hid. unfold tpaSessionId. rewrite split_app by done. by rewrite split_dashFree. }
  assert (Hf : sessionFound msg (session w) = true).
  { unfold sessionFound. apply bool_decide_eq_true_2.
    pose proof (splitHead_split (initSessionId msg)) as H. rewrite Hsplit in H.
    simpl in H. congruence. }
  destruct (handleTpaInit_accepted ws msg w Hf Hv) as (Hsid & Hc & Hm).
  set (w1 := (handleTpaInit svc ws msg w).2) in *.
  split; [unfold boundSession; by rewrite Hf, Hv|].
  split; [rewrite Hc; apply lookup_insert_eq|].
  unfold boundSession. rewrite Hf, Hv. simpl.
  unfold onClose, onError. rewrite bool_decide_eq_false_2
    by (rewrite Hid; apply tpaSessionId_nonempty).
  unfold mbind at 1 5. unfold M_bind, getSession.
  unfold ownerFound. rewrite Hsplit. simpl. rewrite Hsid.
  rewrite bool_decide_eq_true_2 by done. simpl.
  unfold cleanUp. rewrite Hsplit. simpl.
  unfold mbind, M_bind, getSession. rewrite Hc, lookup_insert_eq.
  rewrite bool_decide_eq_true_2 by eauto.
  unfold removeSubscriptions, call, emit, modifySession, modifyMedia, mbind, M_bind,
    mret, M_ret. simpl. rewrite Hr. simpl.
  eexists. split; [reflexivity|]. simpl.
  rewrite Hsid. rewrite bool_decide_eq_true_2 by done. simpl.
  rewrite Hc, lookup_insert_eq. rewrite bool_decide_eq_true_2 by eauto.
  rewrite Hm, delete_insert_eq. done.
Qed.

(** X6.  The change test of the [subscription_update] handler.  When the list
    of language subscriptions held before the update has no duplicates,
    the handler leaves the transcription streams alone exactly when the
    list after the update is a rearrangement of it. *)
Theorem language_change_detection (previous new : list string) :
  NoDup previous →
  languageSubscriptionsChanged previous new = false ↔ previous ≡ₚ new.
Proof.
  intros Hnd. unfold languageSubscriptionsChanged.
  rewrite orb_false_iff, !negb_false_iff, bool_decide_eq_true, forallb_forall.
  split.
  - intros [Hlen Hall]. apply submseteq_length_Permutation; [|lia].
    apply NoDup_submseteq; [done|]. intros x Hx.
    eapply bool_decide_eq_true_1, Hall. by apply list_elem_of_In.
  - intros Hperm. split; [by rewrite Hperm|].
    intros x Hx%list_elem_of_In. apply bool_decide_eq_true_2. by rewrite <- Hperm.
Qed.

End TpaChannelFacts.

(** ** Feeding, starting and stopping the streams *)

Lemma forEach_invariant {St A} (P : St → Prop) (body : A → M St ()) (l : list A) :
  (∀ x st, P st → P (body x st).2) → ∀ st, P st → P (forEach l body st).2.
Proof.
  intros Hstep. induction l as [|x l IH]; intros st Hst; [done|].
  simpl. unfold mbind, M_bind. specialize (Hstep x st Hst).
  destruct (body x st) as [[[]|e] st1]; simpl in *; [by apply IH|done].
Qed.

Section SpeechControlFacts.

Import Transcription SpeechControl.

Variable getLanguageInfo : string → option LanguageInfo.
Variable sdkThrows : AsrCall → bool.

(** Whatever both loops of an update preserve holds when it is over. *)
Lemma update_invariant (P : Streams → Prop) (L : list string) (st : Streams) :
  (∀ k s, P s → P (ensureStream getLanguageInfo k s).2) →
  (∀ ds e s, P s → P (dropUnlessDesired sdkThrows ds e s).2) →
  P (mkStreams (Some (entries st)) (nextHandle st) (asrCalls st)) →
  P (updateTranscriptionStreams getLanguageInfo sdkThrows L st).2.
Proof.
  intros He Hd H0. rewrite update_unfold.
  pose proof (forEach_invariant P (ensureStream getLanguageInfo) (newSet [] L) He _ H0) as H1.
  destruct (forEach (newSet [] L) _ _) as [[[]|e] st1]; simpl in *; [|done].
  apply forEach_invariant; [|done]. intros x s. apply Hd.
Qed.

Lemma ensureStream_cases (k : string) (s : Streams) :
  (ensureStream getLanguageInfo k s).2 = s ∨
  (k ∉ keys s) ∧ ∃ inst n cs,
    (ensureStream getLanguageInfo k s).2 = mkStreams (Some (entries s ++ [(k, inst)])) n cs.
Proof.
  destruct (decide (k ∈ keys s)) as [Hk|Hk].
  - left. by rewrite ensureStream_present.
  - destruct (getLanguageInfo k) as [info|] eqn:Hi.
    + right. split; [done|].
      destruct (ensureStream_new getLanguageInfo k info s Hk Hi) as (inst & -> & _).
      eauto.
    + left. by destruct (ensureStream_invalid getLanguageInfo k s Hk Hi) as [e ->].
Qed.

Lemma dropUnlessDesired_cases (ds : list string) (e : string * ASRStreamInstance)
    (s : Streams) :
  (dropUnlessDesired sdkThrows ds e s).2 = s ∨
  (dropUnlessDesired sdkThrows ds e s).2 =
    mkStreams (Some (mapDelete e.1 (entries s))) (nextHandle s) (asrCalls s ++ stopCalls sdkThrows e).
Proof.
  unfold dropUnlessDesired. case_bool_decide; [by left|right].
  unfold mbind, M_bind. rewrite (stopIndividual_spec sdkThrows).
  unfold setStreams, entries. simpl. by destruct e.
Qed.

Lemma update_defined (L : list string) (st : Streams) :
  is_Some (transcriptionStreams (updateTranscriptionStreams getLanguageInfo sdkThrows L st).2).
Proof.
  apply (update_invariant (λ s, is_Some (transcriptionStreams s))); [| |by eexists].
  - intros k s Hs. destruct (ensureStream_cases k s) as [->|(_ & inst & n & cs & ->)]; eauto.
  - intros ds e s Hs. destruct (dropUnlessDesired_cases ds e s) as [->| ->]; eauto.
Qed.

Lemma update_NoDup (L : list string) (st : Streams) :
  NoDup (keys st) → NoDup (keys (updateTranscriptionStreams getLanguageInfo sdkThrows L st).2).
Proof.
  intros Hnd. apply (update_invariant (λ s, NoDup (keys s))); [| |done].
  - intros k s Hs. destruct (ensureStream_cases k s) as [->|(Hk & inst & n & cs & ->)]; [done|].
    rewrite keys_snoc. apply NoDup_app. split_and!; [done| |apply NoDup_singleton].
    intros x Hx Hx'%list_elem_of_singleton. by subst.
  - intros ds e s Hs. destruct (dropUnlessDesired_cases ds e s) as [->| ->]; [done|].
    unfold keys, entries, mapDelete. simpl.
    eapply sublist_NoDup; [exact Hs|]. apply fmap_sublist, sublist_filter.
Qed.

Lemma update_keys (L : list string) (st st' : Streams) :
  updateTranscriptionStreams getLanguageInfo sdkThrows L st = (Ok (), st') →
  ∀ k, k ∈ keys st' ↔ k ∈ L.
Proof.
  rewrite update_unfold.
  set (st0 := mkStreams (Some (entries st)) (nextHandle st) (asrCalls st)).
  destruct (forEach (newSet [] L) _ st0) as [[[]|e] st1] eqn:E1; [|done].
  apply grow_ok in E1 as (added & cs1 & He1 & _ & Hk1 & _).
  destruct (prune_ok sdkThrows (newSet [] L) (entries st1) st1) as (st2 & cs2 & E2 & He2 & _).
  rewrite E2. intros [= <-] k.
  assert (Hds : k ∈ newSet [] L ↔ k ∈ L).
  { rewrite (elem_of_newSet getLanguageInfo). split; [tauto|]. intros ?. split; [done|apply not_elem_of_nil]. }
  unfold keys at 1. rewrite He2, list_elem_of_fmap. split.
  - intros [[k' inst] [-> [[?|Hn] Hin]%list_elem_of_filter]]; simpl in *; [tauto|].
    exfalso. apply Hn. apply list_elem_of_fmap. by exists (k', inst).
  - intros Hk. assert (Hin : k ∈ keys st1).
    { unfold keys. rewrite He1, fmap_app, elem_of_app.
      destruct (decide (k ∈ keys st)) as [?|Hold]; [by left|right].
      apply Hk1. change (keys st0) with (keys st). tauto. }
    apply list_elem_of_fmap in Hin as [[k' inst] [-> Hin]].
    exists (k', inst). split; [done|]. apply list_elem_of_filter. simpl. tauto.
Qed.

Lemma grow_noop (ds : list string) (st : Streams) :
  (∀ k, k ∈ ds → k ∈ keys st) →
  forEach ds (ensureStream getLanguageInfo) st = (Ok (), st).
Proof.
  induction ds as [|x ds IH]; intros Hall; [done|].
  rewrite (forEach_cons_ok _ x ds st st); [|apply ensureStream_present, Hall; by left].
  apply IH. intros k Hk. apply Hall. by right.
Qed.

Lemma prune_noop (ds : list string) (l : list (string * ASRStreamInstance)) (st : Streams) :
  (∀ e, e ∈ l → e.1 ∈ ds) →
  forEach l (dropUnlessDesired sdkThrows ds) st = (Ok (), st).
Proof.
  induction l as [|e l IH]; intros Hall; [done|].
  rewrite (forEach_cons_ok _ e l st st).
  - apply IH. intros e' He'. apply Hall. by right.
  - unfold dropUnlessDesired. rewrite bool_decide_eq_true_2; [done|]. apply Hall. by left.
Qed.

(** An update whose desired keys are the keys already there creates and
    stops nothing. *)
Lemma update_noop (L : list string) (st : Streams) :
  (∀ k, k ∈ keys st ↔ k ∈ L) →
  updateTranscriptionStreams getLanguageInfo sdkThrows L st =
  (Ok (), mkStreams (Some (entries st)) (nextHandle st) (asrCalls st)).
Proof.
  intros Hk. rewrite update_unfold.
  assert (Hds : ∀ k, k ∈ newSet [] L ↔ k ∈ L).
  { intros k. rewrite (elem_of_newSet getLanguageInfo). split; [tauto|].
    intros ?. split; [done|apply not_elem_of_nil]. }
  rewrite grow_noop.
  - apply prune_noop. intros e He. apply Hds, Hk. unfold keys.
    apply list_elem_of_fmap. by exists e.
  - intros k Hin%Hds. by apply Hk.
Qed.

Lemma stop_all (l : list (string * ASRStreamInstance)) (st : Streams) :
  ∃ st', forEach l (dropUnlessDesired sdkThrows []) st = (Ok (), st') ∧
         entries st' = filter (λ e, e.1 ∉ l.*1) (entries st) ∧
         nextHandle st' = nextHandle st ∧
         asrCalls st' = asrCalls st ++ flat_map (stopCalls sdkThrows) l ∧
         (is_Some (transcriptionStreams st) → is_Some (transcriptionStreams st')).
Proof.
  revert st. induction l as [|e l IH]; intros st.
  - exists st. simpl. rewrite app_nil_r. split_and!; try done.
    symmetry. induction (entries st) as [|y ys IHy]; [done|].
    rewrite filter_cons, decide_True; [by rewrite IHy|apply not_elem_of_nil].
  - assert (E : dropUnlessDesired sdkThrows [] e st =
                (Ok (), mkStreams (Some (mapDelete e.1 (entries st))) (nextHandle st)
                                  (asrCalls st ++ stopCalls sdkThrows e))).
    { unfold dropUnlessDesired. rewrite bool_decide_eq_false_2 by apply not_elem_of_nil.
      unfold mbind, M_bind. rewrite (stopIndividual_spec sdkThrows).
      unfold setStreams, entries. simpl. by destruct e. }
    rewrite (forEach_cons_ok _ e l st _ E).
    destruct (IH (mkStreams (Some (mapDelete e.1 (entries st))) (nextHandle st)
                            (asrCalls st ++ stopCalls sdkThrows e)))
      as (st' & E' & He & Hn & Hc & Hs).
    exists st'. split; [exact E'|]. split_and!.
    + rewrite He. unfold entries at 1. simpl. unfold mapDelete.
      rewrite list_filter_filter. apply list_filter_iff.
      intros y. cbn [fmap list_fmap]. rewrite not_elem_of_cons. tauto.
    + by rewrite Hn.
    + rewrite Hc. simpl. by rewrite <- app_assoc.
    + intros _. apply Hs. by eexists.
Qed.

Lemma stopTranscription_spec (st : Streams) :
  stopTranscription getLanguageInfo sdkThrows st =
  (Ok (), mkStreams (Some []) (nextHandle st)
                    (asrCalls st ++ flat_map (stopCalls sdkThrows) (entries st))).
Proof.
  unfold stopTranscription. rewrite update_unfold. simpl.
  set (st0 := mkStreams (Some (entries st)) (nextHandle st) (asrCalls st)).
  change (entries st0) with (entries st).
  destruct (stop_all (entries st) st0) as (st' & -> & He & Hn & Hc & Hs).
  f_equal. destruct st' as [ts n cs]. simpl in *. subst n cs.
  destruct Hs as [m Hm]; [by eexists|]. subst ts.
  unfold entries in He at 1. simpl in He. f_equal. f_equal.
  rewrite He. change (entries st0) with (entries st).
  destruct (filter _ (entries st)) as [|y ys] eqn:Ef; [done|].
  assert (Hy : y ∈ filter (λ e : string * ASRStreamInstance, e.1 ∉ (entries st).*1)
                          (entries st)) by (rewrite Ef; left).
  apply list_elem_of_filter in Hy as [Hn Hin]. exfalso. apply Hn.
  apply list_elem_of_fmap. by exists y.
Qed.

Lemma update_keeps (L : list string) (st st' : Streams) (k : string)
    (inst : ASRStreamInstance) :
  updateTranscriptionStreams getLanguageInfo sdkThrows L st = (Ok (), st') →
  (k, inst) ∈ entries st → k ∈ L → (k, inst) ∈ entries st'.
Proof.
  rewrite update_unfold.
  set (st0 := mkStreams (Some (entries st)) (nextHandle st) (asrCalls st)).
  destruct (forEach (newSet [] L) _ st0) as [[[]|e] st1] eqn:E1; [|done].
  apply grow_ok in E1 as (added & cs1 & He1 & _).
  destruct (prune_ok sdkThrows (newSet [] L) (entries st1) st1) as (st2 & cs2 & E2 & He2 & _).
  rewrite E2. intros [= <-] Hin Hk.
  rewrite He2. apply list_elem_of_filter. split.
  - left. simpl. rewrite (elem_of_newSet getLanguageInfo). split; [done|apply not_elem_of_nil].
  - rewrite He1. apply elem_of_app. by left.
Qed.

Lemma update_total (L : list string) (st : Streams) :
  (∀ k, k ∈ L → k ∈ keys st ∨ is_Some (getLanguageInfo k)) →
  ∃ st', updateTranscriptionStreams getLanguageInfo sdkThrows L st = (Ok (), st').
Proof.
  intros Hv. rewrite update_unfold.
  set (st0 := mkStreams (Some (entries st)) (nextHandle st) (asrCalls st)).
  destruct (grow_total getLanguageInfo (newSet [] L) st0) as [st1 E1].
  { intros k [Hk _]%(elem_of_newSet getLanguageInfo). by apply Hv. }
  rewrite E1.
  destruct (prune_ok sdkThrows (newSet [] L) (entries st1) st1) as (st2 & cs & E2 & _).
  by exists st2.
Qed.

Lemma keys_unique (l : list (string * ASRStreamInstance)) (k : string)
    (a b : ASRStreamInstance) :
  NoDup l.*1 → (k, a) ∈ l → (k, b) ∈ l → a = b.
Proof.
  induction l as [|[k' c] l IH]; intros Hnd Ha Hb; [by apply not_elem_of_nil in Ha|].
  cbn [fmap list_fmap fst] in Hnd. apply NoDup_cons in Hnd as [Hk Hnd].
  apply elem_of_cons in Ha as [Ea|Ha]; apply elem_of_cons in Hb as [Eb|Hb].
  - congruence.
  - injection Ea as -> ->. exfalso. apply Hk. apply list_elem_of_fmap. by exists (k', b).
  - injection Eb as -> ->. exfalso. apply Hk. apply list_elem_of_fmap. by exists (k', a).
  - by apply IH.
Qed.

(** X7.  Stopping the transcription of a session never fails and leaves the
    map empty, so that audio fed afterwards is written nowhere.  Every
    stream of the map is torn down once, in the order of the map: the
    stop method is chosen from the key; when the recognizer has it and
    the call returns, the recognizer is stopped and then closed, and
    otherwise it is neither; the push stream is closed in either case.
    Nothing else is called.  A push stream error is handled the same
    way. *)
Theorem stopTranscription_stops_every_stream (st : Streams) (data : list Byte.byte) :
  let teardown := λ e : string * ASRStreamInstance,
    let translation := strIncludes "translation" e.1 in
    let stop := if translation then StopContinuousRecognition e.1 (recognizer e.2)
                else StopTranscribing e.1 (recognizer e.2) in
    let stopped :=
      bool_decide (recognizerKind e.2 = if translation then TRANSLATION else TRANSCRIPTION)
      && negb (sdkThrows stop) in
    (if stopped then
       stop :: (if sdkThrows (CloseRecognizer (recognizer e.2)) then []
                else [CloseRecognizer (recognizer e.2)])
     else []) ++
    (if sdkThrows (ClosePushStream (pushStream e.2)) then []
     else [ClosePushStream (pushStream e.2)]) in
  stopTranscription getLanguageInfo sdkThrows st =
    (Ok (), mkStreams (Some []) (nextHandle st)
                      (asrCalls st ++ flat_map teardown (entries st))) ∧
  handlePushStreamError getLanguageInfo sdkThrows st =
    stopTranscription getLanguageInfo sdkThrows st ∧
  feedAudioToTranscriptionStreams (stopTranscription getLanguageInfo sdkThrows st).2 data
    = Some [].
Proof.
  cbv zeta. split_and!; [apply stopTranscription_spec|done|].
  by rewrite stopTranscription_spec.
Qed.

(** X9.  A recognizer that reports a cancellation is torn down, but its
    entry stays in the map: its push stream is closed, and the recognizer
    is stopped and then closed when it has the stop method that the key
    selects and the call returns.  As long as its key is desired, an
    update does not replace it: the one stream under the key is still
    that instance, and audio keeps being written to its push stream. *)
Theorem canceled_stream_is_not_replaced
    (k : string) (inst : ASRStreamInstance) (L : list string) (st : Streams)
    (data : list Byte.byte) :
  NoDup (keys st) → (k, inst) ∈ entries st → k ∈ L →
  let st1 := (onCanceled sdkThrows inst k st).2 in
  let translation := strIncludes "translation" k in
  let stop := if translation then StopContinuousRecognition k (recognizer inst)
              else StopTranscribing k (recognizer inst) in
  let stopped :=
    bool_decide (recognizerKind inst = if translation then TRANSLATION else TRANSCRIPTION)
    && negb (sdkThrows stop) in
  newCalls st st1 =
    (if stopped then
       stop :: (if sdkThrows (CloseRecognizer (recognizer inst)) then []
                else [CloseRecognizer (recognizer inst)])
     else []) ++
    (if sdkThrows (ClosePushStream (pushStream inst)) then []
     else [ClosePushStream (pushStream inst)]) ∧
  entries st1 = entries st ∧
  ∀ st2, updateTranscriptionStreams getLanguageInfo sdkThrows L st1 = (Ok (), st2) →
    (k, inst) ∈ entries st2 ∧
    (∀ inst', (k, inst') ∈ entries st2 → inst' = inst) ∧
    ∃ writes, feedAudioToTranscriptionStreams st2 data = Some writes ∧
              (pushStream inst, data) ∈ writes.
Proof.
  intros Hnd Hin Hk. cbv zeta.
  assert (E1 : (onCanceled sdkThrows inst k st).2 =
               mkStreams (transcriptionStreams st) (nextHandle st)
                         (asrCalls st ++ stopCalls sdkThrows (k, inst))).
  { unfold onCanceled. by rewrite (stopIndividual_spec sdkThrows). }
  rewrite E1. split_and!.
  - unfold newCalls. simpl. by rewrite drop_app_length.
  - done.
  - intros st2 E2.
    assert (Hin2 : (k, inst) ∈ entries st2) by (by eapply update_keeps).
    pose proof (update_NoDup L (mkStreams (transcriptionStreams st) (nextHandle st)
      (asrCalls st ++ stopCalls sdkThrows (k, inst))) Hnd) as Hnd2.
    rewrite E2 in Hnd2. simpl in Hnd2.
    split_and!; [done| |].
    + intros inst' Hin'. by eapply keys_unique.
    + pose proof (update_defined L (mkStreams (transcriptionStreams st) (nextHandle st)
        (asrCalls st ++ stopCalls sdkThrows (k, inst)))) as [m Hm].
      rewrite E2 in Hm. simpl in Hm.
      unfold feedAudioToTranscriptionStreams. rewrite Hm. eexists. split; [done|].
      unfold entries in Hin2. rewrite Hm in Hin2. simpl in Hin2.
      apply list_elem_of_fmap. by exists (k, inst).
Qed.

(** X8.  After an update that has completed there is exactly one stream for
    each distinct desired subscription, so a chunk of audio fed to the
    session is written once per desired subscription, unchanged.  The
    update is also stable: run again with the same desired subscriptions,
    it creates nothing, stops nothing and leaves the session as it is. *)
Theorem completed_update_is_exact_and_stable
    (L : list string) (st st' : Streams) (data : list Byte.byte) :
  NoDup (keys st) →
  updateTranscriptionStreams getLanguageInfo sdkThrows L st = (Ok (), st') →
  keys st' ≡ₚ newSet [] L ∧
  (∃ writes, feedAudioToTranscriptionStreams st' data = Some writes ∧
             length writes = length (newSet [] L) ∧
             Forall (λ w, w.2 = data) writes) ∧
  updateTranscriptionStreams getLanguageInfo sdkThrows L st' = (Ok (), st').
Proof.
  intros Hnd E.
  assert (Hp : keys st' ≡ₚ newSet [] L).
  { apply NoDup_Permutation.
    - pose proof (update_NoDup L st Hnd) as H. by rewrite E in H.
    - apply (NoDup_newSet getLanguageInfo).
    - intros k. rewrite (update_keys L st st' E), (elem_of_newSet getLanguageInfo).
      split; [|tauto]. intros ?. split; [done|apply not_elem_of_nil]. }
  pose proof (update_defined L st) as [m Hm]. rewrite E in Hm. simpl in Hm.
  split_and!; [done| |].
  - unfold feedAudioToTranscriptionStreams. rewrite Hm. eexists. split; [done|]. split.
    + rewrite length_fmap. rewrite <- Hp. unfold keys, entries. rewrite Hm. simpl.
      by rewrite length_fmap.
    + apply Forall_fmap. by apply Forall_forall.
  - rewrite (update_noop L st' (update_keys L st st' E)).
    destruct st' as [ts n cs]. simpl in *. subst ts. done.
Qed.

Section VadMessage.

Variable minimalSubs : list string.

(** X10.  A VAD message never fails.  A status other than [true] or the
    string true stops every stream and clears [isTranscribing].  A
    speaking status starts the streams of the minimal language
    subscriptions: when every missing one can be parsed the session ends
    up transcribing with exactly those keys; when one cannot, the streams
    created so far are stopped with all the others and the session is
    left not transcribing, with no stream. *)
Theorem vad_message_settles_streams (status : VadStatusField) (sp : Speech) :
  ∃ sp', handleVad getLanguageInfo sdkThrows minimalSubs status sp = (Ok (), sp') ∧
    (isTranscribing sp' = true →
       speaks status = true ∧ ∀ k, k ∈ keys (streams sp') ↔ k ∈ minimalSubs) ∧
    (isTranscribing sp' = false → transcriptionStreams (streams sp') = Some []) ∧
    (isTranscribing sp' = true ↔
       speaks status = true ∧
       ∃ st', startTranscription getLanguageInfo sdkThrows minimalSubs (streams sp) = (Ok (), st')) ∧
    ((∀ k, k ∈ minimalSubs → k ∈ keys (streams sp) ∨ is_Some (getLanguageInfo k)) →
       isTranscribing sp' = speaks status).
Proof.
  unfold handleVad, try_catch. cbv zeta.
  unfold mbind, M_bind, setTranscribing, onStreams, startTranscription. simpl.
  destruct (speaks status) eqn:Es.
  - destruct (updateTranscriptionStreams getLanguageInfo sdkThrows minimalSubs (streams sp))
      as [[[]|e] st1] eqn:E1; simpl.
    + eexists. split; [done|]. simpl. split_and!; try done.
      * intros _. split; [done|]. by apply (update_keys minimalSubs (streams sp)).
      * split; [eauto|done].
    + rewrite stopTranscription_spec. eexists. split; [done|]. simpl.
      split_and!; try done.
      * split; [done|]. intros [_ [st' ?]]. done.
      * intros [st' E']%update_total. congruence.
  - rewrite stopTranscription_spec. simpl. eexists. split; [done|]. simpl.
    split_and!; try done. split; [done|]. by intros [? _].
Qed.

End VadMessage.

End SpeechControlFacts.

(** ** The transcript over a run of events *)

Section TranscriptRunFacts.

Import Transcription TranscriptRuns.

Lemma removelast_snoc (segs : list Segment) (x : Segment) : removelast (segs ++ [x]) = segs.
Proof. apply removelast_last. Qed.

Lemma last_split (segs : list Segment) (x : Segment) :
  last segs = Some x → segs = removelast segs ++ [x].
Proof.
  induction segs as [|a segs IH]; [done|].
  destruct segs as [|b segs]; [by intros [= ->]|].
  rewrite last_cons_cons. intros H.
  change (removelast (a :: b :: segs)) with (a :: removelast (b :: segs)).
  simpl. f_equal. by apply IH.
Qed.

(** What is left of the old segments before the new one is appended:
    only final segments, and among them every final one of the old
    transcript. *)
Lemma base_final (segs : list Segment) :
  interimOnlyLast segs →
  Forall (λ seg, isFinal seg = true) (if endsInterim segs then removelast segs else segs).
Proof.
  unfold interimOnlyLast, endsInterim. intros H.
  destruct (last segs) as [x|] eqn:El.
  - destruct (isFinal x) eqn:Ex; simpl; [|done].
    rewrite (last_split segs x El). apply Forall_app. split; [done|].
    by apply Forall_singleton.
  - apply last_None in El. by subst.
Qed.

Lemma base_keeps_final (segs : list Segment) (seg : Segment) :
  seg ∈ segs → isFinal seg = true →
  seg ∈ (if endsInterim segs then removelast segs else segs).
Proof.
  unfold endsInterim. intros Hin Hf.
  destruct (last segs) as [x|] eqn:El; [|done].
  destruct (isFinal x) eqn:Ex; simpl; [done|].
  rewrite (last_split segs x El) in Hin.
  apply elem_of_app in Hin as [?|Hx]; [done|].
  apply list_elem_of_singleton in Hx. congruence.
Qed.

Lemma retained_snoc (now : Z) (base : list Segment) (ev : RecognitionResult) (final : bool) :
  retained now (base ++ [segmentOf ev now final]) =
  retained now base ++ [segmentOf ev now final].
Proof.
  unfold retained. rewrite filter_app, filter_cons, decide_True, filter_nil; [done|].
  simpl. unfold THIRTY_MINUTES_MS. lia.
Qed.

Lemma updateTranscriptHistory_shape
    (segs : list Segment) (ev : RecognitionResult) (final : bool) (now : Z) :
  interimOnlyLast segs → interimOnlyLast (updateTranscriptHistory segs ev final now).
Proof.
  intros H. rewrite updateTranscriptHistory_spec, retained_snoc.
  unfold interimOnlyLast. rewrite removelast_snoc.
  apply Forall_forall. intros x [_ Hx]%list_elem_of_filter. revert x Hx.
  apply Forall_forall. by apply base_final.
Qed.

Lemma onRecognition_shape (r : Recognition) (h : History) :
  interimOnlyLast (segments h) →
  interimOnlyLast
    (segments (onRecognition (recInfo r) (recFinal r) (recResult r) (recTime r) h)).
Proof.
  intros H. unfold onRecognition.
  destruct (type (recInfo r)).
  - case_bool_decide; [done|]. simpl. case_bool_decide; [|done].
    by apply updateTranscriptHistory_shape.
  - destruct (evTranslations (recResult r)); [|done]. simpl.
    by apply updateTranscriptHistory_shape.
Qed.

(** X11.  Whatever recognition events reach a session, in whatever order and
    at whatever times, an interim segment is only ever the last segment
    of its transcript: every segment before the last one is final. *)
Theorem interim_segment_only_at_end (events : list Recognition) :
  interimOnlyLast (segments (replay events (mkHistory [] []))).
Proof.
  assert (H : ∀ h, interimOnlyLast (segments h) →
                   interimOnlyLast (segments (replay events h))).
  { induction events as [|r events IH]; intros h Hh; [done|].
    simpl. apply IH. by apply onRecognition_shape. }
  apply H. constructor.
Qed.

(** X12.  An insert into the transcript never drops a final segment that is
    less than thirty minutes old, adds at most one segment, and leaves no
    segment older than thirty minutes. *)
Theorem final_segments_kept_for_thirty_minutes
    (segs : list Segment) (ev : RecognitionResult) (final : bool) (now : Z) :
  (∀ seg, seg ∈ segs → isFinal seg = true →
          (now - THIRTY_MINUTES_MS ≤ timestamp seg)%Z →
          seg ∈ updateTranscriptHistory segs ev final now) ∧
  (length (updateTranscriptHistory segs ev final now) ≤ S (length segs))%nat ∧
  Forall (λ seg, (now - THIRTY_MINUTES_MS ≤ timestamp seg)%Z)
         (updateTranscriptHistory segs ev final now).
Proof.
  rewrite updateTranscriptHistory_spec, retained_snoc. split_and!.
  - intros seg Hin Hf Ht. apply elem_of_app. left.
    apply list_elem_of_filter. split; [done|]. by apply base_keeps_final.
  - rewrite length_app. simpl.
    assert (length (retained now (if endsInterim segs then removelast segs else segs))
            ≤ length segs)%nat; [|lia].
    unfold retained. etrans; [apply length_filter|].
    destruct (endsInterim segs); [|done].
    clear. induction segs as [|a [|b segs] IH]; simpl in *; lia.
  - apply Forall_app. split.
    + apply Forall_forall. intros x Hx. by apply list_elem_of_filter in Hx as [? _].
    + apply Forall_singleton. simpl. unfold THIRTY_MINUTES_MS. lia.
Qed.

End TranscriptRunFacts.

(** ** The debouncer over arbitrary requests *)

Section MicHistoryFacts.

Import MicDebounce MicHistory.

Variable sendThrows : string → Z → bool.
Variable startTranscriptionThrows : string → Z → bool.
Variable sid : string.

Lemma sentTo_snoc (s : string) (b : bool) (m : Mic) tc dm :
  sentTo sid (mkMic dm (sent m ++ [(s, b)]) tc) =
  sentTo sid m ++ (if decide (s = sid) then [b] else []).
Proof.
  unfold sentTo. simpl. rewrite filter_app, fmap_app. f_equal.
  rewrite filter_cons. simpl. by destruct (decide (s = sid)).
Qed.

Lemma callsFor_snoc (s : string) (b : bool) (m : Mic) st dm :
  transcriptionCallsFor sid (mkMic dm st (transcriptionCalls m ++ [(s, b)])) =
  transcriptionCallsFor sid m ++ (if decide (s = sid) then [b] else []).
Proof.
  unfold transcriptionCallsFor. simpl. rewrite filter_app, fmap_app. f_equal.
  rewrite filter_cons. simpl. by destruct (decide (s = sid)).
Qed.

Lemma timerExpired_consistent (now : Z) (m : Mic) :
  Consistent sid m →
  Consistent sid (timerExpired sendThrows startTranscriptionThrows now sid m).2.
Proof.
  intros H d. unfold timerExpired.
  destruct (microphoneStateChangeDebouncers m !! sid) as [d0|] eqn:E; [|by apply H].
  specialize (H d0 E).
  unfold mbind, M_bind, setDebouncer, wsSend, callTranscription, deleteDebouncer, mret, M_ret.
  simpl. case_bool_decide as Heq; simpl.
  - destruct (lastSentState d0 && _); simpl.
    + rewrite lookup_insert_eq. intros [= <-]. exact H.
    + by rewrite lookup_delete_eq.
  - destruct (sendThrows sid now); simpl.
    + rewrite lookup_insert_eq. intros [= <-]. exact H.
    + destruct (lastState d0 && _); simpl.
      * rewrite lookup_insert_eq. intros [= <-]. simpl.
        unfold sentTo. simpl. rewrite filter_app, fmap_app, filter_cons. simpl.
        destruct (decide (sid = sid)); [|done]. simpl. by rewrite last_snoc.
      * by rewrite lookup_delete_eq.
Qed.

Lemma advance_consistent (t : Z) (m : Mic) :
  Consistent sid m → Consistent sid (advance sendThrows startTranscriptionThrows t sid m).
Proof.
  intros H. unfold advance.
  destruct (microphoneStateChangeDebouncers m !! sid) as [d|] eqn:E; [|done].
  destruct (timer d) as [due|]; [|done].
  case_bool_decide; [by apply timerExpired_consistent|done].
Qed.

(** What a request leaves when its send does not throw: a record with the
    requested state and a timer due one delay later, which remembers the
    last state sent. *)
Lemma request_leaves_record (t : Z) (b : bool) (m : Mic) :
  Consistent sid m →
  sendThrows sid t = false →
  ∃ ls, microphoneStateChangeDebouncers
          (sendDebouncedMicrophoneStateChange sendThrows t sid b DEFAULT_DELAY m).2 !! sid =
        Some (mkDebouncer (Some (t + DEFAULT_DELAY)%Z) b ls) ∧
        last (sentTo sid (sendDebouncedMicrophoneStateChange sendThrows t sid b DEFAULT_DELAY m).2)
          = Some ls.
Proof.
  intros H Hs. unfold sendDebouncedMicrophoneStateChange.
  destruct (microphoneStateChangeDebouncers m !! sid) as [d|] eqn:E.
  - exists (lastSentState d). simpl. rewrite lookup_insert_eq. split; [done|].
    exact (H d E).
  - exists b. unfold mbind, M_bind, wsSend, setDebouncer. rewrite Hs. simpl.
    rewrite lookup_insert_eq. split; [done|].
    rewrite sentTo_snoc, decide_True by done. by rewrite last_snoc.
Qed.

Lemma request_consistent (t : Z) (b : bool) (m : Mic) :
  Consistent sid m →
  Consistent sid (sendDebouncedMicrophoneStateChange sendThrows t sid b DEFAULT_DELAY m).2.
Proof.
  intros H. destruct (sendThrows sid t) eqn:Hs.
  - unfold sendDebouncedMicrophoneStateChange.
    destruct (microphoneStateChangeDebouncers m !! sid) as [d0|] eqn:E.
    + intros d. simpl. rewrite lookup_insert_eq. intros [= <-]. exact (H d0 E).
    + unfold mbind, M_bind, wsSend. rewrite Hs. exact H.
  - destruct (request_leaves_record t b m H Hs) as (ls & Hd & Hl).
    intros d. rewrite Hd. by intros [= <-].
Qed.

Lemma serve_snoc (requests : list (Z * bool)) (r : Z * bool) (m : Mic) :
  serve sendThrows startTranscriptionThrows sid (requests ++ [r]) m =
  (sendDebouncedMicrophoneStateChange sendThrows r.1 sid r.2 DEFAULT_DELAY
     (advance sendThrows startTranscriptionThrows r.1 sid
        (serve sendThrows startTranscriptionThrows sid requests m))).2.
Proof. unfold serve. by rewrite foldl_app. Qed.

Lemma serve_consistent (requests : list (Z * bool)) (m : Mic) :
  Consistent sid m → Consistent sid (serve sendThrows startTranscriptionThrows sid requests m).
Proof.
  revert m. induction requests as [|r requests IH]; intros m H; [done|].
  apply IH. by apply request_consistent, advance_consistent.
Qed.

(** X13.  Any sequence of requests for a session, arriving at any times, on a
    table that is consistent for it (the empty table is), whatever the
    sends and the transcription calls made for the earlier requests did:
    when the send of the last request does not throw and neither do the
    send and the transcription call of its timer callback, then once that
    timer has fired the last state sent to the glasses is the state
    requested last, the transcription service was last told the same,
    and the record of the session is gone. *)
Theorem mic_settles_on_last_request
    (requests : list (Z * bool)) (t : Z) (b : bool) (T : Z) (m : Mic) :
  Consistent sid m →
  (t + DEFAULT_DELAY ≤ T)%Z →
  sendThrows sid t = false →
  sendThrows sid (t + DEFAULT_DELAY) = false →
  startTranscriptionThrows sid (t + DEFAULT_DELAY) = false →
  let m' := advance sendThrows startTranscriptionThrows T sid
              (serve sendThrows startTranscriptionThrows sid (requests ++ [(t, b)]) m) in
  last (sentTo sid m') = Some b ∧
  last (transcriptionCallsFor sid m') = Some b ∧
  microphoneStateChangeDebouncers m' !! sid = None.
Proof.
  intros Hc HT Hs1 Hs2 Ht2. cbv zeta. rewrite serve_snoc. simpl.
  pose proof (advance_consistent t _ (serve_consistent requests m Hc)) as Hc1.
  destruct (request_leaves_record t b _ Hc1 Hs1) as (ls & Hd & Hl).
  set (m1 := (sendDebouncedMicrophoneStateChange sendThrows t sid b DEFAULT_DELAY _).2) in *.
  unfold advance. rewrite Hd. simpl. rewrite bool_decide_eq_true_2 by done.
  rewrite (timerExpired_returns sendThrows startTranscriptionThrows sid _ _ m1 Hd Hs2 Ht2).
  simpl. rewrite lookup_delete_eq.
  split_and!; [|by rewrite callsFor_snoc, decide_True, last_snoc|done].
  destruct (bool_decide (b = ls)) eqn:Eb; simpl.
  - apply bool_decide_eq_true_1 in Eb as ->.
    unfold sentTo in *. simpl. done.
  - rewrite sentTo_snoc, decide_True by done. by rewrite last_snoc.
Qed.

End MicHistoryFacts.

Section MicIndependence.

Import MicDebounce MicHistory.

Variable sendThrows : string → Z → bool.
Variable startTranscriptionThrows : string → Z → bool.

Lemma advance_other (a b : string) (t : Z) (m : Mic) :
  a ≠ b →
  microphoneStateChangeDebouncers (advance sendThrows startTranscriptionThrows t a m) !! b =
    microphoneStateChangeDebouncers m !! b ∧
  sentTo b (advance sendThrows startTranscriptionThrows t a m) = sentTo b m ∧
  transcriptionCallsFor b (advance sendThrows startTranscriptionThrows t a m) = transcriptionCallsFor b m.
Proof.
  intros Hab. unfold advance.
  destruct (microphoneStateChangeDebouncers m !! a) as [d|] eqn:E; [|done].
  destruct (timer d) as [due|]; [|done].
  case_bool_decide; [|done].
  unfold timerExpired. rewrite E.
  unfold mbind, M_bind, setDebouncer, wsSend, callTranscription, deleteDebouncer, mret, M_ret.
  simpl. destruct (negb _); simpl; [destruct (sendThrows a due); simpl|];
    try destruct (_ && _); simpl;
    rewrite ?lookup_delete_ne, ?lookup_insert_ne by done;
    rewrite ?sentTo_snoc, ?callsFor_snoc, ?decide_False, ?app_nil_r by done;
    done.
Qed.

Lemma request_other (a b : string) (t delay : Z) (x : bool) (m : Mic) :
  a ≠ b →
  microphoneStateChangeDebouncers (sendDebouncedMicrophoneStateChange sendThrows t a x delay m).2 !! b =
    microphoneStateChangeDebouncers m !! b ∧
  sentTo b (sendDebouncedMicrophoneStateChange sendThrows t a x delay m).2 = sentTo b m ∧
  transcriptionCallsFor b (sendDebouncedMicrophoneStateChange sendThrows t a x delay m).2 =
    transcriptionCallsFor b m.
Proof.
  intros Hab. unfold sendDebouncedMicrophoneStateChange.
  destruct (microphoneStateChangeDebouncers m !! a) as [d|] eqn:E; simpl.
  - split_and!; [by rewrite lookup_insert_ne|done..].
  - unfold mbind, M_bind, wsSend, setDebouncer.
    destruct (sendThrows a t); simpl; [done|].
    split_and!; [by rewrite lookup_insert_ne| |done].
    by rewrite sentTo_snoc, decide_False, app_nil_r.
Qed.

(** X14.  The debouncers of two sessions do not interfere: requests served for
    one session, and its timer callbacks, leave the record of any other
    session as it is and add nothing to what that session's glasses are
    sent or to the transcription calls made for it. *)
Theorem debouncers_are_per_session
    (a b : string) (requests : list (Z * bool)) (T : Z) (m : Mic) :
  a ≠ b →
  let m' := advance sendThrows startTranscriptionThrows T a
              (serve sendThrows startTranscriptionThrows a requests m) in
  microphoneStateChangeDebouncers m' !! b = microphoneStateChangeDebouncers m !! b ∧
  sentTo b m' = sentTo b m ∧
  transcriptionCallsFor b m' = transcriptionCallsFor b m.
Proof.
  intros Hab. cbv zeta.
  assert (Hs : ∀ m0,
    microphoneStateChangeDebouncers (serve sendThrows startTranscriptionThrows a requests m0) !! b =
      microphoneStateChangeDebouncers m0 !! b ∧
    sentTo b (serve sendThrows startTranscriptionThrows a requests m0) = sentTo b m0 ∧
    transcriptionCallsFor b (serve sendThrows startTranscriptionThrows a requests m0) = transcriptionCallsFor b m0).
  { induction requests as [|r requests IH]; intros m0; [done|].
    simpl. destruct (IH (sendDebouncedMicrophoneStateChange sendThrows r.1 a r.2 DEFAULT_DELAY
                           (advance sendThrows startTranscriptionThrows r.1 a m0)).2) as (-> & -> & ->).
    destruct (request_other a b r.1 DEFAULT_DELAY r.2
                (advance sendThrows startTranscriptionThrows r.1 a m0) Hab)
      as (-> & -> & ->).
    by apply advance_other. }
  destruct (advance_other a b T (serve sendThrows startTranscriptionThrows a requests m) Hab) as (-> & -> & ->).
  apply Hs.
Qed.

End MicIndependence.

(** ** Grace timers across a reconnect *)

Section GraceTimerFacts.

Import GlassesChannel.

(** X15.  The grace timer armed by a close is not cancelled by a reconnect.
    When the channel closes, the glasses reconnect, and the channel closes
    again before the first timer is due, the first timer finds the socket
    closed and ends the session sixty seconds after the first close, which
    is less than sixty seconds after the second; the timer of the second
    close then calls [endSession] once more. *)
Theorem stale_grace_timer_ends_session (k : Conn) (t1 T : Z) :
  graceTimers k = [] →
  (now k < t1 < now k + 60000)%Z →
  (t1 + 60000 ≤ T)%Z →
  let reclosed :=
    react SocketClosed
      (react (TimePasses t1) (react SocketReplaced (react SocketClosed k))) in
  endedAt reclosed = endedAt k ∧
  graceTimers reclosed = [(now k + 60000)%Z; (t1 + 60000)%Z] ∧
  endedAt (react (TimePasses (now k + 60000)) reclosed) =
    endedAt k ++ [(now k + 60000)%Z] ∧
  endedAt (react (TimePasses T) reclosed) =
    endedAt k ++ [(now k + 60000)%Z; (t1 + 60000)%Z].
Proof.
  intros Hg [Ht0 Ht1] HT. cbv zeta. cbn [react].
  set (k0 := mkConn (now k) CLOSED (graceTimers k) (calls k)).
  destruct (onClose_spec k0) as (He1 & Hg1 & _ & Hn1 & _).
  change (endedAt k0) with (endedAt k) in He1.
  change (now k0) with (now k) in Hg1, Hn1.
  change (graceTimers k0) with (graceTimers k) in Hg1.
  rewrite Hg in Hg1. cbn [app] in Hg1.
  change RECONNECT_GRACE_PERIOD_MS with 60000%Z in Hg1.
  set (r := mkConn (now (onClose k0)) OPEN (graceTimers (onClose k0)) (calls (onClose k0))).
  destruct (advanceTo_spec t1 r) as (Hn2 & _ & Hg2 & He2).
  change (endedAt r) with (endedAt (onClose k0)) in He2.
  change (graceTimers r) with (graceTimers (onClose k0)) in Hg2.
  change (closedOrClosing (socket r)) with false in He2.
  rewrite app_nil_r, He1 in He2.
  rewrite Hg1, filter_cons, decide_True, filter_nil in Hg2 by lia.
  set (a := advanceTo t1 r) in *.
  set (k2 := mkConn (now a) CLOSED (graceTimers a) (calls a)).
  destruct (onClose_spec k2) as (He3 & Hg3 & Hs3 & _ & _).
  change (endedAt k2) with (endedAt a) in He3.
  change (now k2) with (now a) in Hg3.
  change (graceTimers k2) with (graceTimers a) in Hg3.
  change (socket k2) with CLOSED in Hs3.
  rewrite Hg2, Hn2 in Hg3. cbn [app] in Hg3.
  change RECONNECT_GRACE_PERIOD_MS with 60000%Z in Hg3.
  rewrite He2 in He3.
  assert (Hfire : ∀ t, endedAt (advanceTo t (onClose k2)) =
            endedAt k ++ filter (λ d, (d ≤ t)%Z) [(now k + 60000)%Z; (t1 + 60000)%Z]).
  { intros t. destruct (advanceTo_spec t (onClose k2)) as (_ & _ & _ & He4).
    rewrite He4, He3, Hs3, Hg3. done. }
  split_and!; [exact He3|exact Hg3| |].
  - rewrite Hfire, filter_cons, decide_True by lia.
    rewrite filter_cons, decide_False by lia. by rewrite filter_nil.
  - rewrite Hfire, filter_cons, decide_True by lia.
    rewrite filter_cons, decide_True by lia. by rewrite filter_nil.
Qed.

End GraceTimerFacts.

(** ** PCM samples and schedules of the gate *)

Section VadAudioFacts.

Import VadGate VadAudio.

Lemma byte_value (b : Byte.byte) : (0 ≤ Z.of_N (Byte.to_N b) < 256)%Z.
Proof. pose proof (Byte.to_N_bounded b). lia. Qed.

Lemma byteOf_value (z : Z) : Z.of_N (Byte.to_N (byteOf z)) = (z mod 256)%Z.
Proof.
  unfold byteOf. pose proof (Z.mod_pos_bound z 256 ltac:(lia)) as Hb.
  destruct (Byte.of_N (Z.to_N (z mod 256))) as [b|] eqn:E.
  - apply Byte.to_of_N in E. simpl. rewrite E. lia.
  - apply Byte.of_N_None_iff in E. lia.
Qed.

Lemma byteOf_to_N (b : Byte.byte) (z : Z) :
  (z mod 256)%Z = Z.of_N (Byte.to_N b) → byteOf z = b.
Proof.
  intros H. unfold byteOf. rewrite H, N2Z.id, Byte.of_to_N. done.
Qed.

Lemma toShort_bytes (lo hi : Byte.byte) :
  byteOf (toShort lo hi) = lo ∧ byteOf (toShort lo hi / 256) = hi.
Proof.
  pose proof (byte_value lo) as Hlo. pose proof (byte_value hi) as Hhi.
  unfold toShort. cbv zeta.
  set (l := Z.of_N (Byte.to_N lo)) in *. set (h := Z.of_N (Byte.to_N hi)) in *.
  destruct (l + 256 * h <? 32768)%Z.
  - split; apply byteOf_to_N.
    + replace (l + 256 * h)%Z with (l + h * 256)%Z by lia.
      rewrite Z_mod_plus_full. by apply Z.mod_small.
    + replace ((l + 256 * h) / 256)%Z with h; [by apply Z.mod_small|].
      apply (Z.div_unique _ _ _ l); lia.
  - split; apply byteOf_to_N.
    + replace (l + 256 * h - 65536)%Z with (l + (h - 256) * 256)%Z by lia.
      rewrite Z_mod_plus_full. by apply Z.mod_small.
    + replace ((l + 256 * h - 65536) / 256)%Z with (h - 256)%Z.
      * replace (h - 256)%Z with (h + (-1) * 256)%Z by lia.
        rewrite Z_mod_plus_full. by apply Z.mod_small.
      * apply (Z.div_unique _ _ _ l); lia.
Qed.

Lemma bytes_toShort (s : Z) :
  (-32768 ≤ s < 32768)%Z → toShort (byteOf s) (byteOf (s / 256)) = s.
Proof.
  intros Hs. unfold toShort. rewrite !byteOf_value. cbv zeta.
  assert (E : (s mod 256 + 256 * ((s / 256) mod 256) = s mod 65536)%Z).
  { change 65536%Z with (256 * 256)%Z. rewrite Z.rem_mul_r by lia. lia. }
  rewrite E.
  destruct (Z.ltb_spec (s mod 65536) 32768) as [Hlt|Hge].
  - destruct (decide (0 ≤ s)%Z).
    + apply Z.mod_small. lia.
    + replace s with (s + 65536 + (-1) * 65536)%Z in Hlt by lia.
      rewrite Z_mod_plus_full, Z.mod_small in Hlt; lia.
  - destruct (decide (0 ≤ s)%Z).
    + rewrite Z.mod_small in Hge; lia.
    + replace (s mod 65536)%Z with (s + 65536)%Z; [lia|].
      replace s with (s + 65536 + (-1) * 65536)%Z at 2 by lia.
      rewrite Z_mod_plus_full, Z.mod_small; lia.
Qed.

Lemma pairs_ind (P : chunk → Prop) :
  P [] → (∀ x, P [x]) → (∀ lo hi bytes, P bytes → P (lo :: hi :: bytes)) →
  ∀ bytes, P bytes.
Proof.
  intros H0 H1 H2. fix IH 1. intros [|lo [|hi bytes]]; [done..|]. apply H2, IH.
Qed.

Lemma half_length_cons2 (lo hi : Byte.byte) (bytes : chunk) :
  (length (lo :: hi :: bytes) / 2 = S (length bytes / 2))%nat.
Proof.
  change (length (lo :: hi :: bytes)) with (2 + length bytes)%nat.
  replace (2 + length bytes)%nat with (length bytes + 1 * 2)%nat by lia.
  rewrite Nat.div_add by lia. lia.
Qed.

Lemma shortsToBytes_bytesToShort (bytes : chunk) :
  shortsToBytes (bytesToShort bytes) = take (2 * (length bytes / 2)) bytes.
Proof.
  induction bytes as [| |lo hi bytes IH] using pairs_ind; [done..|].
  rewrite half_length_cons2.
  replace (2 * S (length bytes / 2))%nat with (S (S (2 * (length bytes / 2)))) by lia.
  simpl bytesToShort. cbn [shortsToBytes flat_map app].
  destruct (toShort_bytes lo hi) as [-> ->].
  fold (shortsToBytes (bytesToShort bytes)). by rewrite IH.
Qed.

Lemma length_bytesToShort (bytes : chunk) :
  length (bytesToShort bytes) = (length bytes / 2)%nat.
Proof.
  induction bytes as [| |lo hi bytes IH] using pairs_ind; [done..|].
  rewrite half_length_cons2. simpl. by rewrite IH.
Qed.

(** X16.  The two sample conversions are inverse to each other: shorts written
    as little-endian byte pairs read back as the same shorts, and bytes
    read as shorts write back as the same bytes, up to an odd last byte,
    which the reading leaves out. *)
Theorem shorts_bytes_round_trip (shorts : list Z) (bytes : chunk) :
  (Forall (λ s, (-32768 ≤ s < 32768)%Z) shorts →
     bytesToShort (shortsToBytes shorts) = shorts) ∧
  shortsToBytes (bytesToShort bytes) = take (2 * (length bytes / 2)) bytes ∧
  length (bytesToShort bytes) = (length bytes / 2)%nat.
Proof.
  split_and!.
  - induction 1 as [|s shorts Hs _ IH]; [done|].
    simpl. by rewrite bytes_toShort, IH.
  - apply shortsToBytes_bytesToShort.
  - apply length_bytesToShort.
Qed.

Lemma offers_keep_newest (samples vadBuffer : list Z) :
  (Z.of_nat (length vadBuffer) ≤ VAD_BUFFER_LIMIT)%Z →
  foldl queueStep vadBuffer (Offer <$> samples) =
  drop (length (vadBuffer ++ samples) - Z.to_nat VAD_BUFFER_LIMIT) (vadBuffer ++ samples).
Proof.
  unfold VAD_BUFFER_LIMIT.
  revert vadBuffer. induction samples as [|s samples IH]; intros q Hq.
  - simpl. rewrite app_nil_r. replace (length q - Z.to_nat 16000)%nat with 0%nat by lia. done.
  - cbn [fmap list_fmap foldl queueStep]. unfold offerSample, VAD_BUFFER_LIMIT.
    destruct (Z.leb_spec 16000 (Z.of_nat (length q))) as [Hfull|Hroom].
    + destruct q as [|a q]; [simpl in Hfull; lia|]. cbn [tail].
      rewrite IH by (rewrite length_app; simpl in *; lia).
      rewrite <- app_assoc. cbn [app].
      assert (Hl : (length (a :: q ++ s :: samples) - Z.to_nat 16000 =
                    S (length (q ++ s :: samples) - Z.to_nat 16000))%nat).
      { simpl in *. rewrite length_app. simpl. lia. }
      rewrite Hl. done.
    + rewrite IH by (rewrite length_app; simpl; lia).
      by rewrite <- app_assoc.
Qed.

(** X17.  The queue that feeds the VAD never holds more than 16000 samples,
    whatever the ingest thread offers and the processing thread polls in
    between; samples offered without a poll in between push out the
    oldest ones, so the queue holds the newest 16000 of them. *)
Theorem vad_queue_keeps_newest_samples
    (ops : list QueueOp) (samples vadBuffer : list Z) :
  (Z.of_nat (length vadBuffer) ≤ VAD_BUFFER_LIMIT)%Z →
  (Z.of_nat (length (foldl queueStep vadBuffer ops)) ≤ VAD_BUFFER_LIMIT)%Z ∧
  foldl queueStep vadBuffer (Offer <$> samples) =
    drop (length (vadBuffer ++ samples) - Z.to_nat VAD_BUFFER_LIMIT) (vadBuffer ++ samples).
Proof.
  intros Hq. split; [|by apply offers_keep_newest].
  revert vadBuffer Hq. induction ops as [|op ops IH]; intros q Hq; [done|].
  simpl. apply IH. destruct op as [s|]; simpl.
  - unfold offerSample, VAD_BUFFER_LIMIT in *.
    destruct (Z.leb_spec 16000 (Z.of_nat (length q))).
    + destruct q; rewrite length_app; simpl in *; lia.
    + rewrite length_app. simpl. lia.
  - destruct q; simpl in *; lia.
Qed.

Lemma shortsToBytes_app (a b : list Z) :
  shortsToBytes (a ++ b) = shortsToBytes a ++ shortsToBytes b.
Proof. unfold shortsToBytes. apply flat_map_app. Qed.

Lemma length_shortsToBytes (a : list Z) : length (shortsToBytes a) = (2 * length a)%nat.
Proof. induction a as [|x a IH]; [done|]. simpl. rewrite IH. lia. Qed.

Lemma processSamples_spec (polled vadChunk : list Z) :
  (length vadChunk < vadFrameSize)%nat →
  concat (processSamples polled vadChunk).1 ++ shortsToBytes (processSamples polled vadChunk).2
    = shortsToBytes (vadChunk ++ polled) ∧
  Forall (λ frame, length frame = (2 * vadFrameSize)%nat) (processSamples polled vadChunk).1 ∧
  (length (processSamples polled vadChunk).2 < vadFrameSize)%nat.
Proof.
  revert vadChunk. induction polled as [|s polled IH]; intros v Hv.
  - simpl. rewrite app_nil_r. split_and!; [done|constructor|done].
  - simpl. destruct (Nat.eqb_spec (length (v ++ [s])) vadFrameSize) as [Hfull|Hroom].
    + destruct (IH []) as (Hc & Hf & Hl); [simpl; unfold vadFrameSize; lia|].
      destruct (processSamples polled []) as [frames rest]. simpl in *.
      split_and!.
      * rewrite <- app_assoc, Hc, <- shortsToBytes_app, <- app_assoc. done.
      * constructor; [|done]. by rewrite length_shortsToBytes, Hfull.
      * done.
    + destruct (IH (v ++ [s])) as (Hc & Hf & Hl).
      { rewrite length_app in *. simpl in *. lia. }
      split_and!; [|done..]. rewrite Hc, <- app_assoc. done.
Qed.

(** X18.  A PCM chunk of even length that fits the queue reaches the VAD
    unchanged: read as samples, queued, polled and written back, its bytes
    are handed over in frames of 1024 bytes, in order, the rest waiting
    in a frame that is not yet full. *)
Theorem pcm_reaches_vad_unchanged (bytes : chunk) :
  Nat.even (length bytes) = true →
  (Z.of_nat (length bytes) ≤ 2 * VAD_BUFFER_LIMIT)%Z →
  let queued := foldl queueStep [] (Offer <$> bytesToShort bytes) in
  let frames := (processSamples queued []).1 in
  let unfinished := (processSamples queued []).2 in
  concat frames ++ shortsToBytes unfinished = bytes ∧
  Forall (λ frame, length frame = 1024%nat) frames ∧
  (length unfinished < 512)%nat.
Proof.
  intros Heven Hlen. cbv zeta.
  assert (Hhalf : (2 * (length bytes / 2) = length bytes)%nat).
  { apply Nat.even_spec in Heven as [n Hn]. rewrite Hn.
    replace (2 * n)%nat with (n * 2)%nat by lia. rewrite Nat.div_mul by lia. lia. }
  pose proof (length_bytesToShort bytes) as Hn.
  rewrite offers_keep_newest by (simpl; unfold VAD_BUFFER_LIMIT; lia).
  simpl app. replace (length (bytesToShort bytes) - Z.to_nat VAD_BUFFER_LIMIT)%nat
    with 0%nat by (unfold VAD_BUFFER_LIMIT in *; lia).
  rewrite drop_0.
  destruct (processSamples_spec (bytesToShort bytes) []) as (Hc & Hf & Hl);
    [simpl; unfold vadFrameSize; lia|].
  split_and!; [|done..].
  rewrite Hc. simpl app.
  rewrite shortsToBytes_bytesToShort, Hhalf. apply firstn_all.
Qed.

End VadAudioFacts.

(** ** Schedules of the gate *)

Section GateRunFacts.

Import VadGate VadAudio.

Lemma act_ingest (c : chunk) (g : Gate) :
  act (Ingest c) g =
    (if enabled g (Ingest c) then bufferAndMaybeSend c (feedVad c g)
     else (if vadInitialized g then feedVad c g else g, [])) ∧
  act (IngestLC3 c) g =
    (if enabled g (IngestLC3 c) then bufferAndMaybeSend c g else (g, [])).
Proof.
  simpl. unfold ingestAudioChunk, ingestLC3AudioChunk.
  by destruct (vadInitialized g), (sendPcmToBackend g).
Qed.

Lemma enabled_act (a b : Action) (g : Gate) : enabled (act a g).1 b = enabled g b.
Proof.
  destruct (act_config a g) as (Hv & Hp & _). unfold enabled. by rewrite Hv, Hp.
Qed.

Lemma ingested_act (a : Action) (actions : list Action) (g : Gate) :
  ingested (act a g).1 actions = ingested g actions.
Proof.
  unfold ingested. induction actions as [|b actions IH]; [done|].
  cbn [omap list_omap]. rewrite IH. by rewrite enabled_act.
Qed.

(** What one action does to the rolling buffer. *)
Lemma act_buffer (a : Action) (g : Gate) :
  lc3RollingBuffer (act a g).1 =
  match ingested g [a] with
  | c :: _ => addRolling c (lc3RollingBuffer g)
  | [] => lc3RollingBuffer g
  end.
Proof.
  destruct a as [c|c|v].
  - destruct (act_ingest c g) as [-> _]. unfold ingested. simpl.
    by destruct (vadInitialized g), (sendPcmToBackend g).
  - destruct (act_ingest c g) as [_ ->]. unfold ingested. simpl.
    by destruct (negb (sendPcmToBackend g)).
  - simpl. unfold listenerStep. destruct (pc g) as [| |[|? ?]|]; simpl; try done.
    case_bool_decide; [done|]. by destruct v.
Qed.

Lemma ingested_cons (a : Action) (actions : list Action) (g : Gate) :
  ingested g (a :: actions) = ingested g [a] ++ ingested g actions.
Proof. unfold ingested. simpl. by destruct a; simpl; try destruct (_ : bool). Qed.

(** X19.  The rolling buffer holds the chunks that came in last on the path
    that is switched on, at most 22 of them and in order of arrival,
    whatever the listener thread does in between. *)
Theorem rolling_buffer_holds_latest_chunks (actions : list Action) (g : Gate) :
  (length (lc3RollingBuffer g) ≤ LC3_BUFFER_MAX_SIZE)%nat →
  let arrived := lc3RollingBuffer g ++ ingested g actions in
  lc3RollingBuffer (runGate actions g).1 =
    drop (length arrived - LC3_BUFFER_MAX_SIZE) arrived ∧
  (length (lc3RollingBuffer (runGate actions g).1) ≤ LC3_BUFFER_MAX_SIZE)%nat.
Proof.
  cbv zeta. revert g. induction actions as [|a actions IH]; intros g Hb.
  - simpl. unfold ingested. simpl. rewrite app_nil_r.
    replace (length (lc3RollingBuffer g) - LC3_BUFFER_MAX_SIZE)%nat with 0%nat by lia.
    by rewrite drop_0.
  - rewrite runGate_cons. cbn [fst]. rewrite ingested_cons.
    pose proof (act_buffer a g) as Ha.
    destruct (ingested g [a]) as [|c l] eqn:Ei.
    + destruct (IH (act a g).1) as [E L]; [by rewrite Ha|].
      split; [|done]. by rewrite E, Ha, ingested_act.
    + assert (l = []) as ->.
      { unfold ingested in Ei. simpl in Ei.
        destruct a; simpl in Ei; try destruct (_ : bool); by simplify_eq. }
      destruct (addRolling_window c (lc3RollingBuffer g) (ingested g actions) Hb)
        as [Hlen Hdrop].
      destruct (IH (act a g).1) as [E L]; [by rewrite Ha|].
      split; [|done]. rewrite E, Ha, ingested_act. exact Hdrop.
Qed.

Lemma statuses_app (o1 o2 : list Sent) : statuses (o1 ++ o2) = statuses o1 ++ statuses o2.
Proof. unfold statuses. apply omap_app. Qed.

(** X20.  The listener thread never announces the same VAD state twice in a
    row: along any schedule the announcements sent to the server
    alternate, the first one being the opposite of the state announced
    last (speech, for a gate that has announced nothing yet). *)
Theorem vad_announcements_alternate (actions : list Action) (g : Gate) :
  alternating (announced g) (statuses (runGate actions g).2).
Proof.
  revert g. induction actions as [|a actions IH]; intros g; [done|].
  rewrite runGate_cons. cbn [snd]. rewrite statuses_app.
  specialize (IH (act a g).1).
  destruct a as [c|c|v].
  - destruct (act_ingest c g) as [E _]. rewrite E in *.
    unfold bufferAndMaybeSend in *.
    destruct (enabled g (Ingest c)); simpl in *; [|by destruct (vadInitialized g)].
    unfold gateOpen in *. simpl in *. by destruct (_ || _).
  - destruct (act_ingest c g) as [_ E]. rewrite E in *.
    unfold bufferAndMaybeSend in *.
    destruct (enabled g (IngestLC3 c)); simpl in *; [|done].
    unfold gateOpen in *. by destruct (_ || _).
  - simpl in *. unfold listenerStep, announced in *.
    destruct (pc g) as [| |[|? ?]|] eqn:Epc; simpl in *; try done.
    case_bool_decide as Hv; simpl in *; [by rewrite Epc in IH|].
    destruct v; simpl in *; split; try done; by destruct (previousVadState g).
Qed.

(** X21.  While the gate is speaking, or with the bypass flag set, every chunk
    that comes in on the path that is switched on is sent on at once, in
    order, and nothing else is sent by the ingest threads. *)
Theorem open_gate_forwards_every_chunk (actions : list Action) (g : Gate) :
  ingestOnly actions →
  bypassVadForDebugging g || isSpeaking g = true →
  (runGate actions g).2 = AudioChunk <$> ingested g actions.
Proof.
  intros Hall. revert g. induction Hall as [|a actions Ha _ IH]; intros g Hopen; [done|].
  rewrite runGate_cons. cbn [snd]. rewrite ingested_cons, fmap_app.
  assert (Hstep : (act a g).2 = AudioChunk <$> ingested g [a] ∧
                  bypassVadForDebugging (act a g).1 || isSpeaking (act a g).1 = true).
  { destruct a as [c|c|v]; [| |done].
    - destruct (act_ingest c g) as [-> _].
      unfold ingested, bufferAndMaybeSend, gateOpen. simpl.
      destruct (vadInitialized g), (sendPcmToBackend g); simpl; by rewrite ?Hopen.
    - destruct (act_ingest c g) as [_ ->].
      unfold ingested, bufferAndMaybeSend, gateOpen. simpl.
      destruct (negb (sendPcmToBackend g)); simpl; by rewrite ?Hopen. }
  destruct Hstep as [-> Hopen']. by rewrite (IH _ Hopen'), ingested_act.
Qed.

Lemma act_withVadBuffer (q : list Z) (a : Action) (g : Gate) :
  ∃ q', act a (withVadBuffer q g) = (withVadBuffer q' (act a g).1, (act a g).2).
Proof.
  destruct g as [vi by_ pcm sp pv buf p vq].
  destruct a as [c|c|v]; simpl.
  - unfold ingestAudioChunk, bufferAndMaybeSend, withVadBuffer. simpl.
    destruct vi, pcm; simpl; eexists; reflexivity.
  - unfold ingestLC3AudioChunk, bufferAndMaybeSend, withVadBuffer. simpl.
    destruct pcm; simpl; eexists; reflexivity.
  - unfold listenerStep, withVadBuffer. simpl.
    destruct p as [| |[|? ?]|]; simpl; try (eexists; reflexivity).
    case_bool_decide; [eexists; reflexivity|].
    destruct v; eexists; reflexivity.
Qed.

Lemma runGate_withVadBuffer (actions : list Action) (q : list Z) (g : Gate) :
  ∃ q', runGate actions (withVadBuffer q g) =
        (withVadBuffer q' (runGate actions g).1, (runGate actions g).2).
Proof.
  revert q g. induction actions as [|a actions IH]; intros q g; [by exists q|].
  rewrite !runGate_cons.
  destruct (act_withVadBuffer q a g) as [q1 ->]. cbn [fst snd].
  destruct (IH q1 (act a g).1) as [q2 ->]. by exists q2.
Qed.

Lemma withVadBuffer_twice (q q' : list Z) (g : Gate) :
  withVadBuffer q (withVadBuffer q' g) = withVadBuffer q g.
Proof. done. Qed.

(** An action on the path that is switched off sends nothing and changes
    nothing but the VAD queue. *)
Lemma act_disabled (a : Action) (g : Gate) :
  enabled g a ≠ true →
  act a g = (withVadBuffer (vadBuffer (act a g).1) g, []) ∧
  (vadInitialized g = false ∨ sendPcmToBackend g = true → act a g = (g, [])).
Proof.
  intros He. destruct g as [vi by_ pcm sp pv buf p vq].
  destruct a as [c|c|v]; [| |done]; simpl in *.
  - unfold ingestAudioChunk, bufferAndMaybeSend, withVadBuffer. simpl.
    destruct vi, pcm; simpl in *; try done.
    split; [done|]. by intros [?|?].
  - unfold ingestLC3AudioChunk, bufferAndMaybeSend, withVadBuffer. simpl.
    by destruct pcm.
Qed.

Lemma filter_enabled_act (a : Action) (actions : list Action) (g : Gate) :
  filter (λ b, enabled (act a g).1 b = true) actions =
  filter (λ b, enabled g b = true) actions.
Proof. apply list_filter_iff. intros b. by rewrite enabled_act. Qed.

Lemma kept_run (actions : list Action) (g : Gate) :
  ∃ q, runGate (filter (λ a, enabled g a = true) actions) g =
       (withVadBuffer q (runGate actions g).1, (runGate actions g).2).
Proof.
  revert g. induction actions as [|a actions IH]; intros g.
  - exists (vadBuffer g). by destruct g.
  - rewrite filter_cons. destruct (decide (enabled g a = true)) as [He|He].
    + rewrite !runGate_cons. rewrite <- filter_enabled_act with (a := a).
      destruct (IH (act a g).1) as [q ->]. by exists q.
    + rewrite runGate_cons. destruct (act_disabled a g He) as [Hskip _].
      rewrite Hskip. cbn [fst snd app].
      destruct (IH g) as [q ->].
      destruct (runGate_withVadBuffer actions (vadBuffer (act a g).1) g) as [q' ->].
      cbn [fst snd]. exists q. by rewrite withVadBuffer_twice.
Qed.

Lemma act_vadBuffer (a : Action) (g : Gate) :
  vadBuffer (act a g).1 =
  if vadInitialized g
  then foldl offerSample (vadBuffer g) (flat_map bytesToShort (pcmChunks [a]))
  else vadBuffer g.
Proof.
  destruct a as [c|c|v]; simpl.
  - unfold ingestAudioChunk, bufferAndMaybeSend.
    destruct (vadInitialized g), (sendPcmToBackend g); simpl; by rewrite ?app_nil_r.
  - unfold ingestLC3AudioChunk, bufferAndMaybeSend.
    by destruct (vadInitialized g), (sendPcmToBackend g).
  - unfold listenerStep. destruct (pc g) as [| |[|? ?]|]; simpl;
      try by destruct (vadInitialized g).
    case_bool_decide; [by destruct (vadInitialized g)|].
    by destruct v, (vadInitialized g).
Qed.

(** X22.  Chunks that come in on the path that is switched off are neither
    sent nor buffered: taking them out of a schedule changes neither
    what is sent nor anything of the gate the schedule ends in but its
    VAD queue.  The VAD queue is fed by every PCM chunk once the VAD is
    initialised, also while [sendPcmToBackend] is unset; LC3 chunks that
    come in while PCM is sent, and PCM chunks that come in before the
    VAD is initialised, change nothing at all. *)
Theorem disabled_path_is_ignored (actions : list Action) (g : Gate) :
  let kept := filter (λ a, enabled g a = true) actions in
  (runGate kept g).2 = (runGate actions g).2 ∧
  withVadBuffer [] (runGate kept g).1 = withVadBuffer [] (runGate actions g).1 ∧
  vadBuffer (runGate actions g).1 =
    (if vadInitialized g
     then foldl offerSample (vadBuffer g) (flat_map bytesToShort (pcmChunks actions))
     else vadBuffer g) ∧
  (vadInitialized g = false ∨ sendPcmToBackend g = true →
   runGate kept g = runGate actions g).
Proof.
  cbv zeta. split_and!.
  - by destruct (kept_run actions g) as [q ->].
  - destruct (kept_run actions g) as [q ->]. apply withVadBuffer_twice.
  - revert g. induction actions as [|a actions IH]; intros g.
    + simpl. by destruct (vadInitialized g).
    + rewrite runGate_cons. cbn [fst]. rewrite IH, act_vadBuffer.
      destruct (act_config a g) as (-> & _ & _).
      destruct (vadInitialized g); [|done].
      replace (pcmChunks (a :: actions)) with (pcmChunks [a] ++ pcmChunks actions)
        by (by destruct a).
      by rewrite flat_map_app, foldl_app.
  - revert g. induction actions as [|a actions IH]; intros g Hc; [done|].
    rewrite filter_cons. destruct (decide (enabled g a = true)) as [He|He].
    + rewrite !runGate_cons. rewrite <- filter_enabled_act with (a := a).
      destruct (act_config a g) as (Hv & Hp & _).
      rewrite IH by (by rewrite Hv, Hp). done.
    + rewrite runGate_cons. destruct (act_disabled a g He) as [_ Hskip].
      rewrite (Hskip Hc). cbn [fst snd app]. rewrite (IH g Hc).
      by destruct (runGate actions g).
Qed.

End GateRunFacts.

(** ** The SDK's event handlers *)

Section EventManagerFacts.

Import Sdk.

Lemma setAdd_spec (x : nat) (s : list nat) :
  NoDup s → setAdd x s ≠ [] ∧ NoDup (setAdd x s) ∧ x ∈ setAdd x s.
Proof.
  intros Hnd. unfold setAdd. case_bool_decide as Hx.
  - split_and!; [|done..]. intros ->. by apply not_elem_of_nil in Hx.
  - split_and!.
    + by destruct s.
    + apply NoDup_app. split_and!; [done| |apply NoDup_singleton].
      intros y Hy Hy'%list_elem_of_singleton. by subst.
    + apply elem_of_app. right. by left.
Qed.

Lemma setDelete_fresh (x : nat) (s : list nat) : x ∉ s → setDelete x (s ++ [x]) = s.
Proof.
  intros Hx. unfold setDelete. rewrite filter_app, filter_cons, decide_False by tauto.
  rewrite filter_nil, app_nil_r.
  induction s as [|y s IH]; [done|].
  apply not_elem_of_cons in Hx as [Hy Hx].
  rewrite filter_cons, decide_True by done. by rewrite IH.
Qed.

Lemma addHandler_tidy (type : string) (h : nat) (m : EventManager) :
  Tidy m → Tidy (addHandler type h m).
Proof.
  intros Ht t hs. unfold addHandler. simpl.
  destruct (decide (t = type)) as [->|Hne].
  - rewrite lookup_insert_eq. intros [= <-].
    assert (Hnd : NoDup (default [] (handlers m !! type))).
    { destruct (handlers m !! type) as [hs0|] eqn:E; simpl; [by apply (Ht type)|constructor]. }
    by destruct (setAdd_spec h _ Hnd) as (? & ? & _).
  - rewrite lookup_insert_ne by done. apply Ht.
Qed.

Lemma removeHandler_tidy (type : string) (h : nat) (m : EventManager) :
  Tidy m → Tidy (removeHandler type h m).
Proof.
  intros Ht t hs. unfold removeHandler.
  destruct (handlers m !! type) as [hs0|] eqn:E; [|apply Ht]. simpl.
  case_bool_decide as He.
  - destruct (decide (t = type)) as [->|Hne].
    + by rewrite lookup_delete_eq.
    + rewrite lookup_delete_ne by done. apply Ht.
  - destruct (decide (t = type)) as [->|Hne].
    + rewrite lookup_insert_eq. intros [= <-]. split; [done|].
      unfold setDelete. eapply sublist_NoDup; [|apply sublist_filter].
      by apply (Ht type).
    + rewrite lookup_insert_ne by done. apply Ht.
Qed.

(** X23.  The cloud is asked for a stream exactly when the first handler of its
    type is registered: registering a handler for a type that has none
    calls [subscribe] once, registering one more for a type that has some
    calls nothing, and removing a handler never calls anything, even when
    it was the last one of its type.  Both operations keep the table free
    of empty sets and of double entries. *)
Theorem subscribe_on_first_handler_only (type : string) (h : nat) (m : EventManager) :
  Tidy m →
  subscribed (addHandler type h m) =
    subscribed m ++ (if bool_decide (is_Some (handlers m !! type)) then [] else [type]) ∧
  subscribed (removeHandler type h m) = subscribed m ∧
  Tidy (addHandler type h m) ∧
  Tidy (removeHandler type h m).
Proof.
  intros Ht. split_and!; [| |by apply addHandler_tidy|by apply removeHandler_tidy].
  - unfold addHandler. simpl.
    destruct (handlers m !! type) as [hs|] eqn:E; simpl.
    + destruct (Ht type hs E) as [Hne _].
      rewrite bool_decide_eq_false_2 by done. by rewrite app_nil_r.
    + done.
  - unfold removeHandler. by destruct (handlers m !! type).
Qed.

(** X24.  Registering a handler that was not registered for the type and then
    calling the cleanup function that was returned puts the table of
    handlers back as it was. *)
Theorem cleanup_undoes_registration (type : string) (h : nat) (m : EventManager) :
  Tidy m →
  h ∉ default [] (handlers m !! type) →
  handlers (removeHandler type h (addHandler type h m)) = handlers m.
Proof.
  intros Ht Hh. unfold removeHandler, addHandler. simpl. rewrite lookup_insert_eq. simpl.
  assert (Ea : setAdd h (default [] (handlers m !! type)) =
               default [] (handlers m !! type) ++ [h]).
  { unfold setAdd. by rewrite bool_decide_eq_false_2. }
  rewrite Ea, setDelete_fresh by done.
  destruct (handlers m !! type) as [hs|] eqn:E; simpl.
  - destruct (Ht type hs E) as [Hne _]. rewrite bool_decide_eq_false_2 by done.
    rewrite insert_insert_eq. by apply insert_id.
  - rewrite delete_insert_eq. by apply delete_id.
Qed.

(** X25.  A handler is called once for an event of its type, however many
    times it was registered for it, after the listeners the emitter has
    for the event; and one call of a cleanup function removes it for
    good, so it is not called afterwards.  That is so for every event
    the emitter lets through: an [error] event for which the emitter has
    no listener makes [emit] throw before any handler is called. *)
Theorem handler_called_once (type : string) (h : nat) (data : string) (m : EventManager) :
  Tidy m →
  let twice := addHandler type h (addHandler type h m) in
  let system := (λ l, (l, data)) <$> default [] (listeners m !! type) in
  (type ≠ "error" ∨ system ≠ [] →
     (∃ calls, emit type data twice = Ok (system ++ calls) ∧
               filter (λ c, c.1 = h) calls = [(h, data)]) ∧
     (∃ calls, emit type data (removeHandler type h twice) = Ok (system ++ calls) ∧
               h ∉ calls.*1)) ∧
  (type = "error" → system = [] →
     ∃ e, emit type data twice = Throw e ∧
          emit type data (removeHandler type h twice) = Throw e).
Proof.
  intros Ht. cbv zeta.
  pose proof (addHandler_tidy type h _ (addHandler_tidy type h m Ht)) as Ht2.
  set (twice := addHandler type h (addHandler type h m)) in *.
  assert (Hin : ∃ hs, handlers twice !! type = Some hs ∧ h ∈ hs ∧ NoDup hs).
  { unfold twice, addHandler. simpl. rewrite !lookup_insert_eq. simpl.
    eexists. split; [done|].
    assert (Hnd : NoDup (default [] (handlers m !! type))).
    { destruct (handlers m !! type) as [hs0|] eqn:E; simpl; [by apply (Ht type)|constructor]. }
    destruct (setAdd_spec h _ Hnd) as (_ & Hnd1 & _).
    destruct (setAdd_spec h _ Hnd1) as (_ & Hnd2 & Hh). done. }
  destruct Hin as (hs & E & Hh & Hnd).
  assert (Hl2 : listeners twice = listeners m) by done.
  assert (Hl3 : listeners (removeHandler type h twice) = listeners m).
  { unfold removeHandler. by rewrite E. }
  assert (Hempty : ∀ ls : list nat, (λ l, (l, data)) <$> ls = [] ↔ ls = []).
  { intros [|? ?]; by split. }
  split.
  - intros Hlet.
    assert (Hgo : bool_decide (type = "error")
                  && bool_decide (default [] (listeners m !! type) = []) = false).
    { destruct Hlet as [Hne|Hne].
      - by rewrite (bool_decide_eq_false_2 _ Hne).
      - rewrite (bool_decide_eq_false_2 (default [] (listeners m !! type) = [])).
        + apply andb_false_r.
        + intros Heq. apply Hne. by apply Hempty. }
    split.
    + unfold emit. rewrite Hl2, Hgo, E. simpl. eexists. split; [done|].
      clear E Ht2 Hl3.
      induction Hnd as [|x hs Hx Hnd IH]; [by apply not_elem_of_nil in Hh|].
      cbn [fmap list_fmap]. rewrite filter_cons. simpl.
      destruct (decide (x = h)) as [->|Hne].
      * f_equal. clear IH Hh. induction hs as [|y hs IH]; [done|].
        apply not_elem_of_cons in Hx as [Hy Hx]. apply NoDup_cons in Hnd as [_ Hnd].
        cbn [fmap list_fmap]. rewrite filter_cons, decide_False by (simpl; congruence).
        by apply IH.
      * apply IH. apply elem_of_cons in Hh as [?|?]; [congruence|done].
    + unfold emit. rewrite Hl3, Hgo. eexists. split; [done|].
      unfold removeHandler. rewrite E. simpl. clear Hgo.
      case_bool_decide as He.
      * rewrite lookup_delete_eq. simpl. apply not_elem_of_nil.
      * rewrite lookup_insert_eq. simpl. rewrite <- list_fmap_compose. simpl.
        rewrite list_fmap_id. unfold setDelete. rewrite list_elem_of_filter. tauto.
  - intros -> Hs%Hempty. exists "Unhandled error".
    unfold emit. rewrite Hl2, Hl3, Hs. done.
Qed.

End EventManagerFacts.

(** ** The SDK's settings *)

Section SettingsFacts.

Import Sdk.

Lemma find_Some (k : string) (l : list AppSetting) (s : AppSetting) :
  find k l = Some s → s ∈ l ∧ key s = k.
Proof.
  induction l as [|x l IH]; [done|]. simpl.
  destruct (decide (key x = k)).
  - intros [= <-]. split; [by left|done].
  - intros [? ?]%IH. split; [by right|done].
Qed.

Lemma find_None (k : string) (l : list AppSetting) :
  find k l = None ↔ k ∉ key <$> l.
Proof.
  induction l as [|x l IH]; simpl.
  - split; [intros _; apply not_elem_of_nil|done].
  - rewrite not_elem_of_cons. destruct (decide (key x = k)).
    + split; [done|]. intros [? _]. congruence.
    + rewrite IH. split; [|tauto]. intros ?. split; [congruence|done].
Qed.

Lemma find_unique (l : list AppSetting) (s : AppSetting) :
  NoDup (key <$> l) → s ∈ l → find (key s) l = Some s.
Proof.
  induction l as [|x l IH]; intros Hnd Hin; [by apply not_elem_of_nil in Hin|].
  cbn [fmap list_fmap] in Hnd. apply NoDup_cons in Hnd as [Hx Hnd].
  simpl. apply elem_of_cons in Hin as [->|Hin].
  - by rewrite decide_True.
  - rewrite decide_False; [by apply IH|].
    intros Heq. apply Hx. rewrite Heq. apply list_elem_of_fmap. by exists s.
Qed.

Lemma existsb_key (k : string) (l : list AppSetting) :
  existsb (λ s, bool_decide (key s = k)) l = bool_decide (k ∈ key <$> l).
Proof.
  induction l as [|x l IH]; [done|]. simpl. rewrite IH.
  destruct (decide (key x = k)) as [E|E].
  - rewrite (bool_decide_eq_true_2 _ E). simpl. symmetry. apply bool_decide_eq_true_2.
    rewrite E. by left.
  - rewrite (bool_decide_eq_false_2 _ E). simpl. apply bool_decide_ext.
    rewrite elem_of_cons. split; [tauto|]. intros [?|?]; [congruence|done].
Qed.

Lemma areEqual_eq (a b : JsValue) : areEqual a b = true → a = b.
Proof. destruct a; simpl; try done; apply bool_decide_eq_true_1. Qed.

Lemma areEqual_refl (a : JsValue) : a ≠ JNaN → areEqual a a = true.
Proof. destruct a; simpl; try done; intros _; by apply bool_decide_eq_true_2. Qed.

Lemma unchanged_eq (old new : option JsValue) : unchanged old new = true → old = new.
Proof.
  destruct old as [a|], new as [b|]; simpl; try done.
  by intros ->%areEqual_eq.
Qed.

(** Whether the first loop records a change for a new setting, and the
    second a removal for an old one. *)
Lemma recordChange_cases (old : list AppSetting) (c : gmap string SettingChange)
    (s : AppSetting) :
  (recordChange old c s = c ∧
   unchanged (valueOf (key s) old) (Some (value s)) = true) ∨
  (recordChange old c s =
     assign (key s) (mkChange (default JUndefined (valueOf (key s) old)) (value s)) c ∧
   unchanged (valueOf (key s) old) (Some (value s)) = false).
Proof.
  unfold recordChange, valueOf.
  destruct (find (key s) old) as [o|]; simpl.
  - destruct (areEqual (value o) (value s)); [by left|by right].
  - by right.
Qed.

Lemma recordRemoval_cases (new : list AppSetting) (c : gmap string SettingChange)
    (o : AppSetting) :
  (recordRemoval new c o = c ∧ key o ∈ key <$> new) ∨
  (recordRemoval new c o = assign (key o) (mkChange (value o) JUndefined) c ∧
   key o ∉ key <$> new).
Proof.
  unfold recordRemoval. rewrite existsb_key. case_bool_decide; [by left|by right].
Qed.

Lemma assign_nonempty (k : string) (v : SettingChange) (c : gmap string SettingChange) :
  c ≠ ∅ → assign k v c ≠ ∅.
Proof. unfold assign. case_bool_decide; [done|]. intros _. apply insert_non_empty. Qed.

Lemma assign_empty (k : string) (v : SettingChange) (c : gmap string SettingChange) :
  assign k v c = ∅ → c = ∅ ∧ k = "__proto__".
Proof.
  unfold assign. case_bool_decide as Hk; [done|].
  intros Hi. by apply insert_non_empty in Hi.
Qed.

Lemma lookup_assign (k k' : string) (v : SettingChange) (c : gmap string SettingChange) :
  assign k v c !! k' =
  if bool_decide (k' = k) && negb (bool_decide (k = "__proto__")) then Some v else c !! k'.
Proof.
  unfold assign. case_bool_decide as Hp; simpl.
  - by rewrite andb_false_r.
  - rewrite andb_true_r. case_bool_decide as Hk.
    + subst. by rewrite lookup_insert_eq.
    + by rewrite lookup_insert_ne.
Qed.

Lemma foldl_recordChange_nonempty (old l : list AppSetting) (c : gmap string SettingChange) :
  c ≠ ∅ → foldl (recordChange old) c l ≠ ∅.
Proof.
  revert c. induction l as [|s l IH]; intros c Hc; [done|].
  simpl. apply IH.
  destruct (recordChange_cases old c s) as [[-> _]|[-> _]]; [done|by apply assign_nonempty].
Qed.

Lemma foldl_recordRemoval_nonempty (new l : list AppSetting) (c : gmap string SettingChange) :
  c ≠ ∅ → foldl (recordRemoval new) c l ≠ ∅.
Proof.
  revert c. induction l as [|s l IH]; intros c Hc; [done|].
  simpl. apply IH.
  destruct (recordRemoval_cases new c s) as [[-> _]|[-> _]]; [done|by apply assign_nonempty].
Qed.

Lemma foldl_recordChange_empty (old l : list AppSetting) (c : gmap string SettingChange) :
  foldl (recordChange old) c l = ∅ →
  c = ∅ ∧ ∀ s, s ∈ l → key s ≠ "__proto__" → valueOf (key s) old = Some (value s).
Proof.
  revert c. induction l as [|s l IH]; intros c Hc.
  - split; [done|]. intros s Hs. by apply not_elem_of_nil in Hs.
  - simpl in Hc. destruct (IH _ Hc) as [H0 Hall].
    destruct (recordChange_cases old c s) as [[E Hv]|[E _]]; rewrite E in H0.
    + split; [done|].
      intros s' [->|Hin]%elem_of_cons Hk; [by apply unchanged_eq|by apply Hall].
    + apply assign_empty in H0 as [-> Hp]. split; [done|].
      intros s' [->|Hin]%elem_of_cons Hk; [congruence|by apply Hall].
Qed.

Lemma foldl_recordRemoval_empty (new l : list AppSetting) (c : gmap string SettingChange) :
  foldl (recordRemoval new) c l = ∅ →
  c = ∅ ∧ ∀ o, o ∈ l → key o ≠ "__proto__" → key o ∈ key <$> new.
Proof.
  revert c. induction l as [|o l IH]; intros c Hc.
  - split; [done|]. intros s Hs. by apply not_elem_of_nil in Hs.
  - simpl in Hc. destruct (IH _ Hc) as [H0 Hall].
    destruct (recordRemoval_cases new c o) as [[E Hv]|[E _]]; rewrite E in H0.
    + split; [done|]. intros s' [->|Hin]%elem_of_cons Hk; [done|by apply Hall].
    + apply assign_empty in H0 as [-> Hp]. split; [done|].
      intros s' [->|Hin]%elem_of_cons Hk; [congruence|by apply Hall].
Qed.

Lemma updateSettings_cases (new : list AppSetting) (m : SettingsManager) :
  ((updateSettings new m).1 = ∅ ∧ (updateSettings new m).2 = m) ∨
  ((updateSettings new m).1 ≠ ∅ ∧
   (updateSettings new m).2 =
     mkSettingsManager new (emitted m ++ [(updateSettings new m).1])).
Proof. unfold updateSettings. cbv zeta. case_bool_decide; [by left|by right]. Qed.

(** No change recorded means that old and new settings give every key
    but [__proto__] the same value. *)
Lemma no_changes_same_values (new : list AppSetting) (m : SettingsManager) :
  (updateSettings new m).1 = ∅ →
  ∀ k, k ≠ "__proto__" → valueOf k (settings m) = valueOf k new.
Proof.
  unfold updateSettings. cbv zeta.
  set (c1 := foldl (recordChange (settings m)) ∅ new).
  set (c2 := foldl (recordRemoval new) c1 (settings m)).
  intros Hc. assert (Hc2 : c2 = ∅) by (by destruct (bool_decide (c2 = ∅))).
  apply foldl_recordRemoval_empty in Hc2 as [Hc1 Hold].
  apply foldl_recordChange_empty in Hc1 as [_ Hnew].
  intros k Hk. unfold valueOf at 2.
  destruct (find k new) as [s|] eqn:Es; simpl.
  - apply find_Some in Es as [Hin <-]. by apply Hnew.
  - apply find_None in Es. unfold valueOf.
    destruct (find k (settings m)) as [o|] eqn:Eo; [|done].
    apply find_Some in Eo as [Hin <-]. by destruct Es; apply Hold.
Qed.

(** X26.  After [updateSettings] the manager answers a [get] for any key
    but [__proto__] as the new settings say: when a change was found the
    new list is stored, and when none was found the old list, which is
    kept, gives every such key the value the new list gives it.  The list
    is replaced, and a change event emitted, exactly when the change map
    has a property of its own.  A change of a setting named [__proto__]
    adds none: when nothing else changes, the manager keeps the old list
    and goes on answering with the old value. *)
Theorem update_reflects_new_settings
    (new : list AppSetting) (m : SettingsManager) (k : string) (d : JsValue) :
  let r := updateSettings new m in
  (k ≠ "__proto__" → get k d r.2 = get k d (mkSettingsManager new [])) ∧
  (r.1 = ∅ → r.2 = m) ∧
  (r.1 ≠ ∅ → settings r.2 = new ∧ emitted r.2 = emitted m ++ [r.1]) ∧
  (∀ v v' events,
     updateSettings [mkSetting "__proto__" v']
                    (mkSettingsManager [mkSetting "__proto__" v] events) =
     (∅, mkSettingsManager [mkSetting "__proto__" v] events)).
Proof.
  cbv zeta. split_and!.
  - intros Hk. destruct (updateSettings_cases new m) as [[He Hm]|[Hne Hm]].
    + pose proof (no_changes_same_values new m He k Hk) as Hsame.
      rewrite Hm. unfold get, valueOf in *. simpl.
      destruct (find k (settings m)) as [o|], (find k new) as [s|]; simpl in *;
        try done; injection Hsame as Hsame; by rewrite Hsame.
    + by rewrite Hm.
  - by destruct (updateSettings_cases new m) as [[He Hm]|[Hne Hm]].
  - destruct (updateSettings_cases new m) as [[He Hm]|[Hne Hm]]; [done|].
    intros _. by rewrite Hm.
  - intros v v' events. unfold updateSettings, recordChange, recordRemoval, assign.
    simpl. by destruct (areEqual v v').
Qed.

Lemma foldl_recordChange_lookup (old l : list AppSetting) (c : gmap string SettingChange)
    (k : string) :
  NoDup (key <$> l) →
  foldl (recordChange old) c l !! k =
  match valueOf k l with
  | Some v =>
    if bool_decide (k = "__proto__") || unchanged (valueOf k old) (Some v) then c !! k
    else Some (mkChange (default JUndefined (valueOf k old)) v)
  | None => c !! k
  end.
Proof.
  revert c. induction l as [|s l IH]; intros c Hnd; [done|].
  cbn [fmap list_fmap] in Hnd. apply NoDup_cons in Hnd as [Hs Hnd].
  simpl. rewrite (IH _ Hnd).
  assert (Hv0 : valueOf k (s :: l) =
                if decide (key s = k) then Some (value s) else valueOf k l).
  { unfold valueOf. simpl. by destruct (decide (key s = k)). }
  rewrite Hv0. clear Hv0.
  destruct (decide (key s = k)) as [<-|Hne].
  - assert (Hn : valueOf (key s) l = None).
    { unfold valueOf. by rewrite (proj2 (find_None (key s) l) Hs). }
    rewrite Hn.
    destruct (recordChange_cases old c s) as [[-> Hv]|[-> Hv]]; rewrite Hv.
    + by rewrite orb_true_r.
    + rewrite lookup_assign, orb_false_r. rewrite (bool_decide_eq_true_2 (key s = key s)) by done.
      by destruct (bool_decide (key s = "__proto__")).
  - assert (Hc : recordChange old c s !! k = c !! k).
    { destruct (recordChange_cases old c s) as [[-> _]|[-> _]]; [done|].
      rewrite lookup_assign. by rewrite (bool_decide_eq_false_2 (k = key s)). }
    by rewrite Hc.
Qed.

Lemma foldl_recordRemoval_lookup (new l : list AppSetting) (c : gmap string SettingChange)
    (k : string) :
  NoDup (key <$> l) →
  foldl (recordRemoval new) c l !! k =
  match valueOf k l with
  | Some v =>
    if bool_decide (k = "__proto__") || bool_decide (k ∈ key <$> new) then c !! k
    else Some (mkChange v JUndefined)
  | None => c !! k
  end.
Proof.
  revert c. induction l as [|o l IH]; intros c Hnd; [done|].
  cbn [fmap list_fmap] in Hnd. apply NoDup_cons in Hnd as [Hs Hnd].
  simpl. rewrite (IH _ Hnd).
  assert (Hv0 : valueOf k (o :: l) =
                if decide (key o = k) then Some (value o) else valueOf k l).
  { unfold valueOf. simpl. by destruct (decide (key o = k)). }
  rewrite Hv0. clear Hv0.
  destruct (decide (key o = k)) as [<-|Hne].
  - assert (Hn : valueOf (key o) l = None).
    { unfold valueOf. by rewrite (proj2 (find_None (key o) l) Hs). }
    rewrite Hn.
    destruct (recordRemoval_cases new c o) as [[-> Hv]|[-> Hv]].
    + rewrite (bool_decide_eq_true_2 _ Hv). by rewrite orb_true_r.
    + rewrite (bool_decide_eq_false_2 _ Hv), orb_false_r, lookup_assign.
      rewrite (bool_decide_eq_true_2 (key o = key o)) by done.
      by destruct (bool_decide (key o = "__proto__")).
  - assert (Hc : recordRemoval new c o !! k = c !! k).
    { destruct (recordRemoval_cases new c o) as [[-> _]|[-> _]]; [done|].
      rewrite lookup_assign. by rewrite (bool_decide_eq_false_2 (k = key o)). }
    by rewrite Hc.
Qed.

(** X27.  When neither list of settings names a key twice, the change map
    returned by [updateSettings] is exactly the difference between them,
    the key [__proto__] left out: it has an entry for any other key unless
    both lists give the key a value and the two are equal under [===], or
    neither has the key; the entry carries the two values, [undefined]
    standing for a missing one.  Under [__proto__] the map never has an
    entry of its own.  A value [NaN] is not equal to itself, so a setting
    that holds it is reported as changed by every update. *)
Theorem change_map_is_the_difference
    (new : list AppSetting) (m : SettingsManager) (k : string) :
  NoDup (key <$> settings m) →
  NoDup (key <$> new) →
  (updateSettings new m).1 !! k =
    if bool_decide (k = "__proto__")
       || unchanged (valueOf k (settings m)) (valueOf k new) then None
    else Some (mkChange (default JUndefined (valueOf k (settings m)))
                        (default JUndefined (valueOf k new))).
Proof.
  intros Hold Hnew.
  assert (E : (updateSettings new m).1 =
              foldl (recordRemoval new) (foldl (recordChange (settings m)) ∅ new) (settings m)).
  { unfold updateSettings. cbv zeta. by destruct (bool_decide _). }
  rewrite E, foldl_recordRemoval_lookup, foldl_recordChange_lookup by done.
  rewrite lookup_empty.
  destruct (bool_decide (k = "__proto__")) eqn:Ep; simpl.
  { by destruct (valueOf k (settings m)), (valueOf k new). }
  destruct (valueOf k new) as [v|] eqn:En.
  - assert (Hin : k ∈ key <$> new).
    { unfold valueOf in En. destruct (find k new) as [s|] eqn:Es; [|done].
      apply find_Some in Es as [? <-]. apply list_elem_of_fmap. by exists s. }
    destruct (valueOf k (settings m)) as [vo|] eqn:Eo; simpl.
    + rewrite bool_decide_eq_true_2 by done. by destruct (areEqual vo v).
    + done.
  - assert (Hout : k ∉ key <$> new).
    { unfold valueOf in En. destruct (find k new) as [s|] eqn:Es; [done|].
      by apply find_None. }
    destruct (valueOf k (settings m)) as [vo|] eqn:Eo; simpl; [|done].
    by rewrite bool_decide_eq_false_2.
Qed.

(** X28.  Handing the manager the same settings a second time changes nothing
    and emits nothing, provided the list names no key twice and holds no
    value [NaN]. *)
Theorem same_settings_twice_is_silent (new : list AppSetting) (m : SettingsManager) :
  NoDup (key <$> new) →
  Forall (λ s, value s ≠ JNaN) new →
  let m1 := (updateSettings new m).2 in
  updateSettings new m1 = (∅, m1).
Proof.
  intros Hnd Hnan. cbv zeta.
  destruct (updateSettings_cases new m) as [[He Hm]|[Hne Hm]].
  - revert He Hm. destruct (updateSettings new m) as [c m'] eqn:E. simpl.
    intros -> ->. exact E.
  - rewrite Hm. set (m0 := mkSettingsManager new _).
    unfold updateSettings. cbv zeta. change (settings m0) with new.
    assert (E1 : foldl (recordChange new) ∅ new = ∅).
    { assert (H : ∀ l c, (∀ s, s ∈ l → s ∈ new) → foldl (recordChange new) c l = c).
      { induction l as [|s l IH]; intros c Hl; [done|]. simpl.
        rewrite IH by (intros s' ?; apply Hl; by right).
        destruct (recordChange_cases new c s) as [[-> _]|[_ Hv]]; [done|].
        assert (Hs : s ∈ new) by (apply Hl; by left).
        unfold valueOf in Hv. rewrite (find_unique new s Hnd Hs) in Hv. simpl in Hv.
        rewrite areEqual_refl in Hv; [done|].
        by apply (proj1 (Forall_forall _ _) Hnan). }
      by apply H. }
    rewrite E1.
    assert (E2 : foldl (recordRemoval new) ∅ new = ∅).
    { assert (H : ∀ l c, (∀ o, o ∈ l → o ∈ new) → foldl (recordRemoval new) c l = c).
      { induction l as [|o l IH]; intros c Hl; [done|]. simpl.
        rewrite IH by (intros s' ?; apply Hl; by right).
        destruct (recordRemoval_cases new c o) as [[-> _]|[_ Hv]]; [done|].
        exfalso. apply Hv. apply list_elem_of_fmap. exists o. split; [done|].
        apply Hl. by left. }
      by apply H. }
    rewrite E2. by rewrite bool_decide_eq_true_2.
Qed.

End SettingsFacts.

(** ** The lifecycle handlers as a whole *)

Section LifecycleHandlerFacts.

Import Lifecycle.

Variable svc : Services.

Ltac lunfold :=
  unfold removeSubscriptions, persistRunningApp, whenGlassesConnected,
    hasMediaSubscriptions, sendDebouncedMicrophoneStateChange, sendAppState,
    call, emit, modifySession, modifyMedia, getSession, try_catch, throw,
    mbind, M_bind, mret, M_ret in *.

Ltac lcases := repeat (case_match; simplify_eq/=).





Lemma without_fresh (p : string) (l : list string) : p ∉ l → without p (l ++ [p]) = l.
Proof.
  intros Hp. unfold without. rewrite filter_app, filter_cons, decide_False by tauto.
  rewrite filter_nil, app_nil_r.
  induction l as [|x l IH]; [done|].
  apply not_elem_of_cons in Hp as [Hx Hp].
  rewrite filter_cons, decide_True by done. by rewrite IH.
Qed.

(** A stop of a package that has no connection changes nothing in the
    session but the active list, whichever of its steps fail. *)
Lemma stopAppSession_unbound (p : string) (app : AppI) (w : World) :
  getApp svc p = Found app →
  appConnections (session w) !! p = None →
  session (stopAppSession svc p w).2 = set_active (without p) (session w).
Proof.
  intros Hf Hc. unfold stopAppSession. rewrite Hf. lunfold. simpl.
  destruct (removeSubscriptions_throws svc p); simpl; rewrite ?Hc;
    lcases; unfold set_active; simpl; rewrite ?without_idem; done.
Qed.

(** X30.  Starting an app that is not STANDARD and stopping it again, without
    a bind in between, leaves the session as it was: the package is
    active in between, and afterwards the active list, the loading set
    and the connections are those of before the start. *)
Theorem start_then_stop_restores_session (p : string) (app : AppI) (w : World) :
  p ∉ loadingApps (session w) →
  p ∉ activeAppSessions (session w) →
  getApp svc p = Found app →
  tpaType app ≠ STANDARD →
  launchFails svc app = false →
  appConnections (session w) !! p = None →
  let w1 := (startAppSession svc p w).2 in
  let w2 := (stopAppSession svc p w1).2 in
  activeAppSessions (session w1) = activeAppSessions (session w) ++ [p] ∧
  session w2 = session w.
Proof.
  intros Hl Ha Hf Hstd Hlaunch Hc. cbv zeta.
  pose proof (startAppSession_fresh svc p app w Hl Ha Hf) as Hs. cbv zeta in Hs.
  rewrite Hlaunch in Hs. destruct Hs as (Hl1 & Hc1 & Hs1 & _ & Ha1).
  assert (Hbase : afterExclusivity svc app (activeAppSessions (session w)) =
                  activeAppSessions (session w)).
  { unfold afterExclusivity. by rewrite decide_False. }
  rewrite Hbase in Ha1. split; [done|].
  set (w1 := (startAppSession svc p w).2) in *.
  assert (Hrest : userId (session w1) = userId (session w) ∧
                  websocket (session w1) = websocket (session w) ∧
                  appConnections (session w1) = appConnections (session w)).
  { unfold w1, startAppSession, beginLoading, launchApp, startFailed.
    unfold has, includes. lunfold. simpl.
    rewrite !bool_decide_eq_false_2 by done. simpl. rewrite Hf.
    rewrite decide_False by done. simpl.
    lcases; done. }
  destruct Hrest as (Hu1 & Hw1 & Hcs1).
  pose proof (stopAppSession_unbound p app w1 Hf) as Hstop.
  rewrite Hcs1 in Hstop. specialize (Hstop Hc).
  rewrite Hstop.
  destruct (session w1) as [sid uid ld act cs wsk] eqn:E1.
  destruct (session w) as [sid0 uid0 ld0 act0 cs0 wsk0] eqn:E0.
  unfold set_active. simpl in *. subst. f_equal. by apply without_fresh.
Qed.

End LifecycleHandlerFacts.

Section LifecycleHandlerRuns.

Import Lifecycle.

Lemma start_then_stop_restores_session_witness :
  session (stopAppSession demoServices "com.x"
             (startAppSession demoServices "com.x" (emptyWorld "s1" "u@x")).2).2 =
  session (emptyWorld "s1" "u@x").
Proof.
  destruct (start_then_stop_restores_session demoServices "com.x"
              (mkApp "com.x" "http://x" BACKGROUND false) (emptyWorld "s1" "u@x"))
    as [_ H].
  - apply (bool_decide_unpack _). vm_compute. exact I.
  - apply not_elem_of_nil.
  - reflexivity.
  - discriminate.
  - reflexivity.
  - reflexivity.
  - exact H.
Defined.

End LifecycleHandlerRuns.

Section RouterRuns.

Import Lifecycle TpaChannel.

Lemma tpaSessionId_round_trip_witness :
  split "-" (tpaSessionId (emptySession "s1" "u@x") "com.x") = ["s1"; "com.x"] ∧
  split "-" (tpaSessionId (emptySession "s1" "u@x") "com.my-app") !! 1%nat = Some "com.my".
Proof.
  destruct (tpaSessionId_round_trip (emptySession "s1" "u@x") "com.x" "beta")
    as (_ & H1 & _); [reflexivity..|].
  destruct (tpaSessionId_round_trip (emptySession "s1" "u@x") "com.my" "app")
    as (_ & _ & H2); [reflexivity..|].
  split; [exact H1|exact H2].
Defined.

Lemma close_drops_bound_connection_witness :
  appConnections
    (session (handleTpaInit demoServices demoSocket demoInit (emptyWorld "s1" "u@x")).2)
    !! "com.x" = Some demoSocket ∧
  ∃ w2, onClose demoServices
          (boundSession demoServices demoInit (emptyWorld "s1" "u@x") None)
          (handleTpaInit demoServices demoSocket demoInit (emptyWorld "s1" "u@x")).2
          = (Ok (), w2) ∧
        appConnections (session w2) =
          delete "com.x" (appConnections (session (emptyWorld "s1" "u@x"))).
Proof.
  destruct (close_drops_bound_connection demoServices demoSocket demoInit
              (emptyWorld "s1" "u@x"))
    as (_ & Hc & w2 & E & Ha & _); [reflexivity..|].
  split; [exact Hc|]. exists w2. split; [exact E|exact Ha].
Defined.

Lemma language_change_detection_witness :
  languageSubscriptionsChanged ["transcription:en-US"; "transcription:es-ES"]
                               ["transcription:es-ES"; "transcription:en-US"] = false.
Proof.
  apply (language_change_detection
           ["transcription:en-US"; "transcription:es-ES"]
           ["transcription:es-ES"; "transcription:en-US"]).
  - apply (bool_decide_unpack _). vm_compute. exact I.
  - apply Permutation_swap.
Defined.

End RouterRuns.

Section SpeechControlRuns.

Import Transcription SpeechControl.

Lemma canceled_stream_is_not_replaced_witness :
  newCalls englishOnly
    (onCanceled sdkReturns (mkStream TRANSCRIPTION 1 0 (mkLang TRANSCRIPTION "en-US" None))
                "transcription:en-US" englishOnly).2 =
  [StopTranscribing "transcription:en-US" 1; CloseRecognizer 1; ClosePushStream 0].
Proof.
  destruct (canceled_stream_is_not_replaced demoLanguageInfo sdkReturns "transcription:en-US"
              (mkStream TRANSCRIPTION 1 0 (mkLang TRANSCRIPTION "en-US" None))
              ["transcription:en-US"] englishOnly []) as (H & _).
  - apply (bool_decide_unpack _). vm_compute. exact I.
  - apply list_elem_of_In. vm_compute. left. reflexivity.
  - apply (bool_decide_unpack _). vm_compute. exact I.
  - exact H.
Defined.

Lemma completed_update_is_exact_and_stable_witness :
  ∃ st' writes,
    updateTranscriptionStreams demoLanguageInfo sdkReturns
      ["transcription:es-ES"; "transcription:es-ES"] englishOnly = (Ok (), st') ∧
    feedAudioToTranscriptionStreams st' [Byte.x01] = Some writes ∧
    length writes = 1%nat ∧
    updateTranscriptionStreams demoLanguageInfo sdkReturns
      ["transcription:es-ES"; "transcription:es-ES"] st' = (Ok (), st').
Proof.
  destruct (completed_update_is_exact_and_stable demoLanguageInfo sdkReturns
              ["transcription:es-ES"; "transcription:es-ES"] englishOnly
              (updateTranscriptionStreams demoLanguageInfo sdkReturns
                 ["transcription:es-ES"; "transcription:es-ES"] englishOnly).2
              [Byte.x01])
    as (_ & (writes & Hw & Hl & _) & Hs).
  - apply (bool_decide_unpack _). vm_compute. exact I.
  - vm_compute. reflexivity.
  - exists (updateTranscriptionStreams demoLanguageInfo sdkReturns
              ["transcription:es-ES"; "transcription:es-ES"] englishOnly).2, writes.
    split; [vm_compute; reflexivity|].
    split; [exact Hw|]. split; [exact Hl|exact Hs].
Defined.

Lemma vad_message_settles_streams_witness :
  ∃ sp', handleVad demoLanguageInfo sdkReturns ["transcription:en-US"] (StatusString "true")
           (mkSpeech noStreams false) = (Ok (), sp') ∧
         isTranscribing sp' = true.
Proof.
  destruct (vad_message_settles_streams demoLanguageInfo sdkReturns ["transcription:en-US"]
              (StatusString "true") (mkSpeech noStreams false))
    as (sp' & E & _ & _ & _ & H).
  exists sp'. split; [exact E|]. apply H.
  intros k Hk. right. apply list_elem_of_singleton in Hk as ->.
  apply (bool_decide_unpack _). vm_compute. exact I.
Defined.

Lemma final_segments_kept_for_thirty_minutes_witness :
  mkSegment "r0" None "hi" 0 true ∈
    updateTranscriptHistory [mkSegment "r0" None "hi" 0 true] holaInterim false 1000.
Proof.
  apply (final_segments_kept_for_thirty_minutes
           [mkSegment "r0" None "hi" 0 true] holaInterim false 1000).
  - by left.
  - reflexivity.
  - vm_compute. discriminate.
Defined.

End SpeechControlRuns.

Section MicHistoryRuns.

Import MicDebounce MicHistory.

Lemma idle_consistent (sid : string) : Consistent sid idle.
Proof. intros d H. unfold idle in H. simpl in H. by rewrite lookup_empty in H. Qed.

Lemma mic_settles_on_last_request_witness :
  last (sentTo "s1" (advance neverThrows neverThrows 1400 "s1"
                       (serve neverThrows neverThrows "s1"
                          ([(0, true)] ++ [(400, false)])%Z idle)))
    = Some false.
Proof.
  destruct (mic_settles_on_last_request neverThrows neverThrows "s1"
              [(0, true)]%Z 400 false 1400 idle)
    as (H & _).
  - apply idle_consistent.
  - vm_compute. discriminate.
  - reflexivity.
  - reflexivity.
  - reflexivity.
  - exact H.
Defined.

Lemma debouncers_are_per_session_witness :
  sentTo "s2" (advance neverThrows alwaysThrows 2000 "s1"
                 (serve neverThrows alwaysThrows "s1" [(0, true)]%Z idle)) = sentTo "s2" idle.
Proof.
  destruct (debouncers_are_per_session neverThrows alwaysThrows "s1" "s2"
              [(0, true)]%Z 2000 idle) as (_ & H & _).
  - discriminate.
  - exact H.
Defined.

End MicHistoryRuns.

Section GraceTimerRuns.

Import GlassesChannel.

Lemma stale_grace_timer_ends_session_witness :
  endedAt (react (TimePasses 60000)
             (react SocketClosed
                (react (TimePasses 30000)
                   (react SocketReplaced (react SocketClosed (connected 0))))))
    = [60000%Z].
Proof.
  destruct (stale_grace_timer_ends_session (connected 0) 30000 100000)
    as (_ & _ & H & _).
  - reflexivity.
  - simpl. lia.
  - lia.
  - exact H.
Defined.

End GraceTimerRuns.

Section VadAudioRuns.

Import VadGate VadAudio.

Lemma shorts_bytes_round_trip_witness :
  bytesToShort (shortsToBytes [-2; 513]%Z) = [-2; 513]%Z.
Proof.
  apply (shorts_bytes_round_trip [-2; 513]%Z []).
  repeat constructor; lia.
Defined.

Lemma vad_queue_keeps_newest_samples_witness :
  foldl queueStep [] (Offer <$> [1; 2]%Z) =
  drop (length ([] ++ [1; 2]%Z) - Z.to_nat VAD_BUFFER_LIMIT) ([] ++ [1; 2]%Z).
Proof.
  apply (vad_queue_keeps_newest_samples [Offer 1%Z; Poll] [1; 2]%Z []).
  vm_compute. discriminate.
Defined.

Lemma pcm_reaches_vad_unchanged_witness :
  concat (processSamples (foldl queueStep [] (Offer <$> bytesToShort someChunk)) []).1 ++
  shortsToBytes (processSamples (foldl queueStep [] (Offer <$> bytesToShort someChunk)) []).2
    = someChunk.
Proof.
  apply (pcm_reaches_vad_unchanged someChunk).
  - reflexivity.
  - vm_compute. discriminate.
Defined.

Lemma rolling_buffer_holds_latest_chunks_witness :
  lc3RollingBuffer
    (runGate [IngestLC3 someChunk; Listener true; IngestLC3 otherChunk]
             (initialGate false false)).1 =
  [someChunk; otherChunk].
Proof.
  destruct (rolling_buffer_holds_latest_chunks
              [IngestLC3 someChunk; Listener true; IngestLC3 otherChunk]
              (initialGate false false)) as [H _].
  - simpl. unfold LC3_BUFFER_MAX_SIZE. lia.
  - exact H.
Defined.

Lemma open_gate_forwards_every_chunk_witness :
  (runGate [IngestLC3 someChunk; Ingest otherChunk; IngestLC3 otherChunk]
           (initialGate true false)).2 =
  [AudioChunk someChunk; AudioChunk otherChunk].
Proof.
  apply (open_gate_forwards_every_chunk
           [IngestLC3 someChunk; Ingest otherChunk; IngestLC3 otherChunk]
           (initialGate true false)).
  - by repeat constructor.
  - reflexivity.
Defined.

End VadAudioRuns.

Section SdkRuns.

Import Sdk.

Lemma empty_tidy : Tidy (mkEventManager ∅ [] ∅).
Proof. intros t hs H. simpl in H. by rewrite lookup_empty in H. Qed.

Lemma subscribe_on_first_handler_only_witness :
  subscribed (addHandler "vad" 2 (addHandler "vad" 1 (mkEventManager ∅ [] ∅))) = ["vad"].
Proof.
  destruct (subscribe_on_first_handler_only "vad" 1 (mkEventManager ∅ [] ∅) empty_tidy)
    as (H1 & _ & Ht & _).
  destruct (subscribe_on_first_handler_only "vad" 2 _ Ht) as (H2 & _).
  rewrite H2, H1. reflexivity.
Defined.

Lemma cleanup_undoes_registration_witness :
  handlers (removeHandler "vad" 1 (addHandler "vad" 1 (mkEventManager ∅ [] ∅))) = ∅.
Proof.
  apply (cleanup_undoes_registration "vad" 1 (mkEventManager ∅ [] ∅) empty_tidy).
  simpl. rewrite lookup_empty. apply not_elem_of_nil.
Defined.

Lemma handler_called_once_witness :
  emit "vad" "speech" (addHandler "vad" 1 (addHandler "vad" 1 (mkEventManager ∅ [] ∅))) =
    Ok [(1%nat, "speech")] ∧
  emit "error" "lost" (addHandler "error" 1 (addHandler "error" 1 (mkEventManager ∅ [] ∅))) =
    Throw "Unhandled error".
Proof.
  split.
  - destruct (handler_called_once "vad" 1 "speech" (mkEventManager ∅ [] ∅) empty_tidy)
      as [H _].
    destruct H as [(calls & E & _) _]; [by left|]. rewrite E.
    vm_compute in E. by injection E as <-.
  - destruct (handler_called_once "error" 1 "lost" (mkEventManager ∅ [] ∅) empty_tidy)
      as [_ H].
    destruct H as (e & E & _); [done..|]. rewrite E.
    vm_compute in E. by injection E as <-.
Defined.

Lemma update_reflects_new_settings_witness :
  get "line_width" JUndefined
      (updateSettings [mkSetting "line_width" (JNumber 30)] (mkSettingsManager [] [])).2 =
  JNumber 30.
Proof.
  destruct (update_reflects_new_settings [mkSetting "line_width" (JNumber 30)]
              (mkSettingsManager [] []) "line_width" JUndefined) as [H _].
  by apply H.
Defined.

Lemma change_map_is_the_difference_witness :
  (updateSettings [mkSetting "line_width" (JNumber 30)]
     (mkSettingsManager [mkSetting "line_width" (JNumber 38)] [])).1 !! "line_width" =
  Some (mkChange (JNumber 38) (JNumber 30)).
Proof.
  rewrite (change_map_is_the_difference [mkSetting "line_width" (JNumber 30)]
             (mkSettingsManager [mkSetting "line_width" (JNumber 38)] []) "line_width").
  - reflexivity.
  - simpl. apply NoDup_singleton.
  - simpl. apply NoDup_singleton.
Defined.

Lemma same_settings_twice_is_silent_witness :
  updateSettings [mkSetting "line_width" (JNumber 30)]
    (updateSettings [mkSetting "line_width" (JNumber 30)]
       (mkSettingsManager [mkSetting "line_width" (JNumber 38)] [])).2 =
  (∅, (updateSettings [mkSetting "line_width" (JNumber 30)]
         (mkSettingsManager [mkSetting "line_width" (JNumber 38)] [])).2).
Proof.
  apply (same_settings_twice_is_silent [mkSetting "line_width" (JNumber 30)]
           (mkSettingsManager [mkSetting "line_width" (JNumber 38)] [])).
  - simpl. apply NoDup_singleton.
  - by apply Forall_singleton.
Defined.

End SdkRuns.

